(** * compact_bitset: a shallow embedding of [compact_bitset.h]

    [compact_bitset<N, T>] packs [N] bits into an array of unsigned
    words of type [T].  The embedding follows the header function by
    function: a word is a [Z] in [0, 2^TBits) with truncation written
    out, the backing array [data] is a [list Z], indices are [nat],
    strings are [list ascii], a thrown exception is an [Err] result.

    Platform facts fixed by the model: little-endian byte order,
    [sizeof(std::size_t) = 8], [unsigned long long] of 64 bits.  The
    width of [unsigned long] is a parameter of [to_ulong]. *)

From Stdlib Require Import ZArith Ascii String List Bool Arith Lia.
Import ListNotations.

Set Implicit Arguments.

(** ** Words *)

(** The unsigned integral types the template accepts for [T]. *)
Inductive WordTy : Type := U8 | U16 | U32 | U64.

(** [sizeof(T)] in bytes. *)
Definition sizeof (T : WordTy) : nat :=
  match T with U8 => 1 | U16 => 2 | U32 => 4 | U64 => 8 end.

(** The default template argument for [T]:
    [N <= 8 ? uint8_t : N <= 16 ? uint16_t : N <= 32 ? uint32_t : uint64_t]. *)
Definition default_T (N : nat) : WordTy :=
  if N <=? 8 then U8
  else if N <=? 16 then U16
  else if N <=? 32 then U32
  else U64.

(** ** Exceptions *)

Inductive exn : Type :=
| OutOfRange        (* std::out_of_range *)
| InvalidArgument   (* std::invalid_argument *)
| Overflow.         (* std::overflow_error *)

Inductive result (A : Type) : Type :=
| Ok (a : A)
| Err (e : exn).
Arguments Ok {A} a.
Arguments Err {A} e.

Definition bind {A B : Type} (r : result A) (k : A -> result B) : result B :=
  match r with
  | Ok a => k a
  | Err e => Err e
  end.

Notation "'do' x <- r ; k" := (bind r (fun x => k))
  (at level 10, x name, r at level 100, k at level 200).

(** ** Generic helpers *)

(** [a[i] = v] on an array; the sources never write outside the array,
    and an index past the end leaves the list as it is. *)
Fixpoint update {A : Type} (l : list A) (i : nat) (v : A) : list A :=
  match l, i with
  | [], _ => []
  | _ :: t, O => v :: t
  | h :: t, S j => h :: update t j v
  end.

(** [for (i = lo; i < hi; ++i) body] over a state [S]. *)
Definition for_range {S : Type} (lo hi : nat) (body : nat -> S -> S) (s : S) : S :=
  fold_left (fun acc i => body i acc) (seq lo (hi - lo)) s.

(** The test [word & (Int(1) << i)] used as a condition. *)
Definition bit_and (word : Z) (i : nat) : bool :=
  negb (Z.land word (Z.shiftl 1 (Z.of_nat i)) =? 0)%Z.

(** The portable body of [get_popcount]: count the set bits among the
    low [nBits] positions ([__builtin_popcount] returns the same). *)
Definition get_popcount (nBits : nat) (word : Z) : nat :=
  for_range 0 nBits (fun i ret => if bit_and word i then ret + 1 else ret) 0.

(** The portable body of [ffs]: one plus the index of the lowest set
    bit, 0 for a zero word ([__builtin_ffs] returns the same). *)
Definition ffs (nBits : nat) (word : Z) : Z :=
  if (word =? 0)%Z then 0%Z
  else match find (bit_and word) (seq 0 nBits) with
       | Some i => (Z.of_nat i + 1)%Z
       | None => 0%Z
       end.

(** [std::size_t(ffs(word) - 1)]. *)
Definition ffs_index (nBits : nat) (word : Z) : nat :=
  Z.to_nat ((ffs nBits word - 1) mod 2 ^ 64).

(** ** Input streams *)

(** A [std::basic_istream<char>] over an in-memory buffer: the
    characters not yet extracted and the three state bits. *)
Record istream : Type := mkIstream {
  buf : list ascii;
  eofbit : bool;
  failbit : bool;
  badbit : bool
}.

Definition is_eof (s : istream) : bool := eofbit s.
Definition is_good (s : istream) : bool :=
  negb (eofbit s) && negb (failbit s) && negb (badbit s).

Definition setstate_fail (s : istream) : istream :=
  mkIstream (buf s) (eofbit s) true (badbit s).
Definition setstate_eof (s : istream) : istream :=
  mkIstream (buf s) true (failbit s) (badbit s).

(** [Traits::to_char_type(Traits::eof())] for [char]. *)
Definition eof_char : ascii := ascii_of_nat 255.

(** [is.peek()]: the next character without extracting it; at the end
    of the buffer it sets [eofbit] and returns [Traits::eof()]; on a
    stream that is not good the sentry sets [failbit]. *)
Definition is_peek (s : istream) : ascii * istream :=
  if is_good s then
    match buf s with
    | c :: _ => (c, s)
    | [] => (eof_char, setstate_eof s)
    end
  else (eof_char, setstate_fail s).

(** [is.get(ch)]: extract one character into [ch]; when nothing can be
    extracted [ch] keeps its value and [failbit] (with [eofbit] at the
    end of the buffer) is set. *)
Definition is_get (s : istream) (ch : ascii) : ascii * istream :=
  if is_good s then
    match buf s with
    | c :: rest => (c, mkIstream rest (eofbit s) (failbit s) (badbit s))
    | [] => (ch, setstate_fail (setstate_eof s))
    end
  else (ch, setstate_fail s).

(** ** The class template *)

Section CompactBitset.

Variable T : WordTy.
Variable N : nat.

Definition TBits : nat := sizeof T * 8.
Definition NFullyUsedWords : nat := N / TBits.
Definition NBitsRem : nat := N mod TBits.
Definition NWords : nat := NFullyUsedWords + (if NBitsRem =? 0 then 0 else 1).

(** Conversion of an integer value to [T]. *)
Definition wrap (z : Z) : Z := (z mod 2 ^ Z.of_nat TBits)%Z.

Definition AllMask : Z := wrap (Z.lnot 0).
Definition LastWordMask : Z := wrap (Z.shiftl 1 (Z.of_nat NBitsRem) - 1).

(** [std::array<T, NWords> data]. *)
Definition DataArray : Type := list Z.

(** The backing array is well formed when it has [NWords] words, each
    a value of type [T]. *)
Definition wf (d : DataArray) : Prop :=
  length d = NWords /\ Forall (fun w => 0 <= w < 2 ^ Z.of_nat TBits)%Z d.

(** *** The proxy [reference] *)

Record reference : Type := mkRef {
  word : nat;   (* index of the referenced word in [data] *)
  bpos : nat    (* position of the bit in that word *)
}.

Definition make_ref (i : nat) : reference := mkRef (i / TBits) (i mod TBits).

(** [reference::operator=(bool)]. *)
Definition ref_assign (d : DataArray) (r : reference) (b : bool) : DataArray :=
  let w := nth (word r) d 0%Z in
  let m := Z.shiftl 1 (Z.of_nat (bpos r)) in
  update d (word r) (wrap (if b then Z.lor w m else Z.land w (Z.lnot m))).

(** [reference::operator bool()]. *)
Definition ref_bool (d : DataArray) (r : reference) : bool :=
  negb (Z.land (Z.shiftr (nth (word r) d 0%Z) (Z.of_nat (bpos r))) 1 =? 0)%Z.

(** [reference::flip()]. *)
Definition ref_flip (d : DataArray) (r : reference) : DataArray :=
  ref_assign d r (negb (ref_bool d r)).

(** [operator[]]: the read [x[pos]] and the write [x[pos] = b]; neither checks [pos]. *)
Definition index (d : DataArray) (pos : nat) : bool := ref_bool d (make_ref pos).
Definition index_assign (d : DataArray) (pos : nat) (b : bool) : DataArray :=
  ref_assign d (make_ref pos) b.

Definition size : nat := N.

Definition throw_if_out_of_range (pos : nat) : result unit :=
  if size <=? pos then Err OutOfRange else Ok tt.

(** *** Construction and assignment *)

(** [compact_bitset()]: all words zero. *)
Definition ctor_default : DataArray := repeat 0%Z NWords.

(** Copy assignment, [if constexpr (N > 0) data = o.data]. *)
Definition copy_assign (this o : DataArray) : DataArray :=
  if 0 <? N then o else this.

(** Copy construction: [this] starts uninitialized, with the words [g]. *)
Definition copy_ctor (g o : DataArray) : DataArray := copy_assign g o.

(** [compact_bitset(unsigned long long val)]; the loop clears one bit
    of [val] per iteration, so 64 iterations exhaust it. *)
Fixpoint ctor_ull_loop (fuel : nat) (val : Z) (d : DataArray) : DataArray :=
  match fuel with
  | O => d
  | S fuel' =>
      if (val =? 0)%Z then d
      else
        let bit := ffs_index 64 val in
        if (N <? 64) && (N <=? bit) then d
        else ctor_ull_loop fuel'
               (Z.land val (Z.lnot (Z.shiftl 1 (Z.of_nat bit))))
               (index_assign d bit true)
  end.

Definition ctor_ull (val : Z) : DataArray := ctor_ull_loop 64 val ctor_default.

(** The loop of the string constructor,
    [for (i = pos; i < n && j < N; ++i, ++j)]; [j] grows up to [N], so
    [N] iterations exhaust it.  [str[i]] at [i = str.size()] is
    [CharT()], the default of [nth]. *)
Fixpoint ctor_string_loop (fuel : nat) (str : list ascii) (n : nat)
    (zero one : ascii) (i j : nat) (d : DataArray) : result DataArray :=
  match fuel with
  | O => Ok d
  | S fuel' =>
      if (i <? n) && (j <? N) then
        let ch := nth i str Ascii.zero in
        if Ascii.eqb ch one then
          ctor_string_loop fuel' str n zero one (i + 1) (j + 1) (index_assign d j true)
        else if Ascii.eqb ch zero then
          ctor_string_loop fuel' str n zero one (i + 1) (j + 1) d
        else Err InvalidArgument
      else Ok d
  end.

(** [compact_bitset(const std::basic_string &str, pos, n, zero, one)]. *)
Definition ctor_string (str : list ascii) (pos n : nat) (zero one : ascii)
  : result DataArray :=
  if (length str <=? pos) && negb (N =? 0) then Err OutOfRange
  else
    let n := Nat.min n (length str) in
    ctor_string_loop N str n zero one pos 0 ctor_default.

(** *** Single-bit operations *)

Definition test (d : DataArray) (pos : nat) : result bool :=
  do _ <- throw_if_out_of_range pos; Ok (index d pos).

Definition set_pos (d : DataArray) (pos : nat) (value : bool) : result DataArray :=
  do _ <- throw_if_out_of_range pos; Ok (index_assign d pos value).

Definition reset_pos (d : DataArray) (pos : nat) : result DataArray :=
  do _ <- throw_if_out_of_range pos; Ok (index_assign d pos false).

Definition flip_pos (d : DataArray) (pos : nat) : result DataArray :=
  do _ <- throw_if_out_of_range pos; Ok (ref_flip d (make_ref pos)).

(** *** Bulk operations *)

(** [if constexpr (LastWordMask != 0) data[w] = f(data[w])] at the word
    index [w] the loop over the fully used words stopped at. *)
Definition on_last_word (f : Z -> Z) (w : nat) (d : DataArray) : DataArray :=
  if (LastWordMask =? 0)%Z then d else update d w (f (nth w d 0%Z)).

Definition set_all (d : DataArray) : DataArray :=
  let d1 := for_range 0 NFullyUsedWords (fun w d => update d w AllMask) d in
  on_last_word (fun _ => LastWordMask) NFullyUsedWords d1.

Definition reset_all (d : DataArray) : DataArray := copy_assign d ctor_default.

Definition flip_all (d : DataArray) : DataArray :=
  let d1 := for_range 0 NFullyUsedWords
              (fun w d => update d w (wrap (Z.lnot (nth w d 0%Z)))) d in
  on_last_word (fun x => wrap (Z.land (Z.lnot x) LastWordMask)) NFullyUsedWords d1.

Definition count (d : DataArray) : nat :=
  let ret := for_range 0 NFullyUsedWords
               (fun i ret => ret + get_popcount TBits (nth i d 0%Z)) 0 in
  if (LastWordMask =? 0)%Z then ret
  else ret + get_popcount TBits (Z.land (nth (NWords - 1) d 0%Z) LastWordMask).

Definition all (d : DataArray) : bool :=
  forallb (fun w => (nth w d 0 =? AllMask)%Z) (seq 0 NFullyUsedWords)
  && (if (LastWordMask =? 0)%Z then true
      else (Z.land (nth NFullyUsedWords d 0) LastWordMask =? LastWordMask)%Z).

Definition any (d : DataArray) : bool :=
  existsb (fun w => negb (nth w d 0 =? 0)%Z) (seq 0 NFullyUsedWords)
  || (if (LastWordMask =? 0)%Z then false
      else negb (Z.land (nth NFullyUsedWords d 0) LastWordMask =? 0)%Z).

Definition none (d : DataArray) : bool := negb (any d).

(** [operator==]: the fully used words are compared whole, the last
    partial word under [LastWordMask]. *)
Definition operator_eq (d o : DataArray) : bool :=
  forallb (fun w => (nth w d 0 =? nth w o 0)%Z) (seq 0 NFullyUsedWords)
  && (if (LastWordMask =? 0)%Z then true
      else (Z.land (nth NFullyUsedWords d 0) LastWordMask
            =? Z.land (nth NFullyUsedWords o 0) LastWordMask)%Z).

Definition operator_ne (d o : DataArray) : bool := negb (operator_eq d o).

(** *** Bitwise algebra and shifts *)

(** [ret.data[NWords-1] &= LastWordMask] under
    [if constexpr (LastWordMask != 0)]. *)
Definition mask_last (ret : DataArray) : DataArray :=
  on_last_word (fun x => Z.land x LastWordMask) (NWords - 1) ret.

(** The three binary operators share their shape; [g] is the content
    of the uninitialized result. *)
Definition bitwise (op : bool -> bool -> bool) (g lhs rhs : DataArray) : DataArray :=
  mask_last
    (for_range 0 size
       (fun i ret => index_assign ret i (op (index lhs i) (index rhs i))) g).

Definition operator_and := bitwise andb.
Definition operator_or := bitwise orb.
Definition operator_xor := bitwise xorb.

Definition operator_and_assign (g this rhs : DataArray) : DataArray :=
  copy_assign this (operator_and g this rhs).
Definition operator_or_assign (g this rhs : DataArray) : DataArray :=
  copy_assign this (operator_or g this rhs).
Definition operator_xor_assign (g this rhs : DataArray) : DataArray :=
  copy_assign this (operator_xor g this rhs).

(** [operator~], [return compact_bitset{*this}.flip()]: a copy of
    [*this] is flipped and the result is copy-constructed from it;
    [g] and [g'] are the contents of the two uninitialized objects. *)
Definition operator_not (g g' this : DataArray) : DataArray :=
  copy_ctor g' (flip_all (copy_ctor g this)).

(** [a + b] on [std::size_t]. *)
Definition size_add (a b : nat) : nat :=
  Z.to_nat ((Z.of_nat a + Z.of_nat b) mod 2 ^ 64).

(** The second loop of [operator<<] as it is written,
    [for (i = 0; i + shift < N; ++i) ret[i + shift] = this[i]],
    with the 64-bit sum; [N] iterations exhaust it. *)
Fixpoint shl_copy_loop (fuel i shift : nat) (this ret : DataArray) : DataArray :=
  match fuel with
  | O => ret
  | S fuel' =>
      if size_add i shift <? N then
        shl_copy_loop fuel' (i + 1) shift this
          (index_assign ret (size_add i shift) (index this i))
      else ret
  end.

(** [operator<<(shift)].  The second loop runs while [i + shift < N],
    that is for [i] in [0, N - shift): the first sum it evaluates is
    [shift] itself and no later one exceeds [N], so none wraps around
    (lemma [shl_copy_loop_for_range]). *)
Definition operator_shl (g this : DataArray) (shift : nat) : DataArray :=
  let ret1 := for_range 0 (Nat.min shift N)
                (fun i ret => index_assign ret i false) g in
  let ret2 := for_range 0 (N - shift)
                (fun i ret => index_assign ret (i + shift) (index this i)) ret1 in
  mask_last ret2.

(** [operator>>(shift)]. *)
Definition operator_shr (g this : DataArray) (shift : nat) : DataArray :=
  let endpos := if shift <=? N then N - shift else 0 in
  let ret1 := for_range endpos N (fun i ret => index_assign ret i false) g in
  let ret2 := for_range 0 endpos
                (fun i ret => index_assign ret i (index this (i + shift))) ret1 in
  mask_last ret2.

Definition operator_shl_assign (g this : DataArray) (shift : nat) : DataArray :=
  copy_assign this (operator_shl g this shift).
Definition operator_shr_assign (g this : DataArray) (shift : nat) : DataArray :=
  copy_assign this (operator_shr g this shift).

(** *** Conversions *)

(** [to_string(zero, one)]. *)
Definition to_string (d : DataArray) (zero one : ascii) : list ascii :=
  for_range 0 size
    (fun bit ret => if index d bit then update ret bit one else ret)
    (repeat zero size).

Section IntConvert.

(** The destination type [Int] has [IntBits] bits. *)
Variable IntBits : nat.

(** The lambda [handle_word] of [do_int_convert]: its loop clears one
    bit of [word] per iteration, so [TBits] iterations exhaust it. *)
Fixpoint handle_word (fuel : nat) (bitOffset : nat) (word ret : Z) : Z :=
  match fuel with
  | O => ret
  | S fuel' =>
      if (word =? 0)%Z then ret
      else
        let bit := ffs_index TBits word in
        let word' := Z.land word (Z.lnot (Z.shiftl 1 (Z.of_nat bit))) in
        let bit' := bit + bitOffset in
        if IntBits <=? bit' then ret
        else handle_word fuel' bitOffset word'
               (Z.lor ret (Z.shiftl 1 (Z.of_nat bit')) mod 2 ^ Z.of_nat IntBits)%Z
  end.

(** The loop over the fully used words,
    [for (w = 0; w < NFullyUsedWords && bitOffset < IntBits; ++w, bitOffset += TBits)];
    it returns [bitOffset] and [ret]. *)
Fixpoint convert_loop (fuel : nat) (d : DataArray) (w bitOffset : nat) (ret : Z)
  : nat * Z :=
  match fuel with
  | O => (bitOffset, ret)
  | S fuel' =>
      if (w <? NFullyUsedWords) && (bitOffset <? IntBits) then
        convert_loop fuel' d (w + 1) (bitOffset + TBits)
          (handle_word TBits bitOffset (nth w d 0%Z) ret)
      else (bitOffset, ret)
  end.

Definition do_int_convert (d : DataArray) : Z :=
  if N =? 0 then 0%Z
  else
    let '(bitOffset, ret) := convert_loop NFullyUsedWords d 0 0 0%Z in
    if (LastWordMask =? 0)%Z then ret
    else if bitOffset <? IntBits then
      handle_word TBits bitOffset (Z.land (nth (NWords - 1) d 0%Z) LastWordMask) ret
    else ret.

End IntConvert.

(** [to_ulong()]; [LBits] is [sizeof(unsigned long) * 8] on the target. *)
Definition to_ulong (LBits : nat) (d : DataArray) : result Z :=
  if LBits <? size then Err Overflow else Ok (do_int_convert LBits d).

(** [to_ullong()]; [LLBits = sizeof(unsigned long long) * 8 = 64]. *)
Definition to_ullong (d : DataArray) : result Z :=
  let LLBits := 64 in
  if LLBits <? size then Err Overflow else Ok (do_int_convert LLBits d).

(** *** Raw byte view and hashing *)

(** The bytes of one word, least significant first. *)
Definition word_bytes (w : Z) : list Z :=
  map (fun k => Z.land (Z.shiftr w (8 * Z.of_nat k)) 255) (seq 0 (sizeof T)).

(** [bits()]: the bytes of [data]. *)
Definition bits (d : DataArray) : list Z := flat_map word_bytes d.

(** [bits_size()]. *)
Definition bits_size (d : DataArray) : nat := length d * sizeof T.

(** Writing the byte [v] at offset [k] through the pointer returned by
    the non-const [bits()]. *)
Definition bits_write (d : DataArray) (k : nat) (v : Z) : DataArray :=
  let w := nth (k / sizeof T) d 0%Z in
  let sh := (8 * Z.of_nat (k mod sizeof T))%Z in
  update d (k / sizeof T)
    (Z.lor (Z.land w (Z.lnot (Z.shiftl 255 sh))) (Z.shiftl (v mod 256) sh)).

(** The value of a [std::size_t] whose low bytes were copied from
    [bytes] and whose other bytes are zero. *)
Fixpoint le_combine (bytes : list Z) : Z :=
  match bytes with
  | [] => 0%Z
  | b :: rest => Z.lor b (Z.shiftl (le_combine rest) 8)
  end.

(** The loop of [hash_code], one [std::size_t] of bytes per iteration. *)
Fixpoint hash_loop (fuel : nat) (bytes : list Z) (ret : Z) : Z :=
  match fuel with
  | O => ret
  | S fuel' =>
      match bytes with
      | [] => ret
      | _ => hash_loop fuel' (skipn 8 bytes) (Z.lxor ret (le_combine (firstn 8 bytes)))
      end
  end.

Definition hash_code (d : DataArray) : Z :=
  hash_loop (bits_size d) (bits d) 0%Z.

(** *** Stream extraction *)

(** The loop of [operator>>(istream &, compact_bitset &)],
    [for (i = 0; i < N && !is.eof(); ++i)]; at most [N] iterations. *)
Fixpoint extract_loop (fuel : nat) (zero one : ascii) (i : nat)
    (strm : istream) (x : DataArray) : istream * DataArray :=
  match fuel with
  | O => (strm, x)
  | S fuel' =>
      if (i <? N) && negb (is_eof strm) then
        if negb (is_good strm) then (strm, x)
        else
          let '(ch, strm1) := is_peek strm in
          if negb (Ascii.eqb ch one) && negb (Ascii.eqb ch zero) then
            ((if i =? 0 then setstate_fail strm1 else strm1), x)
          else
            let '(ch', strm2) := is_get strm1 ch in
            extract_loop fuel' zero one (i + 1) strm2
              (index_assign x i (Ascii.eqb ch' one))
      else (strm, x)
  end.

Definition operator_extract (strm : istream) (x : DataArray) : istream * DataArray :=
  extract_loop N "0"%char "1"%char 0 strm (reset_all x).

End CompactBitset.

(** ** Vocabulary of the specification *)

Section Vocabulary.

Variable T : WordTy.
Variable N : nat.

(** The bit stored at absolute position [p] of the backing array:
    bit [p mod TBits] of word [p / TBits]. *)
Definition raw_bit (d : DataArray) (p : nat) : bool :=
  Z.testbit (nth (p / TBits T) d 0%Z) (Z.of_nat (p mod TBits T)).

(** Bit [p] of a byte buffer: bit [p mod 8] of byte [p / 8]. *)
Definition byte_bit (bytes : list Z) (p : nat) : bool :=
  Z.testbit (nth (p / 8) bytes 0%Z) (Z.of_nat (p mod 8)).

(** The unused-bit invariant, read through the raw byte view: every
    bit at a position [>= N] of [bits()] is 0. *)
Definition unused_bits_zero (d : DataArray) : Prop :=
  forall p, N <= p -> byte_bit (bits T d) p = false.

(** A well-formed array that satisfies the unused-bit invariant. *)
Definition invariant (d : DataArray) : Prop :=
  wf T N d /\ unused_bits_zero d.

(** The states produced by the constructors and the operations that
    document the invariant: construction from nothing, from an integer
    and from a string, copies, checked single-bit writes, the bulk
    operations, the algebra, the shifts, stream extraction, and
    [operator[]] at a position below [N].  [g] stands for the content
    of an uninitialized temporary. *)
Inductive reachable : DataArray -> Prop :=
| R_default : reachable (ctor_default T N)
| R_ull val : (0 <= val < 2 ^ 64)%Z -> reachable (ctor_ull T N val)
| R_string str pos n zero one x :
    ctor_string T N str pos n zero one = Ok x -> reachable x
| R_copy g x : wf T N g -> reachable x -> reachable (copy_ctor N g x)
| R_set_pos x pos v x' :
    reachable x -> set_pos T N x pos v = Ok x' -> reachable x'
| R_reset_pos x pos x' :
    reachable x -> reset_pos T N x pos = Ok x' -> reachable x'
| R_flip_pos x pos x' :
    reachable x -> flip_pos T N x pos = Ok x' -> reachable x'
| R_set_all x : reachable x -> reachable (set_all T N x)
| R_reset_all x : reachable x -> reachable (reset_all T N x)
| R_flip_all x : reachable x -> reachable (flip_all T N x)
| R_and g x y :
    wf T N g -> reachable x -> reachable y -> reachable (operator_and T N g x y)
| R_or g x y :
    wf T N g -> reachable x -> reachable y -> reachable (operator_or T N g x y)
| R_xor g x y :
    wf T N g -> reachable x -> reachable y -> reachable (operator_xor T N g x y)
| R_and_assign g x y :
    wf T N g -> reachable x -> reachable y ->
    reachable (operator_and_assign T N g x y)
| R_or_assign g x y :
    wf T N g -> reachable x -> reachable y ->
    reachable (operator_or_assign T N g x y)
| R_xor_assign g x y :
    wf T N g -> reachable x -> reachable y ->
    reachable (operator_xor_assign T N g x y)
| R_not g g' x :
    wf T N g -> wf T N g' -> reachable x -> reachable (operator_not T N g g' x)
| R_shl g x s : wf T N g -> reachable x -> reachable (operator_shl T N g x s)
| R_shr g x s : wf T N g -> reachable x -> reachable (operator_shr T N g x s)
| R_shl_assign g x s :
    wf T N g -> reachable x -> reachable (operator_shl_assign T N g x s)
| R_shr_assign g x s :
    wf T N g -> reachable x -> reachable (operator_shr_assign T N g x s)
| R_extract strm x :
    reachable x -> reachable (snd (operator_extract T N strm x))
| R_index_assign x pos b :
    reachable x -> pos < N -> reachable (index_assign T x pos b).

(** States reachable when the unchecked entry points of the public
    interface are used freely: a state as above, followed by writes
    through [operator[]] at any position inside the array and by
    bytes stored through the pointer of the non-const [bits()]. *)
Inductive api_reachable : DataArray -> Prop :=
| A_reachable x : reachable x -> api_reachable x
| A_index_assign x pos b :
    api_reachable x -> pos < NWords T N * TBits T ->
    api_reachable (index_assign T x pos b)
| A_bits_write x k v :
    api_reachable x -> k < bits_size T x -> (0 <= v < 256)%Z ->
    api_reachable (bits_write T x k v).

(** The little-endian value of the bits below [n]: the sum over
    [i < n] of [bit(i) * 2^i]. *)
Definition bits_value (d : DataArray) (n : nat) : Z :=
  for_range 0 n (fun i acc => (acc + if index T d i then 2 ^ Z.of_nat i else 0)%Z) 0%Z.

(** The number of characters an extraction took from the stream. *)
Definition consumed (before after : istream) : nat :=
  length (buf before) - length (buf after).

End Vocabulary.

(** ** The rest of the proxy, and the earlier revision of the header *)

Section MoreOperations.

Variable T : WordTy.
Variable N : nat.

(** [reference::operator=(const reference &o)], which assigns [bool(o)]:
    the bit [o] refers to, in the array [od], is read and stored at [r]. *)
Definition ref_assign_ref (d : DataArray) (r : reference) (od : DataArray)
    (o : reference) : DataArray :=
  ref_assign T d r (ref_bool od o).

(** [reference::operator~]: the negation of the referenced bit. *)
Definition ref_not (d : DataArray) (r : reference) : bool :=
  negb (ref_bool d r).

(** The loop of [operator>>(istream &, compact_bitset &)] in the
    earlier revision of the header, which counts the characters it
    took in [ok]; it returns the stream, the bitset and [ok]. *)
Fixpoint extract_loop_old (fuel : nat) (zero one : ascii) (i ok : nat)
    (strm : istream) (x : DataArray) : istream * DataArray * nat :=
  match fuel with
  | O => (strm, x, ok)
  | S fuel' =>
      if (i <? N) && negb (is_eof strm) then
        if negb (is_good strm) then (strm, x, ok)
        else
          let '(ch, strm1) := is_peek strm in
          if negb (Ascii.eqb ch one) && negb (Ascii.eqb ch zero) then (strm1, x, ok)
          else
            let '(ch', strm2) := is_get strm1 ch in
            extract_loop_old fuel' zero one (i + 1) (ok + 1) strm2
              (index_assign T x i (Ascii.eqb ch' one))
      else (strm, x, ok)
  end.

(** The earlier [operator>>]: after the loop,
    [if (N && !ok) is.setstate(std::ios_base::failbit)]. *)
Definition operator_extract_old (strm : istream) (x : DataArray)
  : istream * DataArray :=
  let '(strm', x', ok) :=
    extract_loop_old N "0"%char "1"%char 0 0 strm (reset_all T N x) in
  ((if negb (N =? 0) && (ok =? 0) then setstate_fail strm' else strm'), x').

(** [count()] in the earlier revision,
    [for (i = 0; i < size(); ++i) ret += bool(this[i])]. *)
Definition count_old (d : DataArray) : nat :=
  for_range 0 N (fun i ret => ret + (if index T d i then 1 else 0)) 0.

(** The loop of [compact_bitset(unsigned long long val)] in the earlier
    revision, [for (i = 0; val && i < N; ++i, val >>= 1)
    if (val & 0x1) this[i] = true]; [val] is halved by each iteration,
    so 64 iterations exhaust it. *)
Fixpoint ctor_ull_old_loop (fuel : nat) (i : nat) (val : Z) (d : DataArray)
  : DataArray :=
  match fuel with
  | O => d
  | S fuel' =>
      if negb (val =? 0)%Z && (i <? N) then
        ctor_ull_old_loop fuel' (i + 1) (Z.shiftr val 1)
          (if negb (Z.land val 1 =? 0)%Z then index_assign T d i true else d)
      else d
  end.

Definition ctor_ull_old (val : Z) : DataArray :=
  ctor_ull_old_loop 64 0 val (ctor_default T N).

(** The string constructor of the earlier revision: the test of [pos]
    does not look at [N], and a zero character stores a 0. *)
Fixpoint ctor_string_old_loop (fuel : nat) (str : list ascii) (n : nat)
    (zero one : ascii) (i j : nat) (d : DataArray) : result DataArray :=
  match fuel with
  | O => Ok d
  | S fuel' =>
      if (i <? n) && (j <? N) then
        let ch := nth i str Ascii.zero in
        if Ascii.eqb ch one then
          ctor_string_old_loop fuel' str n zero one (i + 1) (j + 1)
            (index_assign T d j true)
        else if Ascii.eqb ch zero then
          ctor_string_old_loop fuel' str n zero one (i + 1) (j + 1)
            (index_assign T d j false)
        else Err InvalidArgument
      else Ok d
  end.

Definition ctor_string_old (str : list ascii) (pos n : nat) (zero one : ascii)
  : result DataArray :=
  if length str <=? pos then Err OutOfRange
  else
    let n := Nat.min n (length str) in
    ctor_string_old_loop N str n zero one pos 0 (ctor_default T N).

End MoreOperations.

(** The number of positions below [n] at which [f] holds. *)
Definition count_true (f : nat -> bool) (n : nat) : nat :=
  length (filter f (seq 0 n)).

(** The test of the string constructor and of stream extraction: a
    character that is the one or the zero character. *)
Definition in_alphabet (zero one c : ascii) : bool :=
  Ascii.eqb c one || Ascii.eqb c zero.

(** The values a [std::byte] can hold. *)
Definition is_byte (b : Z) : Prop := (0 <= b < 256)%Z.

(** * Properties *)

(** ** Lists and loops *)

Lemma update_length (A : Type) (l : list A) (i : nat) (v : A) :
  length (update l i v) = length l.
Proof.
  revert i; induction l as [|h t IH]; intros [|j]; simpl; auto.
Qed.

Lemma nth_update (A : Type) (l : list A) (i j : nat) (v dflt : A) :
  nth j (update l i v) dflt =
  if (j =? i) && (i <? length l) then v else nth j l dflt.
Proof.
  revert i j; induction l as [|h t IH]; intros i j; simpl.
  - rewrite andb_false_r. destruct i, j; reflexivity.
  - destruct i as [|i], j as [|j]; simpl; auto.
Qed.

Lemma Forall_update (A : Type) (P : A -> Prop) (l : list A) (i : nat) (v : A) :
  Forall P l -> P v -> Forall P (update l i v).
Proof.
  intros Hl Hv; revert i; induction Hl as [|h t Hh Ht IH]; intros [|j]; simpl;
    constructor; auto.
Qed.

Lemma for_range_empty (S : Type) (lo hi : nat) (body : nat -> S -> S) (s : S) :
  hi <= lo -> for_range lo hi body s = s.
Proof.
  intros H. unfold for_range. replace (hi - lo) with 0 by lia. reflexivity.
Qed.

Lemma for_range_snoc (S : Type) (lo hi : nat) (body : nat -> S -> S) (s : S) :
  lo <= hi ->
  for_range lo (hi + 1) body s = body hi (for_range lo hi body s).
Proof.
  intros H. unfold for_range.
  replace (hi + 1 - lo) with (Datatypes.S (hi - lo)) by lia.
  rewrite seq_S, fold_left_app. simpl.
  replace (lo + (hi - lo)) with hi by lia. reflexivity.
Qed.

(** A loop invariant rule for counting loops. *)
Lemma for_range_ind (S : Type) (P : nat -> S -> Prop) (lo hi : nat)
    (body : nat -> S -> S) (s : S) :
  lo <= hi ->
  P lo s ->
  (forall i acc, lo <= i < hi -> P i acc -> P (i + 1) (body i acc)) ->
  P hi (for_range lo hi body s).
Proof.
  intros Hle H0 Hstep.
  induction hi as [|hi IH].
  - replace lo with 0 in * by lia. rewrite for_range_empty by lia. exact H0.
  - destruct (Nat.eq_dec lo (Datatypes.S hi)) as [->|Hne].
    + rewrite for_range_empty by lia. exact H0.
    + replace (Datatypes.S hi) with (hi + 1) by lia.
      rewrite for_range_snoc by lia.
      apply Hstep; [lia|]. apply IH; [lia|].
      intros i acc Hi. apply Hstep. lia.
Qed.

(** ** Single words *)

Lemma bit_and_spec (w : Z) (i : nat) : bit_and w i = Z.testbit w (Z.of_nat i).
Proof.
  unfold bit_and.
  destruct (Z.testbit w (Z.of_nat i)) eqn:E.
  - apply negb_true_iff, Z.eqb_neq. intros H.
    assert (Z.testbit (Z.land w (Z.shiftl 1 (Z.of_nat i))) (Z.of_nat i) = true) as C.
    { rewrite Z.land_spec, E, Z.shiftl_spec, Z.sub_diag by lia. reflexivity. }
    rewrite H, Z.bits_0 in C. discriminate.
  - apply negb_false_iff, Z.eqb_eq, Z.bits_inj'. intros k Hk.
    rewrite Z.land_spec, Z.bits_0, Z.shiftl_spec by lia.
    destruct (Z.eq_dec k (Z.of_nat i)) as [->|Hne]; [rewrite E; reflexivity|].
    destruct (Z.ltb_spec k (Z.of_nat i)).
    + rewrite (Z.testbit_neg_r 1) by lia. apply andb_false_r.
    + replace (Z.testbit 1 (k - Z.of_nat i)) with false; [apply andb_false_r|].
      symmetry. apply (Z.bits_above_log2 1); simpl; lia.
Qed.

Lemma shiftr_land_1 (w b : Z) :
  (0 <= b)%Z -> negb (Z.land (Z.shiftr w b) 1 =? 0)%Z = Z.testbit w b.
Proof.
  intros Hb.
  replace (Z.testbit w b) with (Z.testbit (Z.shiftr w b) 0)
    by (rewrite Z.shiftr_spec by lia; f_equal; lia).
  change 1%Z with (Z.ones 1). rewrite Z.land_ones by lia.
  rewrite Z.bit0_eqb. change (2 ^ 1)%Z with 2%Z.
  pose proof (Z.mod_pos_bound (Z.shiftr w b) 2 ltac:(lia)).
  destruct (Z.eqb_spec (Z.shiftr w b mod 2) 0), (Z.eqb_spec (Z.shiftr w b mod 2) 1);
    simpl; auto; lia.
Qed.

Lemma in_range_bits_high (n w k : Z) :
  (0 <= n)%Z -> (0 <= w < 2 ^ n)%Z -> (n <= k)%Z -> Z.testbit w k = false.
Proof.
  intros Hn Hw Hk. rewrite <- (Z.mod_small w (2 ^ n)) by assumption.
  apply Z.mod_pow2_bits_high. lia.
Qed.

Lemma in_range_ext (n a b : Z) :
  (0 <= n)%Z -> (0 <= a < 2 ^ n)%Z -> (0 <= b < 2 ^ n)%Z ->
  (forall k, (0 <= k < n)%Z -> Z.testbit a k = Z.testbit b k) -> a = b.
Proof.
  intros Hn Ha Hb H. apply Z.bits_inj'. intros k Hk.
  destruct (Z.ltb_spec k n).
  - apply H. lia.
  - rewrite !(in_range_bits_high (n := n)) by lia. reflexivity.
Qed.

Lemma land_in_range (n a b : Z) :
  (0 <= a < 2 ^ n)%Z -> (0 <= b)%Z -> (0 <= Z.land a b < 2 ^ n)%Z.
Proof.
  intros Ha Hb. split.
  - apply Z.land_nonneg. lia.
  - destruct (Z.eq_dec a 0) as [->|Hne]; [rewrite Z.land_0_l; lia|].
    destruct (Z.eq_dec (Z.land a b) 0) as [->|Hne']; [lia|].
    assert (0 <= Z.land a b)%Z by (apply Z.land_nonneg; lia).
    apply Z.log2_lt_pow2; [lia|].
    apply Z.le_lt_trans with (Z.log2 a).
    + etransitivity; [apply Z.log2_land; lia|]. apply Z.le_min_l.
    + apply Z.log2_lt_pow2; lia.
Qed.

(** ** Layout of the backing array *)

Section Layout.

Variable T : WordTy.
Variable N : nat.

Lemma TBits_pos : 0 < TBits T.
Proof. unfold TBits; destruct T; simpl; lia. Qed.

Lemma TBits_sizeof : TBits T = sizeof T * 8.
Proof. reflexivity. Qed.

Lemma sizeof_pos : 0 < sizeof T.
Proof. destruct T; simpl; lia. Qed.

Lemma N_split : N = TBits T * NFullyUsedWords T N + NBitsRem T N.
Proof. unfold NFullyUsedWords, NBitsRem. apply Nat.div_mod_eq. Qed.

Lemma NBitsRem_lt : NBitsRem T N < TBits T.
Proof. apply Nat.mod_upper_bound. pose proof TBits_pos. lia. Qed.

Lemma pos_split (p : nat) :
  p = TBits T * (p / TBits T) + p mod TBits T /\ p mod TBits T < TBits T.
Proof.
  split; [apply Nat.div_mod_eq|].
  apply Nat.mod_upper_bound. pose proof TBits_pos. lia.
Qed.

Lemma pos_unique (q r q' r' : nat) :
  r < TBits T -> r' < TBits T ->
  TBits T * q + r = TBits T * q' + r' -> q = q' /\ r = r'.
Proof.
  intros Hr Hr' H.
  assert (q = q') as ->.
  { rewrite (Nat.div_unique (TBits T * q + r) (TBits T) q r Hr eq_refl).
    rewrite (Nat.div_unique (TBits T * q + r) (TBits T) q' r' Hr' H). reflexivity. }
  split; [reflexivity|lia].
Qed.

Lemma NWords_cases :
  (NBitsRem T N = 0 /\ NWords T N = NFullyUsedWords T N) \/
  (0 < NBitsRem T N /\ NWords T N = NFullyUsedWords T N + 1).
Proof.
  unfold NWords. destruct (Nat.eqb_spec (NBitsRem T N) 0); [left|right]; lia.
Qed.

Lemma capacity_le : N <= NWords T N * TBits T.
Proof.
  pose proof N_split. pose proof NBitsRem_lt.
  destruct NWords_cases as [[? ->]|[? ->]]; nia.
Qed.

(** A position is below [N] exactly when it lies in a fully used word
    or in the used part of the last word. *)
Lemma lt_N_iff (p : nat) :
  p < N <->
  p / TBits T < NFullyUsedWords T N \/
  (p / TBits T = NFullyUsedWords T N /\ p mod TBits T < NBitsRem T N).
Proof.
  pose proof N_split. pose proof NBitsRem_lt.
  destruct (pos_split p) as [Hp Hr].
  remember (p / TBits T) as q. remember (p mod TBits T) as r.
  remember (NFullyUsedWords T N) as F. remember (NBitsRem T N) as R.
  split.
  - intros Hlt. destruct (Nat.lt_trichotomy q F) as [?|[?|?]]; [left; lia| |nia].
    right. split; [lia|]. subst q. nia.
  - intros [Hq|[Hq Hrr]]; nia.
Qed.

Lemma word_index_lt (p : nat) : p < NWords T N * TBits T <-> p / TBits T < NWords T N.
Proof.
  destruct (pos_split p) as [Hp Hr]. pose proof TBits_pos.
  split; intros; nia.
Qed.

(** ** Masks and truncation *)

Lemma pow_TBits_pos : (0 < 2 ^ Z.of_nat (TBits T))%Z.
Proof. apply Z.pow_pos_nonneg; lia. Qed.

Lemma wrap_range (z : Z) : (0 <= wrap T z < 2 ^ Z.of_nat (TBits T))%Z.
Proof. unfold wrap. apply Z.mod_pos_bound, pow_TBits_pos. Qed.

Lemma wrap_small (z : Z) : (0 <= z < 2 ^ Z.of_nat (TBits T))%Z -> wrap T z = z.
Proof. intros H. unfold wrap. apply Z.mod_small, H. Qed.

Lemma testbit_wrap (z k : Z) :
  Z.testbit (wrap T z) k = (k <? Z.of_nat (TBits T))%Z && Z.testbit z k.
Proof. unfold wrap. apply Z.testbit_mod_pow2. lia. Qed.

Lemma LastWordMask_ones : LastWordMask T N = Z.ones (Z.of_nat (NBitsRem T N)).
Proof.
  unfold LastWordMask. rewrite Z.shiftl_1_l, Z.ones_equiv, <- Z.sub_1_r.
  apply wrap_small.
  pose proof NBitsRem_lt.
  assert (2 ^ Z.of_nat (NBitsRem T N) < 2 ^ Z.of_nat (TBits T))%Z
    by (apply Z.pow_lt_mono_r; lia).
  assert (0 < 2 ^ Z.of_nat (NBitsRem T N))%Z by (apply Z.pow_pos_nonneg; lia).
  lia.
Qed.

Lemma LastWordMask_range : (0 <= LastWordMask T N < 2 ^ Z.of_nat (TBits T))%Z.
Proof. unfold LastWordMask. apply wrap_range. Qed.

Lemma testbit_LastWordMask (k : nat) :
  Z.testbit (LastWordMask T N) (Z.of_nat k) = (k <? NBitsRem T N).
Proof.
  rewrite LastWordMask_ones, Z.testbit_ones_nonneg by lia.
  destruct (Nat.ltb_spec k (NBitsRem T N)), (Z.ltb_spec (Z.of_nat k) (Z.of_nat (NBitsRem T N)));
    auto; lia.
Qed.

Lemma LastWordMask_eqb_0 : (LastWordMask T N =? 0)%Z = (NBitsRem T N =? 0).
Proof.
  rewrite LastWordMask_ones, Z.ones_equiv.
  destruct (Nat.eqb_spec (NBitsRem T N) 0) as [->|Hne].
  - reflexivity.
  - apply Z.eqb_neq.
    assert (2 ^ 1 <= 2 ^ Z.of_nat (NBitsRem T N))%Z by (apply Z.pow_le_mono_r; lia).
    change (2 ^ 1)%Z with 2%Z in *. lia.
Qed.

Lemma AllMask_ones : AllMask T = Z.ones (Z.of_nat (TBits T)).
Proof.
  unfold AllMask, wrap. change (Z.lnot 0) with (-1)%Z.
  rewrite Z.ones_equiv, <- Z.sub_1_r.
  pose proof pow_TBits_pos.
  symmetry. apply Z.mod_unique_pos with (q := (-1)%Z); lia.
Qed.

Lemma testbit_AllMask (k : nat) :
  Z.testbit (AllMask T) (Z.of_nat k) = (k <? TBits T).
Proof.
  rewrite AllMask_ones, Z.testbit_ones_nonneg by lia.
  destruct (Nat.ltb_spec k (TBits T)), (Z.ltb_spec (Z.of_nat k) (Z.of_nat (TBits T)));
    auto; lia.
Qed.

(** ** Well-formed arrays and stored bits *)

Lemma wf_length (d : DataArray) : wf T N d -> length d = NWords T N.
Proof. intros [H _]; exact H. Qed.

Lemma wf_nth (d : DataArray) (w : nat) :
  wf T N d -> (0 <= nth w d 0 < 2 ^ Z.of_nat (TBits T))%Z.
Proof.
  intros [_ H]. destruct (Nat.lt_ge_cases w (length d)) as [Hlt|Hge].
  - rewrite Forall_forall in H. apply H, nth_In, Hlt.
  - rewrite nth_overflow by lia. pose proof pow_TBits_pos. lia.
Qed.

Lemma wf_update (d : DataArray) (w : nat) (v : Z) :
  wf T N d -> (0 <= v < 2 ^ Z.of_nat (TBits T))%Z -> wf T N (update d w v).
Proof.
  intros [Hl Hf] Hv. split.
  - rewrite update_length; exact Hl.
  - apply Forall_update; assumption.
Qed.

Lemma wf_ctor_default : wf T N (ctor_default T N).
Proof.
  unfold ctor_default. split.
  - apply repeat_length.
  - apply Forall_forall. intros w Hw. apply repeat_spec in Hw. subst w.
    pose proof pow_TBits_pos. lia.
Qed.

Lemma wf_nil_iff_N0 (d : DataArray) : N = 0 -> wf T N d -> d = [].
Proof.
  intros HN [Hl _]. apply length_zero_iff_nil. rewrite Hl.
  unfold NWords, NBitsRem, NFullyUsedWords. subst N.
  rewrite Nat.Div0.div_0_l, Nat.Div0.mod_0_l. reflexivity.
Qed.

Lemma index_raw_bit (d : DataArray) (p : nat) : index T d p = raw_bit T d p.
Proof.
  unfold index, ref_bool, make_ref, raw_bit. simpl.
  apply shiftr_land_1. lia.
Qed.

Lemma raw_bit_outside (d : DataArray) (p : nat) :
  length d <= p / TBits T -> raw_bit T d p = false.
Proof.
  intros H. unfold raw_bit. rewrite nth_overflow by lia. apply Z.bits_0.
Qed.

Lemma raw_bit_word (d : DataArray) (w k : nat) :
  k < TBits T -> raw_bit T d (TBits T * w + k) = Z.testbit (nth w d 0%Z) (Z.of_nat k).
Proof.
  intros Hk. unfold raw_bit.
  destruct (pos_split (TBits T * w + k)) as [Hp Hr].
  destruct (pos_unique _ w Hr Hk (eq_sym Hp)) as [-> ->]. reflexivity.
Qed.

(** Two well-formed arrays with the same stored bits are equal. *)
Lemma wf_ext (d d' : DataArray) :
  wf T N d -> wf T N d' ->
  (forall p, p < NWords T N * TBits T -> raw_bit T d p = raw_bit T d' p) ->
  d = d'.
Proof.
  intros Hd Hd' H.
  apply nth_ext with (d := 0%Z) (d' := 0%Z).
  - rewrite (wf_length Hd), (wf_length Hd'). reflexivity.
  - intros w Hw. rewrite (wf_length Hd) in Hw.
    apply (in_range_ext (n := Z.of_nat (TBits T))); try lia; try (apply wf_nth; assumption).
    intros k Hk.
    replace k with (Z.of_nat (Z.to_nat k)) by lia.
    rewrite <- !raw_bit_word by lia.
    apply H. nia.
Qed.

(** The effect of [x[i] = b] on every stored bit. *)
Lemma wf_index_assign (d : DataArray) (i : nat) (b : bool) :
  wf T N d -> wf T N (index_assign T d i b).
Proof.
  intros Hd. unfold index_assign, ref_assign. apply wf_update; [assumption|].
  apply wrap_range.
Qed.

Lemma raw_bit_index_assign (d : DataArray) (i p : nat) (b : bool) :
  i / TBits T < length d ->
  raw_bit T (index_assign T d i b) p = if p =? i then b else raw_bit T d p.
Proof.
  intros Hi. unfold index_assign, ref_assign, make_ref, raw_bit. simpl.
  rewrite nth_update.
  destruct (pos_split i) as [Hi1 Hi2]. destruct (pos_split p) as [Hp1 Hp2].
  apply Nat.ltb_lt in Hi. rewrite Hi, andb_true_r.
  destruct (Nat.eqb_spec (p / TBits T) (i / TBits T)) as [Hq|Hq].
  - rewrite testbit_wrap.
    replace (Z.of_nat (p mod TBits T) <? Z.of_nat (TBits T))%Z with true
      by (symmetry; apply Z.ltb_lt; lia).
    rewrite Hq. simpl.
    destruct (Nat.eqb_spec p i) as [->|Hne].
    + destruct b.
      * rewrite Z.lor_spec, Z.shiftl_spec, Z.sub_diag by lia. apply orb_true_r.
      * rewrite Z.land_spec, Z.lnot_spec, Z.shiftl_spec, Z.sub_diag by lia.
        apply andb_false_r.
    + assert (p mod TBits T <> i mod TBits T) as Hr by (intros E; apply Hne; lia).
      assert (Z.testbit (Z.shiftl 1 (Z.of_nat (i mod TBits T))) (Z.of_nat (p mod TBits T)) = false) as Hm.
      { rewrite Z.shiftl_spec by lia.
        destruct (Z.ltb_spec (Z.of_nat (p mod TBits T)) (Z.of_nat (i mod TBits T))).
        - apply Z.testbit_neg_r. lia.
        - apply (Z.bits_above_log2 1); simpl; lia. }
      destruct b.
      * rewrite Z.lor_spec, Hm. apply orb_false_r.
      * rewrite Z.land_spec, Z.lnot_spec, Hm by lia. apply andb_true_r.
  - destruct (Nat.eqb_spec p i) as [->|Hne]; [contradiction|reflexivity].
Qed.

End Layout.

(** ** The raw byte view *)

Lemma nth_flat_map_blocks (A B : Type) (f : A -> list B) (sz : nat)
    (l : list A) (i : nat) (da : A) (db : B) :
  0 < sz -> (forall a, length (f a) = sz) -> i / sz < length l ->
  nth i (flat_map f l) db = nth (i mod sz) (f (nth (i / sz) l da)) db.
Proof.
  intros Hsz Hlen. revert i. induction l as [|a l IH]; intros i Hi; simpl in *.
  - lia.
  - destruct (Nat.lt_ge_cases i sz) as [Hlt|Hge].
    + rewrite app_nth1 by (rewrite Hlen; lia).
      rewrite Nat.div_small, Nat.mod_small by lia. reflexivity.
    + rewrite app_nth2 by (rewrite Hlen; lia). rewrite Hlen.
      assert (i / sz = Datatypes.S ((i - sz) / sz) /\ i mod sz = (i - sz) mod sz) as [Hq Hr].
      { replace i with ((i - sz) + 1 * sz) at 1 3 by lia.
        rewrite Nat.div_add, Nat.Div0.mod_add by lia. split; lia. }
      rewrite Hq, Hr. apply IH. lia.
Qed.

Lemma flat_map_length_blocks (A B : Type) (f : A -> list B) (sz : nat) (l : list A) :
  (forall a, length (f a) = sz) -> length (flat_map f l) = length l * sz.
Proof.
  intros Hlen. induction l as [|a l IH]; simpl; [reflexivity|].
  rewrite length_app, Hlen, IH. reflexivity.
Qed.

Section ByteView.

Variable T : WordTy.
Variable N : nat.

Lemma word_bytes_length (w : Z) : length (word_bytes T w) = sizeof T.
Proof. unfold word_bytes. rewrite length_map, length_seq. reflexivity. Qed.

Lemma bits_length (d : DataArray) : length (bits T d) = bits_size T d.
Proof. unfold bits, bits_size. apply flat_map_length_blocks, word_bytes_length. Qed.

Lemma byte_pos_split (p : nat) :
  p / 8 / sizeof T = p / TBits T /\
  p mod TBits T = 8 * ((p / 8) mod sizeof T) + p mod 8.
Proof.
  pose proof (sizeof_pos T) as Hs.
  pose proof (Nat.div_mod_eq p 8) as H8.
  pose proof (Nat.mod_upper_bound p 8 ltac:(lia)) as H8'.
  pose proof (Nat.div_mod_eq (p / 8) (sizeof T)) as Hsz.
  pose proof (Nat.mod_upper_bound (p / 8) (sizeof T) ltac:(lia)) as Hsz'.
  destruct (pos_split T p) as [Hp Hr].
  assert (8 * ((p / 8) mod sizeof T) + p mod 8 < TBits T) as Hlt
    by (rewrite TBits_sizeof; lia).
  assert (TBits T * (p / TBits T) + p mod TBits T
          = TBits T * (p / 8 / sizeof T) + (8 * ((p / 8) mod sizeof T) + p mod 8)) as E.
  { rewrite <- Hp. rewrite TBits_sizeof. nia. }
  destruct (pos_unique T _ _ Hr Hlt E) as [-> ->]. split; reflexivity.
Qed.

(** Bit [p] of [bits()] is the stored bit [p] of the array. *)
Lemma byte_bit_bits (d : DataArray) (p : nat) :
  byte_bit (bits T d) p = raw_bit T d p.
Proof.
  destruct (byte_pos_split p) as [Hq Hr].
  destruct (Nat.lt_ge_cases (p / TBits T) (length d)) as [Hin|Hout].
  - unfold byte_bit, bits, raw_bit.
    rewrite (nth_flat_map_blocks (word_bytes T) (sz := sizeof T) d (p / 8) 0%Z 0%Z)
      by (try apply sizeof_pos; try apply word_bytes_length; rewrite Hq; exact Hin).
    rewrite Hq, Hr. unfold word_bytes.
    pose proof (Nat.mod_upper_bound (p / 8) (sizeof T) ltac:(pose proof (sizeof_pos T); lia)) as Hk.
    pose proof (Nat.mod_upper_bound p 8 ltac:(lia)) as Hj.
    set (k := (p / 8) mod sizeof T) in *. set (j := p mod 8) in *.
    rewrite (nth_indep _ 0%Z (Z.land (Z.shiftr (nth (p / TBits T) d 0%Z) (8 * Z.of_nat 0)) 255))
      by (rewrite length_map, length_seq; exact Hk).
    rewrite (map_nth (fun k => Z.land (Z.shiftr (nth (p / TBits T) d 0%Z) (8 * Z.of_nat k)) 255)).
    rewrite seq_nth by exact Hk. simpl (0 + k).
    change 255%Z with (Z.ones 8).
    rewrite Z.land_spec, Z.shiftr_spec, Z.testbit_ones_nonneg by lia.
    replace (Z.of_nat j <? 8)%Z with true by (symmetry; apply Z.ltb_lt; lia).
    rewrite andb_true_r. f_equal. lia.
  - rewrite raw_bit_outside by exact Hout.
    unfold byte_bit. rewrite nth_overflow; [apply Z.bits_0|].
    rewrite bits_length. unfold bits_size.
    pose proof (Nat.div_mod_eq (p / 8) (sizeof T)).
    rewrite Hq in *. nia.
Qed.

Lemma unused_bits_zero_iff (d : DataArray) :
  unused_bits_zero T N d <-> (forall p, N <= p -> raw_bit T d p = false).
Proof.
  unfold unused_bits_zero. split; intros H p Hp.
  - rewrite <- byte_bit_bits. apply H, Hp.
  - rewrite byte_bit_bits. apply H, Hp.
Qed.

End ByteView.

(** ** Loops of single-bit writes *)

Section BitLoops.

Variable T : WordTy.
Variable N : nat.

Lemma invariant_iff (d : DataArray) :
  invariant T N d <-> wf T N d /\ (forall p, N <= p -> raw_bit T d p = false).
Proof. unfold invariant. rewrite unused_bits_zero_iff. reflexivity. Qed.

Lemma word_of_pos_lt (d : DataArray) (i : nat) :
  wf T N d -> i < N -> i / TBits T < length d.
Proof.
  intros Hd Hi. rewrite (wf_length Hd). apply word_index_lt.
  pose proof (capacity_le T N). lia.
Qed.

Lemma invariant_index_assign (d : DataArray) (i : nat) (b : bool) :
  invariant T N d -> i < N -> invariant T N (index_assign T d i b).
Proof.
  rewrite !invariant_iff. intros [Hd Hz] Hi. split.
  - apply wf_index_assign, Hd.
  - intros p Hp. rewrite raw_bit_index_assign by (apply word_of_pos_lt; assumption).
    destruct (Nat.eqb_spec p i); [lia|]. apply Hz, Hp.
Qed.

Lemma invariant_ctor_default : invariant T N (ctor_default T N).
Proof.
  apply invariant_iff. split; [apply wf_ctor_default|].
  intros p _. unfold raw_bit, ctor_default.
  destruct (Nat.lt_ge_cases (p / TBits T) (NWords T N)).
  - rewrite nth_repeat_lt by assumption. apply Z.bits_0.
  - rewrite nth_overflow by (rewrite repeat_length; lia). apply Z.bits_0.
Qed.

Lemma raw_bit_ctor_default (p : nat) : raw_bit T (ctor_default T N) p = false.
Proof.
  unfold raw_bit, ctor_default.
  destruct (Nat.lt_ge_cases (p / TBits T) (NWords T N)).
  - rewrite nth_repeat_lt by assumption. apply Z.bits_0.
  - rewrite nth_overflow by (rewrite repeat_length; lia). apply Z.bits_0.
Qed.

(** A loop [for (i = lo; i < hi; ++i) ret[tgt i] = v i] whose targets
    are [i + c], all inside the array: it writes exactly the
    positions [lo + c .. hi + c - 1]. *)
Lemma assign_loop_spec (lo hi c : nat) (tgt : nat -> nat) (v : nat -> bool)
    (d : DataArray) :
  wf T N d -> lo <= hi -> (lo < hi -> hi + c <= N) ->
  (forall i, tgt i = i + c) ->
  let r := for_range lo hi (fun i ret => index_assign T ret (tgt i) (v i)) d in
  wf T N r /\
  forall p, raw_bit T r p =
            if (lo + c <=? p) && (p <? hi + c) then v (p - c) else raw_bit T d p.
Proof.
  intros Hd Hle Hhi Htgt r. subst r.
  apply (for_range_ind
           (fun i acc => wf T N acc /\
              forall p, raw_bit T acc p =
                        if (lo + c <=? p) && (p <? i + c) then v (p - c)
                        else raw_bit T d p)); [exact Hle| |].
  - split; [exact Hd|]. intros p.
    destruct (Nat.leb_spec (lo + c) p), (Nat.ltb_spec p (lo + c)); simpl; auto; lia.
  - intros i acc Hi [Hacc Hbits]. split; [apply wf_index_assign, Hacc|].
    intros p. rewrite raw_bit_index_assign
      by (apply word_of_pos_lt; [exact Hacc|rewrite Htgt; lia]).
    rewrite Hbits, Htgt.
    destruct (Nat.eqb_spec p (i + c)) as [->|Hne].
    + replace (i + c - c) with i by lia.
      destruct (Nat.leb_spec (lo + c) (i + c)), (Nat.ltb_spec (i + c) (i + 1 + c));
        simpl; auto; lia.
    + destruct (Nat.leb_spec (lo + c) p), (Nat.ltb_spec p (i + c)),
        (Nat.ltb_spec p (i + 1 + c)); simpl; auto; lia.
Qed.

(** *** Masking the last word *)

Lemma on_last_word_spec (f : Z -> Z) (d : DataArray) :
  wf T N d ->
  (forall x, 0 <= x < 2 ^ Z.of_nat (TBits T) -> 0 <= f x < 2 ^ Z.of_nat (TBits T))%Z ->
  let r := on_last_word T N f (NFullyUsedWords T N) d in
  wf T N r /\
  forall w, nth w r 0%Z =
            if (w =? NFullyUsedWords T N) && negb (NBitsRem T N =? 0)
            then f (nth w d 0%Z) else nth w d 0%Z.
Proof.
  intros Hd Hf r. subst r. unfold on_last_word.
  rewrite LastWordMask_eqb_0.
  destruct (Nat.eqb_spec (NBitsRem T N) 0) as [Hr|Hr].
  - split; [exact Hd|]. intros w. rewrite andb_false_r. reflexivity.
  - split; [apply wf_update; [exact Hd|apply Hf, (wf_nth _ Hd)]|].
    intros w. rewrite nth_update, andb_true_r.
    destruct (Nat.eqb_spec w (NFullyUsedWords T N)) as [->|Hw]; [|reflexivity].
    replace (NFullyUsedWords T N <? length d) with true; [reflexivity|].
    symmetry. apply Nat.ltb_lt. rewrite (wf_length Hd).
    destruct (NWords_cases T N) as [[? ?]|[? ?]]; lia.
Qed.

Lemma last_word_index : 0 < NBitsRem T N -> NWords T N - 1 = NFullyUsedWords T N.
Proof. intros H. destruct (NWords_cases T N) as [[? ?]|[? ?]]; lia. Qed.

Lemma mask_last_spec (d : DataArray) :
  wf T N d ->
  wf T N (mask_last T N d) /\
  forall p, raw_bit T (mask_last T N d) p = (p <? N) && raw_bit T d p.
Proof.
  intros Hd. unfold mask_last.
  assert (on_last_word T N (fun x => Z.land x (LastWordMask T N)) (NWords T N - 1) d
          = on_last_word T N (fun x => Z.land x (LastWordMask T N)) (NFullyUsedWords T N) d) as ->.
  { unfold on_last_word. rewrite LastWordMask_eqb_0.
    destruct (Nat.eqb_spec (NBitsRem T N) 0); [reflexivity|].
    rewrite last_word_index by lia. reflexivity. }
  destruct (on_last_word_spec (fun x => Z.land x (LastWordMask T N)) Hd) as [Hwf Hnth].
  { intros x Hx. apply land_in_range; [exact Hx|]. apply LastWordMask_range. }
  split; [exact Hwf|].
  intros p. unfold raw_bit at 1. rewrite Hnth.
  destruct (pos_split T p) as [Hp Hr].
  pose proof (lt_N_iff T N p) as HN.
  destruct (Nat.eqb_spec (p / TBits T) (NFullyUsedWords T N)) as [Hq|Hq]; simpl.
  - destruct (Nat.eqb_spec (NBitsRem T N) 0) as [Hz|Hz]; simpl.
    + fold (raw_bit T d p). rewrite raw_bit_outside.
      * apply eq_sym, andb_false_r.
      * rewrite (wf_length Hd). destruct (NWords_cases T N) as [[? ?]|[? ?]]; lia.
    + rewrite Z.land_spec, testbit_LastWordMask. fold (raw_bit T d p).
      rewrite andb_comm. f_equal.
      destruct (Nat.ltb_spec (p mod TBits T) (NBitsRem T N)), (Nat.ltb_spec p N);
        auto; lia.
  - fold (raw_bit T d p).
    destruct (Nat.ltb_spec p N) as [Hlt|Hge]; [reflexivity|].
    simpl. apply raw_bit_outside. rewrite (wf_length Hd).
    destruct (NWords_cases T N) as [[? ?]|[? ?]]; lia.
Qed.

Lemma invariant_mask_last (d : DataArray) : wf T N d -> invariant T N (mask_last T N d).
Proof.
  intros Hd. destruct (mask_last_spec Hd) as [Hwf Hbits].
  apply invariant_iff. split; [exact Hwf|].
  intros p Hp. rewrite Hbits.
  destruct (Nat.ltb_spec p N); [lia|reflexivity].
Qed.

Lemma invariant_copy_assign (this o : DataArray) :
  invariant T N this -> invariant T N o -> invariant T N (copy_assign N this o).
Proof. intros Ht Ho. unfold copy_assign. destruct (0 <? N); assumption. Qed.

(** For [N = 0] the array is empty, so copying changes nothing; for
    [N > 0] the copy is the source. *)
Lemma copy_assign_wf (this o : DataArray) :
  wf T N this -> wf T N o -> copy_assign N this o = o.
Proof.
  intros Ht Ho. unfold copy_assign.
  destruct (Nat.ltb_spec 0 N) as [|HN]; [reflexivity|].
  assert (N = 0) as HN0 by lia.
  rewrite (wf_nil_iff_N0 HN0 Ht), (wf_nil_iff_N0 HN0 Ho). reflexivity.
Qed.

End BitLoops.

(** ** Bulk operations, algebra and shifts *)

Section BulkOps.

Variable T : WordTy.
Variable N : nat.

(** A loop that rewrites the words [0 .. n-1] one by one. *)
Lemma word_loop_spec (f : Z -> Z) (n : nat) (d : DataArray) :
  wf T N d -> n <= length d ->
  (forall x, 0 <= x < 2 ^ Z.of_nat (TBits T) -> 0 <= f x < 2 ^ Z.of_nat (TBits T))%Z ->
  let r := for_range 0 n (fun w acc => update acc w (f (nth w acc 0%Z))) d in
  wf T N r /\
  forall w, nth w r 0%Z = if w <? n then f (nth w d 0%Z) else nth w d 0%Z.
Proof.
  intros Hd Hn Hf r. subst r.
  apply (for_range_ind
           (fun i acc => wf T N acc /\
              forall w, nth w acc 0%Z = if w <? i then f (nth w d 0%Z) else nth w d 0%Z));
    [lia| |].
  - split; [exact Hd|]. intros w. reflexivity.
  - intros i acc Hi [Hacc Hnth]. split.
    + apply wf_update; [exact Hacc|]. apply Hf, (wf_nth _ Hacc).
    + intros w. rewrite nth_update.
      replace (i <? length acc) with true
        by (symmetry; apply Nat.ltb_lt; rewrite (wf_length Hacc), <- (wf_length Hd); lia).
      rewrite andb_true_r, !Hnth.
      destruct (Nat.eqb_spec w i) as [->|Hne].
      * rewrite Nat.ltb_irrefl.
        replace (i <? i + 1) with true by (symmetry; apply Nat.ltb_lt; lia).
        reflexivity.
      * destruct (Nat.ltb_spec w i), (Nat.ltb_spec w (i + 1)); auto; lia.
Qed.

Lemma NFullyUsedWords_le (d : DataArray) : wf T N d -> NFullyUsedWords T N <= length d.
Proof.
  intros Hd. rewrite (wf_length Hd). destruct (NWords_cases T N) as [[? ?]|[? ?]]; lia.
Qed.

(** The stored bits after a pass over the fully used words with [f]
    and over the last partial word (when there is one) with [h]. *)
Lemma bulk_pass_spec (f h : Z -> Z) (d : DataArray) :
  wf T N d ->
  (forall x, 0 <= x < 2 ^ Z.of_nat (TBits T) -> 0 <= f x < 2 ^ Z.of_nat (TBits T))%Z ->
  (forall x, 0 <= x < 2 ^ Z.of_nat (TBits T) -> 0 <= h x < 2 ^ Z.of_nat (TBits T))%Z ->
  let r := on_last_word T N h (NFullyUsedWords T N)
             (for_range 0 (NFullyUsedWords T N)
                (fun w acc => update acc w (f (nth w acc 0%Z))) d) in
  wf T N r /\
  forall p, raw_bit T r p =
            if p / TBits T <? NFullyUsedWords T N
            then Z.testbit (f (nth (p / TBits T) d 0%Z)) (Z.of_nat (p mod TBits T))
            else if (p / TBits T =? NFullyUsedWords T N) && negb (NBitsRem T N =? 0)
                 then Z.testbit (h (nth (p / TBits T) d 0%Z)) (Z.of_nat (p mod TBits T))
                 else raw_bit T d p.
Proof.
  intros Hd Hf Hh r. subst r.
  destruct (word_loop_spec f Hd (NFullyUsedWords_le Hd) Hf) as [Hwf1 Hnth1].
  destruct (on_last_word_spec h Hwf1 Hh) as [Hwf2 Hnth2].
  split; [exact Hwf2|].
  intros p. unfold raw_bit at 1. rewrite Hnth2, !Hnth1.
  destruct (Nat.eqb_spec (p / TBits T) (NFullyUsedWords T N)) as [Hq|Hq]; simpl.
  - rewrite Hq, Nat.ltb_irrefl.
    destruct (Nat.eqb_spec (NBitsRem T N) 0) as [Hz|Hz]; simpl; [|reflexivity].
    unfold raw_bit. rewrite Hq. reflexivity.
  - destruct (Nat.ltb_spec (p / TBits T) (NFullyUsedWords T N)); reflexivity.
Qed.

Lemma raw_bit_above_N (d : DataArray) (p : nat) :
  wf T N d -> N <= p ->
  ~ (p / TBits T = NFullyUsedWords T N /\ NBitsRem T N <> 0) ->
  raw_bit T d p = false.
Proof.
  intros Hd Hp Hlast. apply raw_bit_outside. rewrite (wf_length Hd).
  pose proof (lt_N_iff T N p).
  destruct (NWords_cases T N) as [[? ?]|[? ?]]; lia.
Qed.

(** [set()]: every bit below [N] is 1, every other bit 0. *)
Lemma set_all_spec (d : DataArray) :
  wf T N d ->
  wf T N (set_all T N d) /\ forall p, raw_bit T (set_all T N d) p = (p <? N).
Proof.
  intros Hd. unfold set_all.
  pose proof (pow_TBits_pos T) as Hpow.
  assert (0 <= AllMask T < 2 ^ Z.of_nat (TBits T))%Z as HA by apply wrap_range.
  destruct (bulk_pass_spec (fun _ => AllMask T) (fun _ => LastWordMask T N) Hd) as [Hwf Hbits];
    [intros; exact HA | intros; apply LastWordMask_range |].
  split; [exact Hwf|]. intros p. rewrite Hbits.
  destruct (pos_split T p) as [Hp Hr]. pose proof (lt_N_iff T N p) as HN.
  destruct (Nat.ltb_spec (p / TBits T) (NFullyUsedWords T N)) as [Hq|Hq].
  - rewrite testbit_AllMask.
    destruct (Nat.ltb_spec (p mod TBits T) (TBits T)), (Nat.ltb_spec p N); auto; lia.
  - destruct (Nat.eqb_spec (p / TBits T) (NFullyUsedWords T N)) as [He|He],
      (Nat.eqb_spec (NBitsRem T N) 0) as [Hz|Hz]; simpl.
    + rewrite raw_bit_above_N by (try assumption; lia).
      destruct (Nat.ltb_spec p N); auto; lia.
    + rewrite testbit_LastWordMask.
      destruct (Nat.ltb_spec (p mod TBits T) (NBitsRem T N)), (Nat.ltb_spec p N); auto; lia.
    + rewrite raw_bit_above_N by (try assumption; lia).
      destruct (Nat.ltb_spec p N); auto; lia.
    + rewrite raw_bit_above_N by (try assumption; lia).
      destruct (Nat.ltb_spec p N); auto; lia.
Qed.

(** [flip()]: every bit below [N] is inverted, every other bit is 0. *)
Lemma flip_all_spec (d : DataArray) :
  wf T N d ->
  wf T N (flip_all T N d) /\
  forall p, raw_bit T (flip_all T N d) p = (p <? N) && negb (raw_bit T d p).
Proof.
  intros Hd. unfold flip_all.
  destruct (bulk_pass_spec (fun x => wrap T (Z.lnot x))
              (fun x => wrap T (Z.land (Z.lnot x) (LastWordMask T N))) Hd) as [Hwf Hbits];
    [intros; apply wrap_range | intros; apply wrap_range |].
  split; [exact Hwf|]. intros p. rewrite Hbits.
  destruct (pos_split T p) as [Hp Hr]. pose proof (lt_N_iff T N p) as HN.
  assert ((Z.of_nat (p mod TBits T) <? Z.of_nat (TBits T))%Z = true) as Hlt
    by (apply Z.ltb_lt; lia).
  destruct (Nat.ltb_spec (p / TBits T) (NFullyUsedWords T N)) as [Hq|Hq].
  - rewrite testbit_wrap, Hlt, Z.lnot_spec by lia. simpl.
    destruct (Nat.ltb_spec p N); [reflexivity|lia].
  - destruct (Nat.eqb_spec (p / TBits T) (NFullyUsedWords T N)) as [He|He],
      (Nat.eqb_spec (NBitsRem T N) 0) as [Hz|Hz]; simpl.
    + rewrite raw_bit_above_N by (try assumption; lia).
      destruct (Nat.ltb_spec p N); auto; lia.
    + rewrite testbit_wrap, Hlt, Z.land_spec, Z.lnot_spec, testbit_LastWordMask by lia.
      simpl. fold (raw_bit T d p). rewrite andb_comm. f_equal.
      destruct (Nat.ltb_spec (p mod TBits T) (NBitsRem T N)), (Nat.ltb_spec p N); auto; lia.
    + rewrite raw_bit_above_N by (try assumption; lia).
      destruct (Nat.ltb_spec p N); auto; lia.
    + rewrite raw_bit_above_N by (try assumption; lia).
      destruct (Nat.ltb_spec p N); auto; lia.
Qed.

Lemma invariant_of_bits (d : DataArray) (v : nat -> bool) :
  wf T N d -> (forall p, raw_bit T d p = (p <? N) && v p) -> invariant T N d.
Proof.
  intros Hd H. apply invariant_iff. split; [exact Hd|].
  intros p Hp. rewrite H. destruct (Nat.ltb_spec p N); [lia|reflexivity].
Qed.

(** The binary operators: bit [p] of the result is [op] of the bits
    [p] of the operands, whatever the uninitialized result held. *)
Lemma bitwise_spec (op : bool -> bool -> bool) (g lhs rhs : DataArray) :
  wf T N g ->
  wf T N (bitwise T N op g lhs rhs) /\
  forall p, raw_bit T (bitwise T N op g lhs rhs) p
            = (p <? N) && op (raw_bit T lhs p) (raw_bit T rhs p).
Proof.
  intros Hg. unfold bitwise, size.
  destruct (@assign_loop_spec T N (0) (N) (0) (fun i => i)
              (fun i => op (index T lhs i) (index T rhs i)) g Hg) as [Hwf Hbits];
    [lia|lia|intros; lia|].
  destruct (mask_last_spec Hwf) as [Hwf' Hbits'].
  split; [exact Hwf'|]. intros p. rewrite Hbits', Hbits.
  destruct (Nat.ltb_spec p N) as [Hlt|Hge]; [|reflexivity]. simpl.
  replace (p <? N + 0) with true by (symmetry; apply Nat.ltb_lt; lia). simpl.
  rewrite Nat.sub_0_r, !index_raw_bit. reflexivity.
Qed.

(** [operator<<]. *)
Lemma operator_shl_spec (g x : DataArray) (s : nat) :
  wf T N g ->
  wf T N (operator_shl T N g x s) /\
  forall p, raw_bit T (operator_shl T N g x s) p
            = (p <? N) && (s <=? p) && raw_bit T x (p - s).
Proof.
  intros Hg. unfold operator_shl.
  destruct (@assign_loop_spec T N (0) (Nat.min s N) (0) (fun i => i)
              (fun _ => false) g Hg) as [Hwf1 Hbits1]; [lia|lia|intros; lia|].
  destruct (@assign_loop_spec T N (0) (N - s) (s) (fun i => i + s)
              (fun i => index T x i) _ Hwf1) as [Hwf2 Hbits2]; [lia|lia|intros; lia|].
  destruct (mask_last_spec Hwf2) as [Hwf3 Hbits3].
  split; [exact Hwf3|]. intros p. rewrite Hbits3, Hbits2, Hbits1.
  destruct (Nat.ltb_spec p N) as [Hlt|Hge]; [|reflexivity]. simpl.
  destruct (Nat.leb_spec s p) as [Hsp|Hsp]; simpl.
  - replace (p <? N - s + s) with true by (symmetry; apply Nat.ltb_lt; lia).
    apply index_raw_bit.
  - replace (p <? Nat.min s N + 0) with true by (symmetry; apply Nat.ltb_lt; lia).
    reflexivity.
Qed.

(** [operator>>]. *)
Lemma operator_shr_spec (g x : DataArray) (s : nat) :
  wf T N g ->
  wf T N (operator_shr T N g x s) /\
  forall p, raw_bit T (operator_shr T N g x s) p
            = (p + s <? N) && raw_bit T x (p + s).
Proof.
  intros Hg. unfold operator_shr.
  set (endpos := if s <=? N then N - s else 0).
  assert (endpos = N - s) as He by (subst endpos; destruct (Nat.leb_spec s N); lia).
  destruct (@assign_loop_spec T N (endpos) (N) (0) (fun i => i)
              (fun _ => false) g Hg) as [Hwf1 Hbits1]; [lia|lia|intros; lia|].
  destruct (@assign_loop_spec T N (0) (endpos) (0) (fun i => i)
              (fun i => index T x (i + s)) _ Hwf1) as [Hwf2 Hbits2]; [lia|lia|intros; lia|].
  destruct (mask_last_spec Hwf2) as [Hwf3 Hbits3].
  split; [exact Hwf3|]. intros p. rewrite Hbits3, Hbits2, Hbits1.
  destruct (Nat.ltb_spec (p + s) N) as [Hlt|Hge]; simpl.
  - replace (p <? N) with true by (symmetry; apply Nat.ltb_lt; lia).
    replace (p <? endpos + 0) with true by (symmetry; apply Nat.ltb_lt; lia).
    simpl. rewrite Nat.sub_0_r. apply index_raw_bit.
  - destruct (Nat.ltb_spec p N) as [HpN|HpN]; [|reflexivity]. simpl.
    replace (p <? endpos + 0) with false by (symmetry; apply Nat.ltb_ge; lia).
    replace (endpos + 0 <=? p) with true by (symmetry; apply Nat.leb_le; lia).
    replace (p <? N + 0) with true by (symmetry; apply Nat.ltb_lt; lia).
    reflexivity.
Qed.

End BulkOps.

(** ** Bit scanning *)

Lemma find_seq_first (f : nat -> bool) (n lo i : nat) :
  find f (seq lo n) = Some i ->
  lo <= i < lo + n /\ f i = true /\ forall k, lo <= k < i -> f k = false.
Proof.
  revert lo. induction n as [|n IH]; intros lo H; simpl in H; [discriminate|].
  destruct (f lo) eqn:E.
  - injection H as <-. repeat split; try lia. exact E.
  - destruct (IH _ H) as (Hr & Hi & Hlow).
    repeat split; try lia; [exact Hi|].
    intros k Hk. destruct (Nat.eq_dec k lo) as [->|Hne]; [exact E|].
    apply Hlow. lia.
Qed.

Lemma find_seq_none (f : nat -> bool) (n lo : nat) :
  find f (seq lo n) = None -> forall k, lo <= k < lo + n -> f k = false.
Proof.
  intros H k Hk. apply (find_none _ _ H). apply in_seq. lia.
Qed.

Lemma range_of_bits (n x : Z) :
  (0 <= n)%Z -> (0 <= x)%Z -> (forall k, (n <= k)%Z -> Z.testbit x k = false) ->
  (0 <= x < 2 ^ n)%Z.
Proof.
  intros Hn Hx H. split; [exact Hx|].
  destruct (Z.eq_dec x 0) as [->|Hne]; [apply Z.pow_pos_nonneg; lia|].
  apply Z.log2_lt_pow2; [lia|].
  destruct (Z.lt_ge_cases (Z.log2 x) n) as [|Hge]; [assumption|].
  specialize (H _ Hge). rewrite Z.bit_log2 in H by lia. discriminate.
Qed.

(** For a non-zero word of at most [nBits <= 64] bits, [ffs(word) - 1]
    is the position of its lowest set bit. *)
Lemma ffs_index_spec (nBits : nat) (w : Z) :
  nBits <= 64 -> (0 <= w < 2 ^ Z.of_nat nBits)%Z -> w <> 0%Z ->
  let b := ffs_index nBits w in
  b < nBits /\ Z.testbit w (Z.of_nat b) = true /\
  forall k, k < b -> Z.testbit w (Z.of_nat k) = false.
Proof.
  intros Hn Hw Hne b. subst b. unfold ffs_index, ffs.
  destruct (Z.eqb_spec w 0) as [|_]; [contradiction|].
  destruct (find (bit_and w) (seq 0 nBits)) as [i|] eqn:Hfind.
  - destruct (@find_seq_first _ _ _ _ Hfind) as (Hr & Hi & Hlow).
    replace (Z.of_nat i + 1 - 1)%Z with (Z.of_nat i) by lia.
    rewrite Z.mod_small by (split; [lia|]; change (2 ^ 64)%Z with 18446744073709551616%Z; lia).
    rewrite Nat2Z.id. rewrite bit_and_spec in Hi.
    repeat split; try lia; [exact Hi|].
    intros k Hk. rewrite <- bit_and_spec. apply Hlow. lia.
  - exfalso. apply Hne. apply Z.bits_inj'. intros k Hk. rewrite Z.bits_0.
    destruct (Z.lt_ge_cases k (Z.of_nat nBits)).
    + replace k with (Z.of_nat (Z.to_nat k)) by lia.
      rewrite <- bit_and_spec. apply (@find_seq_none _ _ _ Hfind). lia.
    + apply (in_range_bits_high (n := Z.of_nat nBits)); lia.
Qed.

(** Clearing a bit keeps a word in range. *)
Lemma clear_bit_range (n w : Z) (b : nat) :
  (0 <= n)%Z -> (0 <= w < 2 ^ n)%Z ->
  (0 <= Z.land w (Z.lnot (Z.shiftl 1 (Z.of_nat b))) < 2 ^ n)%Z.
Proof.
  intros Hn Hw. apply range_of_bits; [exact Hn| |].
  - apply Z.land_nonneg. lia.
  - intros k Hk. rewrite Z.land_spec, (in_range_bits_high (n := n)) by lia. reflexivity.
Qed.

Lemma testbit_clear_bit (w : Z) (b : nat) (k : Z) :
  (0 <= k)%Z ->
  Z.testbit (Z.land w (Z.lnot (Z.shiftl 1 (Z.of_nat b)))) k
  = Z.testbit w k && negb (k =? Z.of_nat b)%Z.
Proof.
  intros Hk. rewrite Z.land_spec, Z.lnot_spec, Z.shiftl_spec by lia. f_equal. f_equal.
  destruct (Z.eqb_spec k (Z.of_nat b)) as [->|Hne].
  - rewrite Z.sub_diag. reflexivity.
  - destruct (Z.lt_ge_cases k (Z.of_nat b)).
    + apply Z.testbit_neg_r. lia.
    + apply (Z.bits_above_log2 1); simpl; lia.
Qed.

Lemma testbit_one_shl (b : nat) (k : Z) :
  (0 <= k)%Z -> Z.testbit (Z.shiftl 1 (Z.of_nat b)) k = (k =? Z.of_nat b)%Z.
Proof.
  intros Hk. rewrite Z.shiftl_spec by lia.
  destruct (Z.eqb_spec k (Z.of_nat b)) as [->|Hne].
  - rewrite Z.sub_diag. reflexivity.
  - destruct (Z.lt_ge_cases k (Z.of_nat b)).
    + apply Z.testbit_neg_r. lia.
    + apply (Z.bits_above_log2 1); simpl; lia.
Qed.

(** ** Every documented operation keeps the invariant *)

Section Preservation.

Variable T : WordTy.
Variable N : nat.

Lemma invariant_wf (d : DataArray) : invariant T N d -> wf T N d.
Proof. intros [H _]; exact H. Qed.

Lemma invariant_ctor_ull_loop (fuel : nat) (val : Z) (d : DataArray) :
  (0 <= val < 2 ^ 64)%Z -> invariant T N d ->
  invariant T N (ctor_ull_loop T N fuel val d).
Proof.
  revert val d. induction fuel as [|fuel IH]; intros val d Hval Hd; simpl; [exact Hd|].
  destruct (Z.eqb_spec val 0) as [|Hne]; [exact Hd|].
  destruct (@ffs_index_spec 64 val (le_n _) Hval Hne) as (Hb & _ & _).
  destruct ((N <? 64) && (N <=? ffs_index 64 val)) eqn:Hbrk; [exact Hd|].
  apply IH.
  - apply (@clear_bit_range 64); [lia|exact Hval].
  - apply invariant_index_assign; [exact Hd|].
    apply andb_false_iff in Hbrk. destruct Hbrk as [H|H].
    + apply Nat.ltb_ge in H. lia.
    + apply Nat.leb_gt in H. exact H.
Qed.

Lemma invariant_ctor_ull (val : Z) :
  (0 <= val < 2 ^ 64)%Z -> invariant T N (ctor_ull T N val).
Proof.
  intros Hval. apply invariant_ctor_ull_loop; [exact Hval|apply invariant_ctor_default].
Qed.

Lemma invariant_ctor_string_loop (fuel : nat) (str : list ascii) (n : nat)
    (zero one : ascii) (i j : nat) (d x : DataArray) :
  invariant T N d ->
  ctor_string_loop T N fuel str n zero one i j d = Ok x -> invariant T N x.
Proof.
  revert i j d. induction fuel as [|fuel IH]; intros i j d Hd H; simpl in H.
  - injection H as <-. exact Hd.
  - destruct ((i <? n) && (j <? N)) eqn:Hc; [|injection H as <-; exact Hd].
    apply andb_true_iff in Hc. destruct Hc as [_ Hj]. apply Nat.ltb_lt in Hj.
    destruct (Ascii.eqb (nth i str Ascii.zero) one).
    + apply (IH _ _ _ (invariant_index_assign true Hd Hj) H).
    + destruct (Ascii.eqb (nth i str Ascii.zero) zero); [|discriminate].
      apply (IH _ _ _ Hd H).
Qed.

Lemma invariant_ctor_string (str : list ascii) (pos n : nat) (zero one : ascii)
    (x : DataArray) :
  ctor_string T N str pos n zero one = Ok x -> invariant T N x.
Proof.
  unfold ctor_string. intros H.
  destruct ((length str <=? pos) && negb (N =? 0)); [discriminate|].
  apply (invariant_ctor_string_loop _ _ _ _ _ _ _ (invariant_ctor_default T N) H).
Qed.

Lemma throw_if_out_of_range_ok (pos : nat) (A : Type) (k : unit -> result A) (r : A) :
  (do u <- throw_if_out_of_range N pos; k u) = Ok r -> pos < N /\ k tt = Ok r.
Proof.
  unfold throw_if_out_of_range, size. destruct (Nat.leb_spec N pos) as [Hle|Hlt]; simpl.
  - discriminate.
  - intros Hk. split; [lia|exact Hk].
Qed.

Lemma invariant_set_pos (d : DataArray) (pos : nat) (v : bool) (x : DataArray) :
  invariant T N d -> set_pos T N d pos v = Ok x -> invariant T N x.
Proof.
  intros Hd H. apply throw_if_out_of_range_ok in H. destruct H as [Hp H].
  injection H as <-. apply invariant_index_assign; assumption.
Qed.

Lemma invariant_reset_pos (d : DataArray) (pos : nat) (x : DataArray) :
  invariant T N d -> reset_pos T N d pos = Ok x -> invariant T N x.
Proof.
  intros Hd H. apply throw_if_out_of_range_ok in H. destruct H as [Hp H].
  injection H as <-. apply invariant_index_assign; assumption.
Qed.

Lemma invariant_flip_pos (d : DataArray) (pos : nat) (x : DataArray) :
  invariant T N d -> flip_pos T N d pos = Ok x -> invariant T N x.
Proof.
  intros Hd H. apply throw_if_out_of_range_ok in H. destruct H as [Hp H].
  injection H as <-. unfold ref_flip.
  apply (invariant_index_assign _ Hd Hp).
Qed.

Lemma invariant_set_all (d : DataArray) : wf T N d -> invariant T N (set_all T N d).
Proof.
  intros Hd. destruct (set_all_spec Hd) as [Hwf Hbits].
  apply (invariant_of_bits (fun _ => true) Hwf).
  intros p. rewrite Hbits, andb_true_r. reflexivity.
Qed.

Lemma invariant_flip_all (d : DataArray) : wf T N d -> invariant T N (flip_all T N d).
Proof.
  intros Hd. destruct (flip_all_spec Hd) as [Hwf Hbits].
  apply (invariant_of_bits (fun p => negb (raw_bit T d p)) Hwf Hbits).
Qed.

Lemma invariant_reset_all (d : DataArray) :
  invariant T N d -> invariant T N (reset_all T N d).
Proof.
  intros Hd. unfold reset_all.
  apply invariant_copy_assign; [exact Hd|apply invariant_ctor_default].
Qed.

Lemma invariant_bitwise (op : bool -> bool -> bool) (g lhs rhs : DataArray) :
  wf T N g -> invariant T N (bitwise T N op g lhs rhs).
Proof.
  intros Hg. destruct (bitwise_spec op lhs rhs Hg) as [Hwf Hbits].
  apply (invariant_of_bits _ Hwf Hbits).
Qed.

Lemma invariant_operator_shl (g x : DataArray) (s : nat) :
  wf T N g -> invariant T N (operator_shl T N g x s).
Proof.
  intros Hg. destruct (operator_shl_spec x s Hg) as [Hwf Hbits].
  apply (invariant_of_bits (fun p => (s <=? p) && raw_bit T x (p - s)) Hwf).
  intros p. rewrite Hbits, andb_assoc. reflexivity.
Qed.

Lemma invariant_operator_shr (g x : DataArray) (s : nat) :
  wf T N g -> invariant T N (operator_shr T N g x s).
Proof.
  intros Hg. destruct (operator_shr_spec x s Hg) as [Hwf Hbits].
  apply (invariant_of_bits (fun p => (p + s <? N) && raw_bit T x (p + s)) Hwf).
  intros p. rewrite Hbits.
  destruct (Nat.ltb_spec (p + s) N), (Nat.ltb_spec p N); simpl; auto; lia.
Qed.

Lemma invariant_extract_loop (fuel : nat) (zero one : ascii) (i : nat)
    (strm : istream) (x : DataArray) :
  invariant T N x -> invariant T N (snd (extract_loop T N fuel zero one i strm x)).
Proof.
  revert i strm x. induction fuel as [|fuel IH]; intros i strm x Hx; simpl; [exact Hx|].
  destruct ((i <? N) && negb (is_eof strm)) eqn:Hc; [|exact Hx].
  apply andb_true_iff in Hc. destruct Hc as [Hi _]. apply Nat.ltb_lt in Hi.
  destruct (negb (is_good strm)); [exact Hx|].
  destruct (is_peek strm) as [ch strm1].
  destruct (negb (Ascii.eqb ch one) && negb (Ascii.eqb ch zero)); [exact Hx|].
  destruct (is_get strm1 ch) as [ch' strm2].
  apply IH. apply invariant_index_assign; assumption.
Qed.

Lemma invariant_copy_ctor (g o : DataArray) :
  wf T N g -> invariant T N o -> invariant T N (copy_ctor N g o).
Proof.
  intros Hg Ho. unfold copy_ctor. rewrite (copy_assign_wf Hg (invariant_wf Ho)). exact Ho.
Qed.

(** Every state built by the documented operations is well formed and
    satisfies the unused-bit invariant. *)
Lemma reachable_invariant (x : DataArray) : reachable T N x -> invariant T N x.
Proof.
  induction 1.
  - apply invariant_ctor_default.
  - apply invariant_ctor_ull; assumption.
  - eapply invariant_ctor_string; eassumption.
  - apply invariant_copy_ctor; assumption.
  - eapply invariant_set_pos; eassumption.
  - eapply invariant_reset_pos; eassumption.
  - eapply invariant_flip_pos; eassumption.
  - apply invariant_set_all, invariant_wf; assumption.
  - apply invariant_reset_all; assumption.
  - apply invariant_flip_all, invariant_wf; assumption.
  - apply invariant_bitwise; assumption.
  - apply invariant_bitwise; assumption.
  - apply invariant_bitwise; assumption.
  - apply invariant_copy_assign; [assumption|apply invariant_bitwise; assumption].
  - apply invariant_copy_assign; [assumption|apply invariant_bitwise; assumption].
  - apply invariant_copy_assign; [assumption|apply invariant_bitwise; assumption].
  - unfold operator_not. apply invariant_copy_ctor; [assumption|].
    apply invariant_flip_all.
    unfold copy_ctor, copy_assign. destruct (0 <? N); [apply invariant_wf|]; assumption.
  - apply invariant_operator_shl; assumption.
  - apply invariant_operator_shr; assumption.
  - apply invariant_copy_assign; [assumption|apply invariant_operator_shl; assumption].
  - apply invariant_copy_assign; [assumption|apply invariant_operator_shr; assumption].
  - unfold operator_extract. apply invariant_extract_loop, invariant_reset_all. assumption.
  - apply invariant_index_assign; assumption.
Qed.

End Preservation.

(** ** Equality and hashing *)

Section Equality.

Variable T : WordTy.
Variable N : nat.

Lemma forallb_seq_iff (f : nat -> bool) (n : nat) :
  forallb f (seq 0 n) = true <-> forall w, w < n -> f w = true.
Proof.
  rewrite forallb_forall. split.
  - intros H w Hw. apply H, in_seq. lia.
  - intros H w Hw. apply in_seq in Hw. apply H. lia.
Qed.

(** [operator==] holds exactly when the stored bits below [N] agree. *)
Lemma operator_eq_iff (x y : DataArray) :
  wf T N x -> wf T N y ->
  (operator_eq T N x y = true <-> forall p, p < N -> raw_bit T x p = raw_bit T y p).
Proof.
  intros Hx Hy. unfold operator_eq.
  rewrite andb_true_iff, forallb_seq_iff, LastWordMask_eqb_0.
  pose proof (NBitsRem_lt T N) as HR. pose proof (N_split T N) as HN.
  split.
  - intros [Hfull Hlast] p Hp.
    destruct (pos_split T p) as [Hp1 Hp2].
    apply (lt_N_iff T N) in Hp. unfold raw_bit.
    destruct Hp as [Hq|[Hq Hr]].
    + apply Hfull in Hq. apply Z.eqb_eq in Hq. rewrite Hq. reflexivity.
    + destruct (Nat.eqb_spec (NBitsRem T N) 0) as [|_]; [lia|].
      apply Z.eqb_eq in Hlast.
      apply (f_equal (fun z => Z.testbit z (Z.of_nat (p mod TBits T)))) in Hlast.
      rewrite !Z.land_spec, testbit_LastWordMask in Hlast.
      replace (p mod TBits T <? NBitsRem T N) with true in Hlast
        by (symmetry; apply Nat.ltb_lt; exact Hr).
      rewrite !andb_true_r in Hlast. rewrite Hq. exact Hlast.
  - intros H. split.
    + intros w Hw. apply Z.eqb_eq.
      apply (in_range_ext (n := Z.of_nat (TBits T)));
        [lia|apply (wf_nth _ Hx)|apply (wf_nth _ Hy)|].
      intros k Hk. replace k with (Z.of_nat (Z.to_nat k)) by lia.
      rewrite <- !(@raw_bit_word T) by lia. apply H. nia.
    + destruct (Nat.eqb_spec (NBitsRem T N) 0) as [|Hne]; [reflexivity|].
      apply Z.eqb_eq, Z.bits_inj'. intros k Hk.
      replace k with (Z.of_nat (Z.to_nat k)) by lia.
      rewrite !Z.land_spec, testbit_LastWordMask.
      destruct (Nat.ltb_spec (Z.to_nat k) (NBitsRem T N)) as [Hlt|Hge];
        [|rewrite !andb_false_r; reflexivity].
      rewrite !andb_true_r, <- !(@raw_bit_word T) by lia. apply H. lia.
Qed.

(** Under the invariant, equal bitsets have equal backing arrays. *)
Lemma operator_eq_data (x y : DataArray) :
  invariant T N x -> invariant T N y -> operator_eq T N x y = true -> x = y.
Proof.
  intros Hx Hy Heq.
  apply invariant_iff in Hx. destruct Hx as [Hx Hx0].
  apply invariant_iff in Hy. destruct Hy as [Hy Hy0].
  apply (wf_ext Hx Hy). intros p _.
  destruct (Nat.lt_ge_cases p N) as [Hlt|Hge].
  - apply (proj1 (operator_eq_iff Hx Hy) Heq), Hlt.
  - rewrite Hx0, Hy0 by assumption. reflexivity.
Qed.

End Equality.

(** ** Zero capacity *)

Lemma zero_capacity_layout (T : WordTy) :
  NFullyUsedWords T 0 = 0 /\ NBitsRem T 0 = 0 /\ NWords T 0 = 0 /\ LastWordMask T 0 = 0%Z.
Proof. destruct T; repeat split; reflexivity. Qed.

(** ** Conversion to a string *)

Section ToString.

Variable T : WordTy.
Variable N : nat.

Lemma update_map_seq (A : Type) (f : nat -> A) (n i : nat) (v : A) :
  i < n ->
  update (map f (seq 0 n)) i v = map (fun k => if k =? i then v else f k) (seq 0 n).
Proof.
  intros Hi. apply nth_ext with (d := v) (d' := v).
  - rewrite update_length, !length_map. reflexivity.
  - intros k Hk. rewrite update_length, length_map, length_seq in Hk.
    rewrite nth_update, length_map, length_seq.
    replace (i <? n) with true by (symmetry; apply Nat.ltb_lt; exact Hi).
    rewrite andb_true_r.
    rewrite (nth_indep _ v (f 0)) by (rewrite length_map, length_seq; exact Hk).
    rewrite (nth_indep _ v ((fun k => if k =? i then v else f k) 0))
      by (rewrite length_map, length_seq; exact Hk).
    rewrite (map_nth f), (map_nth (fun k => if k =? i then v else f k)), seq_nth by exact Hk.
    reflexivity.
Qed.

Lemma to_string_spec (x : DataArray) (zero one : ascii) :
  to_string T N x zero one
  = map (fun i => if index T x i then one else zero) (seq 0 N).
Proof.
  unfold to_string, size.
  assert (forall n, n <= N ->
            for_range 0 n
              (fun bit ret => if index T x bit then update ret bit one else ret)
              (repeat zero N)
            = map (fun i => if (i <? n) && index T x i then one else zero) (seq 0 N)) as H.
  { intros n Hn.
    apply (for_range_ind
             (fun k acc => k <= N ->
                acc = map (fun i => if (i <? k) && index T x i then one else zero) (seq 0 N)));
      [lia| | |exact Hn].
    - intros _. apply nth_ext with (d := zero) (d' := zero).
      + rewrite repeat_length, length_map, length_seq. reflexivity.
      + intros k Hk. rewrite repeat_length in Hk.
        rewrite nth_repeat_lt by exact Hk.
        rewrite (nth_indep _ zero ((fun i => if (i <? 0) && index T x i then one else zero) 0))
          by (rewrite length_map, length_seq; exact Hk).
        rewrite (map_nth (fun i => if (i <? 0) && index T x i then one else zero)).
        reflexivity.
    - intros i acc Hi IH Hle. rewrite IH by lia.
      destruct (index T x i) eqn:Hb.
      + rewrite update_map_seq by lia. apply map_ext_in. intros k Hk.
        destruct (Nat.eqb_spec k i) as [->|Hne].
        * replace (i <? i + 1) with true by (symmetry; apply Nat.ltb_lt; lia).
          rewrite Hb. reflexivity.
        * destruct (Nat.ltb_spec k i), (Nat.ltb_spec k (i + 1)); auto; lia.
      + apply map_ext_in. intros k Hk.
        destruct (Nat.eq_dec k i) as [->|Hne].
        * rewrite Hb, !andb_false_r. reflexivity.
        * destruct (Nat.ltb_spec k i), (Nat.ltb_spec k (i + 1)); auto; lia. }
  rewrite (H N (le_n N)). apply map_ext_in. intros k Hk. apply in_seq in Hk.
  replace (k <? N) with true by (symmetry; apply Nat.ltb_lt; lia). reflexivity.
Qed.

End ToString.

(** ** Conversion to an integer *)

Lemma bits_inj_nat (a b : Z) :
  (forall k : nat, Z.testbit a (Z.of_nat k) = Z.testbit b (Z.of_nat k)) -> a = b.
Proof.
  intros H. apply Z.bits_inj'. intros k Hk.
  replace k with (Z.of_nat (Z.to_nat k)) by lia. apply H.
Qed.

Lemma testbit_shl_mod (w : Z) (off I k : nat) :
  Z.testbit (Z.shiftl w (Z.of_nat off) mod 2 ^ Z.of_nat I) (Z.of_nat k)
  = (k <? I) && (off <=? k) && Z.testbit w (Z.of_nat (k - off)).
Proof.
  rewrite Z.testbit_mod_pow2, Z.shiftl_spec by lia.
  replace (Z.of_nat k <? Z.of_nat I)%Z with (k <? I)
    by (destruct (Nat.ltb_spec k I), (Z.ltb_spec (Z.of_nat k) (Z.of_nat I)); auto; lia).
  rewrite <- andb_assoc. f_equal.
  destruct (Nat.leb_spec off k) as [Hle|Hgt]; simpl.
  - f_equal. lia.
  - apply Z.testbit_neg_r. lia.
Qed.

Lemma testbit_set_mod (ret : Z) (b I k : nat) :
  Z.testbit (Z.lor ret (Z.shiftl 1 (Z.of_nat b)) mod 2 ^ Z.of_nat I) (Z.of_nat k)
  = (k <? I) && (Z.testbit ret (Z.of_nat k) || (k =? b)).
Proof.
  rewrite Z.testbit_mod_pow2, Z.lor_spec, testbit_one_shl by lia.
  replace (Z.of_nat k <? Z.of_nat I)%Z with (k <? I)
    by (destruct (Nat.ltb_spec k I), (Z.ltb_spec (Z.of_nat k) (Z.of_nat I)); auto; lia).
  replace (Z.of_nat k =? Z.of_nat b)%Z with (k =? b)
    by (destruct (Nat.eqb_spec k b), (Z.eqb_spec (Z.of_nat k) (Z.of_nat b)); auto; lia).
  reflexivity.
Qed.

Lemma testbit_in_range_nat (I : nat) (z : Z) (k : nat) :
  (0 <= z < 2 ^ Z.of_nat I)%Z ->
  Z.testbit z (Z.of_nat k) = (k <? I) && Z.testbit z (Z.of_nat k).
Proof.
  intros Hz. destruct (Nat.ltb_spec k I); [reflexivity|].
  apply (in_range_bits_high (n := Z.of_nat I)); lia.
Qed.

Lemma TBits_le_64 (T : WordTy) : TBits T <= 64.
Proof. unfold TBits; destruct T; simpl; lia. Qed.

Section IntegerConversion.

Variable T : WordTy.
Variable N : nat.
Variable IntBits : nat.

(** [handle_word] ors the word, shifted to [bitOffset] and truncated to
    the destination width, into [ret]; [fuel] suffices as soon as the
    bits of [word] below [TBits - fuel] are clear. *)
Lemma handle_word_spec (fuel off : nat) (w ret : Z) :
  (0 <= w < 2 ^ Z.of_nat (TBits T))%Z ->
  (0 <= ret < 2 ^ Z.of_nat IntBits)%Z ->
  (forall k, k + fuel < TBits T -> Z.testbit w (Z.of_nat k) = false) ->
  handle_word T IntBits fuel off w ret
  = Z.lor ret (Z.shiftl w (Z.of_nat off) mod 2 ^ Z.of_nat IntBits).
Proof.
  revert w ret. induction fuel as [|fuel IH]; intros w ret Hw Hret Hlow.
  - assert (w = 0%Z) as ->.
    { apply bits_inj_nat. intros k. rewrite Z.bits_0.
      destruct (Nat.lt_ge_cases k (TBits T)).
      - apply Hlow. lia.
      - apply (in_range_bits_high (n := Z.of_nat (TBits T))); lia. }
    simpl. rewrite Z.shiftl_0_l, Z.mod_0_l, Z.lor_0_r; [reflexivity|].
    apply Z.pow_nonzero; lia.
  - simpl. destruct (Z.eqb_spec w 0) as [->|Hne].
    + rewrite Z.shiftl_0_l, Z.mod_0_l, Z.lor_0_r; [reflexivity|].
      apply Z.pow_nonzero; lia.
    + destruct (@ffs_index_spec (TBits T) w (TBits_le_64 T) Hw Hne) as (Hb & Hset & Hlowest).
      set (b := ffs_index (TBits T) w) in *.
      assert (TBits T <= b + Datatypes.S fuel) as Hfuel.
      { destruct (Nat.lt_ge_cases (b + Datatypes.S fuel) (TBits T)) as [Hlt|]; [|assumption].
        rewrite (Hlow b Hlt) in Hset. discriminate. }
      destruct (Nat.leb_spec IntBits (b + off)) as [Hbrk|Hgo].
      * (* every remaining bit lands beyond the destination *)
        apply bits_inj_nat. intros k.
        rewrite Z.lor_spec, testbit_shl_mod.
        destruct (Nat.ltb_spec k IntBits) as [Hk|Hk]; [|rewrite orb_false_r; reflexivity].
        destruct (Nat.leb_spec off k) as [Hle|Hgt]; [|rewrite orb_false_r; reflexivity].
        simpl. rewrite Hlowest by lia. rewrite orb_false_r. reflexivity.
      * rewrite IH.
        -- apply bits_inj_nat. intros k.
           rewrite !Z.lor_spec, !testbit_shl_mod, testbit_set_mod.
           rewrite (@testbit_in_range_nat IntBits ret k Hret).
           destruct (Nat.ltb_spec k IntBits) as [Hk|Hk]; [|reflexivity]. simpl.
           destruct (Nat.leb_spec off k) as [Hle|Hgt]; simpl.
           ++ rewrite testbit_clear_bit by lia.
              destruct (Nat.eqb_spec k (b + off)) as [->|Hkb].
              ** replace (b + off - off) with b by lia. rewrite Hset.
                 rewrite !orb_true_r. reflexivity.
              ** replace (Z.of_nat (k - off) =? Z.of_nat b)%Z with false
                   by (symmetry; apply Z.eqb_neq; lia).
                 rewrite orb_false_r, andb_true_r. reflexivity.
           ++ destruct (Nat.eqb_spec k (b + off)); [lia|].
              rewrite !orb_false_r. reflexivity.
        -- apply clear_bit_range; [lia|exact Hw].
        -- apply Z.mod_pos_bound, Z.pow_pos_nonneg; lia.
        -- intros k Hk. rewrite testbit_clear_bit by lia.
           destruct (Nat.eq_dec k b) as [->|Hkb].
           ++ rewrite Z.eqb_refl, andb_false_r. reflexivity.
           ++ rewrite Hlowest by lia. reflexivity.
Qed.

Lemma handle_word_full (off : nat) (w ret : Z) :
  (0 <= w < 2 ^ Z.of_nat (TBits T))%Z ->
  (0 <= ret < 2 ^ Z.of_nat IntBits)%Z ->
  handle_word T IntBits (TBits T) off w ret
  = Z.lor ret (Z.shiftl w (Z.of_nat off) mod 2 ^ Z.of_nat IntBits).
Proof. intros Hw Hret. apply handle_word_spec; try assumption. intros k Hk. lia. Qed.

Lemma handle_word_range (off : nat) (w ret : Z) :
  (0 <= w < 2 ^ Z.of_nat (TBits T))%Z ->
  (0 <= ret < 2 ^ Z.of_nat IntBits)%Z ->
  (0 <= handle_word T IntBits (TBits T) off w ret < 2 ^ Z.of_nat IntBits)%Z.
Proof.
  intros Hw Hret. rewrite handle_word_full by assumption.
  apply range_of_bits; [lia| |].
  - apply Z.lor_nonneg. split; [lia|]. apply Z.mod_pos_bound, Z.pow_pos_nonneg; lia.
  - intros k Hk. rewrite Z.lor_spec, Z.mod_pow2_bits_high by lia.
    rewrite (in_range_bits_high (n := Z.of_nat IntBits)) by lia. reflexivity.
Qed.

(** The loop over the fully used words, when the capacity fits the
    destination: it never leaves early and gathers the bits below
    [NFullyUsedWords * TBits]. *)
Lemma convert_loop_spec (fuel : nat) (d : DataArray) (w : nat) (ret : Z) :
  wf T N d -> N <= IntBits -> w + fuel = NFullyUsedWords T N ->
  (0 <= ret < 2 ^ Z.of_nat IntBits)%Z ->
  (forall k, Z.testbit ret (Z.of_nat k) = (k <? w * TBits T) && raw_bit T d k) ->
  let r := convert_loop T N IntBits fuel d w (w * TBits T) ret in
  fst r = NFullyUsedWords T N * TBits T /\
  (0 <= snd r < 2 ^ Z.of_nat IntBits)%Z /\
  forall k, Z.testbit (snd r) (Z.of_nat k)
            = (k <? NFullyUsedWords T N * TBits T) && raw_bit T d k.
Proof.
  intros Hd HN. revert w ret.
  induction fuel as [|fuel IH]; intros w ret Hw Hret Hbits; simpl.
  - replace w with (NFullyUsedWords T N) in * by lia. auto.
  - pose proof (N_split T N) as Hsplit. pose proof (TBits_pos T) as Hpos.
    replace (w <? NFullyUsedWords T N) with true by (symmetry; apply Nat.ltb_lt; lia).
    replace (w * TBits T <? IntBits) with true by (symmetry; apply Nat.ltb_lt; nia).
    simpl.
    replace (w * TBits T + TBits T) with ((w + 1) * TBits T) by lia.
    apply IH; [lia| |].
    + apply handle_word_range; [apply (wf_nth _ Hd)|exact Hret].
    + intros k. rewrite handle_word_full by (try apply (wf_nth _ Hd); exact Hret).
      rewrite Z.lor_spec, Hbits, testbit_shl_mod.
      destruct (Nat.ltb_spec k (w * TBits T)) as [Hk|Hk]; simpl.
      * replace (k <? (w + 1) * TBits T) with true by (symmetry; apply Nat.ltb_lt; lia).
        destruct (Nat.leb_spec (w * TBits T) k); [lia|].
        rewrite andb_false_r, orb_false_r. reflexivity.
      * destruct (Nat.leb_spec (w * TBits T) k); [|lia].
        rewrite andb_true_r.
        destruct (Nat.ltb_spec k ((w + 1) * TBits T)) as [Hk'|Hk']; simpl.
        -- replace (k <? IntBits) with true by (symmetry; apply Nat.ltb_lt; nia).
           simpl.
           replace k with (TBits T * w + (k - w * TBits T)) at 2 by lia.
           rewrite raw_bit_word by lia. reflexivity.
        -- rewrite (in_range_bits_high (n := Z.of_nat (TBits T)));
             [apply andb_false_r|lia|apply (wf_nth _ Hd)|lia].
Qed.

End IntegerConversion.

Section IntegerValue.

Variable T : WordTy.
Variable N : nat.

(** The bits of the little-endian sum. *)
Lemma bits_value_spec (d : DataArray) (n : nat) :
  (0 <= bits_value T d n < 2 ^ Z.of_nat n)%Z /\
  forall k, Z.testbit (bits_value T d n) (Z.of_nat k) = (k <? n) && raw_bit T d k.
Proof.
  unfold bits_value.
  apply (for_range_ind
           (fun i acc => (0 <= acc < 2 ^ Z.of_nat i)%Z /\
              forall k, Z.testbit acc (Z.of_nat k) = (k <? i) && raw_bit T d k));
    [lia| |].
  - split; [simpl; lia|]. intros k. apply Z.bits_0.
  - intros i acc _ [Hr Hbits].
    assert (2 ^ Z.of_nat (i + 1) = 2 * 2 ^ Z.of_nat i)%Z as Hpow
      by (rewrite Nat2Z.inj_add, Z.pow_add_r by lia; simpl (2 ^ Z.of_nat 1)%Z; lia).
    rewrite index_raw_bit. destruct (raw_bit T d i) eqn:Hb.
    + assert (Z.land acc (2 ^ Z.of_nat i) = 0)%Z as Hdisj.
      { apply bits_inj_nat. intros k. rewrite Z.land_spec, Z.bits_0, Z.pow2_bits_eqb by lia.
        destruct (Z.eqb_spec (Z.of_nat i) (Z.of_nat k)) as [E|E]; [|apply andb_false_r].
        rewrite <- E, Hbits, Nat.ltb_irrefl. reflexivity. }
      split; [lia|]. intros k.
      rewrite Z.add_nocarry_lxor, Z.lxor_lor by exact Hdisj.
      rewrite Z.lor_spec, Hbits, Z.pow2_bits_eqb by lia.
      destruct (Z.eqb_spec (Z.of_nat i) (Z.of_nat k)) as [E|E].
      * apply Nat2Z.inj in E. subst k.
        replace (i <? i + 1) with true by (symmetry; apply Nat.ltb_lt; lia).
        rewrite Hb, orb_true_r. reflexivity.
      * rewrite orb_false_r.
        destruct (Nat.ltb_spec k i), (Nat.ltb_spec k (i + 1)); simpl; auto; lia.
    + rewrite Z.add_0_r. split; [lia|]. intros k. rewrite Hbits.
      destruct (Nat.ltb_spec k i), (Nat.ltb_spec k (i + 1)); simpl; auto; try lia.
      assert (k = i) by lia. subst k. rewrite Hb. reflexivity.
Qed.

(** [do_int_convert] returns the little-endian value of the bits below
    [N] whenever [N] fits the destination. *)
Lemma do_int_convert_spec (IntBits : nat) (d : DataArray) :
  wf T N d -> N <= IntBits -> do_int_convert T N IntBits d = bits_value T d N.
Proof.
  intros Hd HN. unfold do_int_convert.
  destruct (Nat.eqb_spec N 0) as [->|HN0]; [reflexivity|].
  assert (0 <= 0 < 2 ^ Z.of_nat IntBits)%Z as H0
    by (split; [lia|apply Z.pow_pos_nonneg; lia]).
  destruct (@convert_loop_spec T N IntBits (NFullyUsedWords T N) d 0 0%Z Hd HN
              (Nat.add_0_l _) H0) as (Hoff & Hrange & Hbits).
  { intros k. rewrite Z.bits_0. reflexivity. }
  change (0 * TBits T) with 0 in *.
  destruct (convert_loop T N IntBits (NFullyUsedWords T N) d 0 0 0%Z) as [off ret].
  simpl in Hoff, Hrange, Hbits. subst off.
  pose proof (N_split T N) as Hsplit. pose proof (NBitsRem_lt T N) as HR.
  destruct (bits_value_spec d N) as [_ Hval].
  rewrite LastWordMask_eqb_0.
  destruct (Nat.eqb_spec (NBitsRem T N) 0) as [Hz|Hz].
  - apply bits_inj_nat. intros k. rewrite Hbits, Hval.
    replace (NFullyUsedWords T N * TBits T) with N by lia. reflexivity.
  - replace (NFullyUsedWords T N * TBits T <? IntBits) with true
      by (symmetry; apply Nat.ltb_lt; lia).
    rewrite last_word_index by lia.
    rewrite handle_word_full;
      [|apply land_in_range; [apply (wf_nth _ Hd)|apply LastWordMask_range]|exact Hrange].
    apply bits_inj_nat. intros k.
    rewrite Z.lor_spec, Hbits, testbit_shl_mod, Z.land_spec, testbit_LastWordMask, Hval.
    destruct (Nat.ltb_spec k (NFullyUsedWords T N * TBits T)) as [Hk|Hk]; simpl.
    + replace (k <? N) with true by (symmetry; apply Nat.ltb_lt; lia).
      destruct (Nat.leb_spec (NFullyUsedWords T N * TBits T) k); [lia|].
      rewrite andb_false_r, orb_false_r. reflexivity.
    + destruct (Nat.leb_spec (NFullyUsedWords T N * TBits T) k); [|lia].
      rewrite andb_true_r.
      destruct (Nat.ltb_spec k N) as [HkN|HkN]; simpl.
      * replace (k <? IntBits) with true by (symmetry; apply Nat.ltb_lt; lia).
        replace (k - NFullyUsedWords T N * TBits T <? NBitsRem T N) with true
          by (symmetry; apply Nat.ltb_lt; lia).
        rewrite andb_true_r. simpl.
        replace k with (TBits T * NFullyUsedWords T N + (k - NFullyUsedWords T N * TBits T))
          at 2 by lia.
        rewrite raw_bit_word by lia. reflexivity.
      * replace (k - NFullyUsedWords T N * TBits T <? NBitsRem T N) with false
          by (symmetry; apply Nat.ltb_ge; lia).
        rewrite !andb_false_r. reflexivity.
Qed.

Lemma to_ulong_spec (LBits : nat) (d : DataArray) :
  wf T N d ->
  (to_ulong T N LBits d = Err Overflow <-> LBits < N) /\
  (N <= LBits -> to_ulong T N LBits d = Ok (bits_value T d N)).
Proof.
  intros Hd. unfold to_ulong, size.
  destruct (Nat.ltb_spec LBits N) as [Hlt|Hge].
  - split; [tauto|lia].
  - split.
    + split; [discriminate|lia].
    + intros _. rewrite do_int_convert_spec by assumption. reflexivity.
Qed.

Lemma to_ullong_spec (d : DataArray) :
  wf T N d ->
  (to_ullong T N d = Err Overflow <-> 64 < N) /\
  (N <= 64 -> to_ullong T N d = Ok (bits_value T d N)).
Proof.
  intros Hd. unfold to_ullong, size. cbv zeta.
  destruct (Nat.ltb_spec 64 N) as [Hlt|Hge].
  - split; [tauto|lia].
  - split.
    + split; [discriminate|lia].
    + intros _. rewrite do_int_convert_spec by assumption. reflexivity.
Qed.

End IntegerValue.

(** ** Construction from a string *)

Section FromString.

Variable T : WordTy.
Variable N : nat.

Lemma ctor_string_loop_error (fuel : nat) (str : list ascii) (n : nat)
    (zero one : ascii) (i j : nat) (d : DataArray) (e : exn) :
  ctor_string_loop T N fuel str n zero one i j d = Err e -> e = InvalidArgument.
Proof.
  revert i j d. induction fuel as [|fuel IH]; intros i j d H; simpl in H; [discriminate|].
  destruct ((i <? n) && (j <? N)); [|discriminate].
  destruct (Ascii.eqb (nth i str Ascii.zero) one); [apply (IH _ _ _ H)|].
  destruct (Ascii.eqb (nth i str Ascii.zero) zero); [apply (IH _ _ _ H)|].
  injection H as <-. reflexivity.
Qed.

(** [std::out_of_range] is thrown exactly when [pos >= str.size()] and
    [N] is not zero. *)
Lemma ctor_string_out_of_range (str : list ascii) (pos n : nat) (zero one : ascii) :
  ctor_string T N str pos n zero one = Err OutOfRange
  <-> length str <= pos /\ N <> 0.
Proof.
  unfold ctor_string.
  destruct (Nat.leb_spec (length str) pos) as [Hle|Hgt], (Nat.eqb_spec N 0) as [HN|HN]; simpl.
  - split; [|lia]. intros H. apply ctor_string_loop_error in H. discriminate.
  - split; [intros _; split; assumption|reflexivity].
  - split; [|lia]. intros H. apply ctor_string_loop_error in H. discriminate.
  - split; [|lia]. intros H. apply ctor_string_loop_error in H. discriminate.
Qed.

(** What the loop copies: starting with the bits at [j] and above
    clear, and with enough fuel, it takes [c = min (n - i) (N - j)]
    characters, [str[i + k]] going to bit [j + k]. *)
Lemma ctor_string_loop_spec (fuel : nat) (str : list ascii) (n : nat)
    (zero one : ascii) (i j : nat) (d x : DataArray) :
  wf T N d -> N <= j + fuel ->
  (forall p, j <= p -> raw_bit T d p = false) ->
  ctor_string_loop T N fuel str n zero one i j d = Ok x ->
  wf T N x /\
  forall p, raw_bit T x p =
            if p <? j then raw_bit T d p
            else (p <? j + Nat.min (n - i) (N - j))
                 && Ascii.eqb (nth (i + (p - j)) str Ascii.zero) one.
Proof.
  revert i j d. induction fuel as [|fuel IH]; intros i j d Hd Hfuel Hclear H; simpl in H.
  - injection H as <-. split; [exact Hd|]. intros p.
    destruct (Nat.ltb_spec p j); [reflexivity|].
    replace (N - j) with 0 by lia. rewrite Nat.min_0_r, Nat.add_0_r.
    destruct (Nat.ltb_spec p j); [lia|]. apply Hclear. lia.
  - destruct (Nat.ltb_spec i n) as [Hi|Hi], (Nat.ltb_spec j N) as [Hj|Hj]; simpl in H;
      try (injection H as <-; split; [exact Hd|]; intros p;
           destruct (Nat.ltb_spec p j); [reflexivity|];
           replace (Nat.min (n - i) (N - j)) with 0 by lia;
           rewrite Nat.add_0_r; destruct (Nat.ltb_spec p j); [lia|]; apply Hclear; lia).
    assert (Nat.min (n - i) (N - j) = Datatypes.S (Nat.min (n - (i + 1)) (N - (j + 1)))) as Hc
      by lia.
    destruct (Ascii.eqb (nth i str Ascii.zero) one) eqn:Hone.
    + destruct (IH (i + 1) (j + 1) _ (wf_index_assign j true Hd) ltac:(lia)
                  ltac:(intros p Hp; rewrite raw_bit_index_assign
                          by (apply (word_of_pos_lt Hd Hj));
                        destruct (Nat.eqb_spec p j); [lia|apply Hclear; lia]) H)
        as [Hwf Hbits].
      split; [exact Hwf|]. intros p. rewrite Hbits, Hc.
      rewrite raw_bit_index_assign by (apply (word_of_pos_lt Hd Hj)).
      destruct (Nat.ltb_spec p (j + 1)) as [Hp|Hp], (Nat.ltb_spec p j) as [Hp'|Hp'];
        try lia.
      * destruct (Nat.eqb_spec p j); [lia|reflexivity].
      * assert (p = j) by lia. subst p. rewrite Nat.eqb_refl.
        replace (j - j) with 0 by lia. rewrite Nat.add_0_r, Hone.
        replace (j <? j + Datatypes.S (Nat.min (n - (i + 1)) (N - (j + 1)))) with true
          by (symmetry; apply Nat.ltb_lt; lia).
        reflexivity.
      * replace (i + 1 + (p - (j + 1))) with (i + (p - j)) by lia.
        f_equal.
        destruct (Nat.ltb_spec p (j + 1 + Nat.min (n - (i + 1)) (N - (j + 1)))),
          (Nat.ltb_spec p (j + Datatypes.S (Nat.min (n - (i + 1)) (N - (j + 1)))));
          auto; lia.
    + destruct (Ascii.eqb (nth i str Ascii.zero) zero); [|discriminate].
      destruct (IH (i + 1) (j + 1) _ Hd ltac:(lia) ltac:(intros p Hp; apply Hclear; lia) H)
        as [Hwf Hbits].
      split; [exact Hwf|]. intros p. rewrite Hbits, Hc.
      destruct (Nat.ltb_spec p (j + 1)) as [Hp|Hp], (Nat.ltb_spec p j) as [Hp'|Hp'];
        try lia.
      * reflexivity.
      * assert (p = j) by lia. subst p.
        replace (j - j) with 0 by lia. rewrite Nat.add_0_r, Hone, andb_false_r.
        apply Hclear. lia.
      * replace (i + 1 + (p - (j + 1))) with (i + (p - j)) by lia.
        f_equal.
        destruct (Nat.ltb_spec p (j + 1 + Nat.min (n - (i + 1)) (N - (j + 1)))),
          (Nat.ltb_spec p (j + Datatypes.S (Nat.min (n - (i + 1)) (N - (j + 1)))));
          auto; lia.
Qed.

(** The string constructor treats [n] as an end index into [str]: it
    copies [min (min n size - pos) N] characters, [str[pos + k]] going
    to bit [k]; every other stored bit is 0. *)
Lemma ctor_string_spec (str : list ascii) (pos n : nat) (zero one : ascii)
    (x : DataArray) :
  ctor_string T N str pos n zero one = Ok x ->
  wf T N x /\
  forall p, raw_bit T x p =
            (p <? Nat.min (Nat.min n (length str) - pos) N)
            && Ascii.eqb (nth (pos + p) str Ascii.zero) one.
Proof.
  unfold ctor_string. intros H.
  destruct ((length str <=? pos) && negb (N =? 0)); [discriminate|].
  destruct (@ctor_string_loop_spec N str _ zero one pos 0 _ x (wf_ctor_default T N) ltac:(lia)
              (fun p _ => raw_bit_ctor_default T N p) H) as [Hwf Hbits].
  split; [exact Hwf|]. intros p. rewrite Hbits. simpl.
  rewrite !Nat.sub_0_r. reflexivity.
Qed.

End FromString.

(** ** Stream extraction *)

Ltac splits :=
  repeat match goal with
         | |- _ /\ _ => split
         | |- _ <-> _ => split
         end.

Section Extraction.

Variable T : WordTy.
Variable N : nat.

(** On a stream that is not good on entry the loop body never gets to
    [peek]: nothing is consumed and no state bit changes. *)
Lemma extract_loop_not_good (fuel : nat) (zero one : ascii) (i : nat)
    (strm : istream) (x : DataArray) :
  is_good strm = false ->
  extract_loop T N fuel zero one i strm x = (strm, x).
Proof.
  intros Hg. destruct fuel as [|fuel]; simpl; [reflexivity|].
  destruct ((i <? N) && negb (is_eof strm)); [|reflexivity].
  rewrite Hg. reflexivity.
Qed.

Lemma extract_loop_S (fuel : nat) (zero one : ascii) (i : nat)
    (strm : istream) (x : DataArray) :
  extract_loop T N (Datatypes.S fuel) zero one i strm x =
  if (i <? N) && negb (is_eof strm) then
    if negb (is_good strm) then (strm, x)
    else
      let '(ch, strm1) := is_peek strm in
      if negb (Ascii.eqb ch one) && negb (Ascii.eqb ch zero) then
        ((if i =? 0 then setstate_fail strm1 else strm1), x)
      else
        let '(ch', strm2) := is_get strm1 ch in
        extract_loop T N fuel zero one (i + 1) strm2
          (index_assign T x i (Ascii.eqb ch' one))
  else (strm, x).
Proof. reflexivity. Qed.

Lemma operator_extract_not_good (strm : istream) (x : DataArray) :
  is_good strm = false ->
  operator_extract T N strm x = (strm, reset_all T N x).
Proof. intros Hg. unfold operator_extract. apply extract_loop_not_good, Hg. Qed.

Local Opaque eof_char.

(** On a good stream over the buffer [b] the loop consumes the longest
    run of zero/one characters that fits, stores it from bit [i] on,
    and sets [failbit] exactly when it was entered at [i = 0] with
    [N > 0] and consumed nothing. *)
Lemma extract_loop_good (fuel : nat) (zero one : ascii) (i : nat)
    (b : list ascii) (x : DataArray) :
  eof_char <> one -> eof_char <> zero ->
  wf T N x -> i <= N -> N <= i + fuel ->
  let r := extract_loop T N fuel zero one i (mkIstream b false false false) x in
  let k := length b - length (buf (fst r)) in
  b = firstn k b ++ buf (fst r) /\
  i + k <= N /\
  Forall (fun c => c = one \/ c = zero) (firstn k b) /\
  (i + k = N \/
   match buf (fst r) with [] => True | c :: _ => c <> one /\ c <> zero end) /\
  (failbit (fst r) = true <-> i = 0 /\ 0 < N /\ k = 0) /\
  badbit (fst r) = false /\
  wf T N (snd r) /\
  forall p, raw_bit T (snd r) p =
            if (i <=? p) && (p <? i + k)
            then Ascii.eqb (nth (p - i) b zero) one
            else raw_bit T x p.
Proof.
  intros Hone Hzero. revert i b x.
  assert (forall (i k : nat) (x : DataArray) (b : list ascii) (p : nat), k = 0 ->
            raw_bit T x p =
            if (i <=? p) && (p <? i + k)
            then Ascii.eqb (nth (p - i) b zero) one else raw_bit T x p) as Hleaf.
  { intros i k x b p ->.
    destruct (Nat.leb_spec i p), (Nat.ltb_spec p (i + 0)); simpl; auto; lia. }
  induction fuel as [|fuel IH]; intros i b x Hx Hi Hfuel; cbv zeta.
  - cbn [extract_loop fst snd buf failbit badbit]. rewrite Nat.sub_diag.
    cbn [firstn app]. splits; try lia; auto; try discriminate.
  - rewrite extract_loop_S. unfold is_eof, is_good, is_peek, is_good.
    cbn [buf eofbit failbit badbit negb andb].
    destruct (Nat.ltb_spec i N) as [HiN|HiN]; cbn [andb negb].
    2:{ cbn [fst snd buf failbit badbit]. rewrite Nat.sub_diag.
        cbn [firstn app]. splits; try lia; auto; try discriminate. }
    destruct b as [|c rest].
    + (* end of input: [peek] sets [eofbit] and returns [eof] *)
      replace (Ascii.eqb eof_char one) with false
        by (symmetry; apply Ascii.eqb_neq; exact Hone).
      replace (Ascii.eqb eof_char zero) with false
        by (symmetry; apply Ascii.eqb_neq; exact Hzero).
      cbn [andb negb].
      destruct (Nat.eqb_spec i 0) as [Hi0|Hi0];
        cbn [fst snd buf failbit badbit setstate_fail setstate_eof length Nat.sub firstn app];
        splits; try lia; auto; try discriminate.
    + destruct (negb (Ascii.eqb c one) && negb (Ascii.eqb c zero)) eqn:Hmis.
      * (* a character outside the alphabet stays in the stream *)
        apply andb_true_iff in Hmis. destruct Hmis as [H1 H0].
        apply negb_true_iff, Ascii.eqb_neq in H1, H0.
        destruct (Nat.eqb_spec i 0) as [Hi0|Hi0];
          cbn [fst snd buf failbit badbit setstate_fail setstate_eof];
          rewrite Nat.sub_diag; cbn [firstn app];
          splits; try lia; auto; try discriminate.
      * unfold is_get, is_good. cbn [buf eofbit failbit badbit negb andb].
        assert (c = one \/ c = zero) as Hc.
        { apply andb_false_iff in Hmis. destruct Hmis as [H|H];
            apply negb_false_iff, Ascii.eqb_eq in H; auto. }
        specialize (IH (i + 1) rest (index_assign T x i (Ascii.eqb c one))
                      (wf_index_assign i _ Hx) ltac:(lia) ltac:(lia)).
        cbv zeta in IH.
        destruct (extract_loop T N fuel zero one (i + 1)
                    (mkIstream rest false false false)
                    (index_assign T x i (Ascii.eqb c one))) as [strm' x'].
        cbn [fst snd] in IH |- *.
        change (length (c :: rest)) with (Datatypes.S (length rest)).
        destruct IH as (Hsplit & Hk & Hall & Hstop & Hfail & Hbad & Hwf & Hbits).
        set (k' := length rest - length (buf strm')) in *.
        assert (length (buf strm') <= length rest) as Hlen.
        { pose proof (f_equal (@length _) Hsplit) as HL. rewrite length_app in HL. lia. }
        replace (Datatypes.S (length rest) - length (buf strm')) with (Datatypes.S k') by lia.
        cbn [firstn app]. splits; try lia; auto.
        -- f_equal. exact Hsplit.
        -- destruct Hstop as [Hstop|Hstop]; [left; lia|right; exact Hstop].
        -- intros Hf. apply Hfail in Hf. lia.
        -- intros p. rewrite Hbits.
           rewrite raw_bit_index_assign by (apply (word_of_pos_lt Hx HiN)).
           destruct (Nat.leb_spec (i + 1) p) as [Hp|Hp], (Nat.leb_spec i p) as [Hp'|Hp'];
             try lia; cbn [andb].
           ++ replace (p <? i + Datatypes.S k') with (p <? i + 1 + k')
                by (destruct (Nat.ltb_spec p (i + 1 + k')),
                      (Nat.ltb_spec p (i + Datatypes.S k')); auto; lia).
              destruct (Nat.ltb_spec p (i + 1 + k')) as [Hlt|Hge].
              ** replace (p - i) with (Datatypes.S (p - (i + 1))) by lia. reflexivity.
              ** destruct (Nat.eqb_spec p i); [lia|reflexivity].
           ++ assert (p = i) by lia. subst p. rewrite Nat.eqb_refl, Nat.sub_diag.
              replace (i <? i + Datatypes.S k') with true by (symmetry; apply Nat.ltb_lt; lia).
              reflexivity.
           ++ destruct (Nat.eqb_spec p i); [lia|reflexivity].
Qed.

Local Transparent eof_char.

End Extraction.

Section ExtractionGood.

Variable T : WordTy.
Variable N : nat.

Lemma good_stream_eta (strm : istream) :
  is_good strm = true -> strm = mkIstream (buf strm) false false false.
Proof.
  unfold is_good. destruct strm as [b e f bd]. simpl.
  destruct e, f, bd; simpl; try discriminate. reflexivity.
Qed.

Lemma reset_all_wf (x : DataArray) : wf T N x -> reset_all T N x = ctor_default T N.
Proof. intros Hx. apply (copy_assign_wf Hx (wf_ctor_default T N)). Qed.

(** [operator>>] on a stream that is good on entry: the characters
    taken are a prefix of zero/one characters of the buffer, at most
    [N] of them, as long as possible; character [p] of it is bit [p],
    every other bit is 0; [failbit] is set exactly when [N > 0] and
    nothing was taken. *)
Lemma operator_extract_good (strm : istream) (x : DataArray) :
  is_good strm = true -> wf T N x ->
  let r := operator_extract T N strm x in
  let k := consumed strm (fst r) in
  buf strm = firstn k (buf strm) ++ buf (fst r) /\
  k <= N /\
  Forall (fun c => c = "1"%char \/ c = "0"%char) (firstn k (buf strm)) /\
  (k = N \/
   match buf (fst r) with [] => True | c :: _ => c <> "1"%char /\ c <> "0"%char end) /\
  (failbit (fst r) = true <-> 0 < N /\ k = 0) /\
  wf T N (snd r) /\
  forall p, raw_bit T (snd r) p =
            (p <? k) && Ascii.eqb (nth p (buf strm) "0"%char) "1"%char.
Proof.
  intros Hg Hx. destruct strm as [b e f bd].
  unfold is_good in Hg. simpl in Hg.
  destruct e, f, bd; try discriminate. clear Hg.
  unfold operator_extract, consumed. rewrite (reset_all_wf Hx). cbn [buf].
  destruct (@extract_loop_good T N N "0"%char "1"%char 0 b (ctor_default T N))
    as (Hsplit & Hk & Hall & Hstop & Hfail & _ & Hwf & Hbits);
    [discriminate|discriminate|apply wf_ctor_default|lia|lia|].
  cbv zeta.
  set (r := extract_loop T N N "0"%char "1"%char 0 (mkIstream b false false false)
              (ctor_default T N)) in *.
  set (k := length b - length (buf (fst r))) in *.
  rewrite Nat.add_0_l in Hk, Hstop.
  splits; try assumption.
  - intros Hf. apply Hfail in Hf. tauto.
  - intros Hf. apply Hfail. tauto.
  - intros p. rewrite Hbits, raw_bit_ctor_default, Nat.sub_0_r, Nat.add_0_l.
    replace (0 <=? p) with true by (symmetry; apply Nat.leb_le; lia).
    cbn [andb]. destruct (p <? k); reflexivity.
Qed.

End ExtractionGood.

(** ** Writing through the byte view *)

Section ByteWrite.

Variable T : WordTy.

Lemma nth_word_bytes (w : Z) (i : nat) :
  i < sizeof T ->
  nth i (word_bytes T w) 0%Z = Z.land (Z.shiftr w (8 * Z.of_nat i)) 255.
Proof.
  intros Hi. unfold word_bytes.
  rewrite (nth_indep _ 0%Z (Z.land (Z.shiftr w (8 * Z.of_nat 0)) 255))
    by (rewrite length_map, length_seq; exact Hi).
  rewrite (map_nth (fun k => Z.land (Z.shiftr w (8 * Z.of_nat k)) 255)).
  rewrite seq_nth by exact Hi. reflexivity.
Qed.

Lemma nth_bits (d : DataArray) (j : nat) :
  j / sizeof T < length d ->
  nth j (bits T d) 0%Z
  = Z.land (Z.shiftr (nth (j / sizeof T) d 0%Z) (8 * Z.of_nat (j mod sizeof T))) 255.
Proof.
  intros Hj. unfold bits.
  rewrite (nth_flat_map_blocks (word_bytes T) (sz := sizeof T) d j 0%Z 0%Z)
    by (try apply sizeof_pos; try apply word_bytes_length; exact Hj).
  apply nth_word_bytes, Nat.mod_upper_bound. pose proof (sizeof_pos T). lia.
Qed.

Lemma testbit_255 (t : Z) : (0 <= t)%Z -> Z.testbit 255 t = (t <? 8)%Z.
Proof. intros Ht. change 255%Z with (Z.ones 8). apply Z.testbit_ones_nonneg; lia. Qed.

(** Storing the byte [v] at offset [k] changes byte [k] of the view
    and no other. *)
Lemma bits_bits_write (d : DataArray) (k : nat) (v : Z) :
  k < bits_size T d -> (0 <= v < 256)%Z ->
  bits T (bits_write T d k v) = update (bits T d) k v.
Proof.
  intros Hk Hv. pose proof (sizeof_pos T) as Hsz. unfold bits_size in Hk.
  assert (forall j, j < length d * sizeof T -> j / sizeof T < length d) as Hdiv
    by (intros j Hj; apply Nat.Div0.div_lt_upper_bound; lia).
  apply nth_ext with (d := 0%Z) (d' := 0%Z).
  - rewrite update_length, !bits_length. unfold bits_size, bits_write.
    rewrite update_length. reflexivity.
  - intros j Hj. rewrite bits_length in Hj. unfold bits_size, bits_write in Hj.
    rewrite update_length in Hj.
    rewrite nth_update, bits_length. unfold bits_size.
    replace (k <? length d * sizeof T) with true by (symmetry; apply Nat.ltb_lt; exact Hk).
    rewrite andb_true_r.
    rewrite nth_bits by (unfold bits_write; rewrite update_length; apply Hdiv, Hj).
    unfold bits_write. rewrite nth_update.
    replace (k / sizeof T <? length d) with true
      by (symmetry; apply Nat.ltb_lt, Hdiv, Hk).
    rewrite andb_true_r.
    pose proof (Nat.div_mod_eq j (sizeof T)) as Ej.
    pose proof (Nat.div_mod_eq k (sizeof T)) as Ek.
    pose proof (Nat.mod_upper_bound j (sizeof T) ltac:(lia)) as Hjm.
    pose proof (Nat.mod_upper_bound k (sizeof T) ltac:(lia)) as Hkm.
    destruct (Nat.eqb_spec (j / sizeof T) (k / sizeof T)) as [Hq|Hq].
    + set (w := nth (k / sizeof T) d 0%Z).
      set (a := Z.of_nat (j mod sizeof T)). set (b := Z.of_nat (k mod sizeof T)).
      assert (0 <= a)%Z by lia. assert (0 <= b)%Z by lia.
      destruct (Nat.eqb_spec j k) as [->|Hne].
      * (* the byte written *)
        subst a. fold b. apply Z.bits_inj'. intros t Ht.
        rewrite Z.land_spec, Z.shiftr_spec, Z.lor_spec, Z.land_spec, Z.lnot_spec,
          !Z.shiftl_spec, !testbit_255 by lia.
        replace (t + 8 * b - 8 * b)%Z with t by lia.
        rewrite Z.mod_small by lia.
        destruct (Z.ltb_spec t 8) as [Hlt|Hge]; simpl.
        -- rewrite andb_false_r, andb_true_r. reflexivity.
        -- rewrite andb_false_r. symmetry.
           apply (in_range_bits_high (n := 8)); [lia| |lia].
           change (2 ^ 8)%Z with 256%Z. lia.
      * (* another byte of the same word *)
        assert (a <> b) as Hab by (subst a b; intros E; apply Hne; nia).
        rewrite nth_bits by (rewrite <- Hq in *; apply Hdiv, Hj).
        rewrite Hq. fold w a.
        apply Z.bits_inj'. intros t Ht.
        rewrite !Z.land_spec, !Z.shiftr_spec, Z.lor_spec, Z.land_spec, Z.lnot_spec,
          !Z.shiftl_spec by lia.
        rewrite !(@testbit_255 t Ht).
        destruct (Z.ltb_spec t 8) as [Hlt|Hge]; [|rewrite !andb_false_r; reflexivity].
        rewrite !andb_true_r.
        assert (Z.testbit 255 (t + 8 * a - 8 * b) = false) as E1.
        { destruct (Z.lt_ge_cases (t + 8 * a - 8 * b) 0).
          - apply Z.testbit_neg_r. lia.
          - rewrite testbit_255 by lia. apply Z.ltb_ge. lia. }
        assert (Z.testbit (v mod 256) (t + 8 * a - 8 * b) = false) as E2.
        { destruct (Z.lt_ge_cases (t + 8 * a - 8 * b) 0).
          - apply Z.testbit_neg_r. lia.
          - apply (in_range_bits_high (n := 8)); [lia| |lia].
            change (2 ^ 8)%Z with 256%Z. apply Z.mod_pos_bound. lia. }
        rewrite E1, E2. simpl. rewrite andb_true_r, orb_false_r. reflexivity.
    + destruct (Nat.eqb_spec j k) as [->|Hne]; [contradiction|].
      rewrite nth_bits by (apply Hdiv, Hj). reflexivity.
Qed.

End ByteWrite.

(** ** Bit scanning does not depend on the scanned width *)

Lemma ffs_index_width (n m : nat) (w : Z) :
  n <= m -> m <= 64 -> (0 <= w < 2 ^ Z.of_nat n)%Z -> w <> 0%Z ->
  ffs_index n w = ffs_index m w.
Proof.
  intros Hnm Hm Hw Hne.
  assert (0 <= w < 2 ^ Z.of_nat m)%Z as Hw'.
  { split; [lia|]. apply Z.lt_le_trans with (2 ^ Z.of_nat n)%Z; [lia|].
    apply Z.pow_le_mono_r; lia. }
  destruct (@ffs_index_spec n w ltac:(lia) Hw Hne) as (_ & Hs1 & Hl1).
  destruct (@ffs_index_spec m w Hm Hw' Hne) as (_ & Hs2 & Hl2).
  destruct (Nat.lt_trichotomy (ffs_index n w) (ffs_index m w)) as [H|[H|H]].
  - rewrite (Hl2 _ H) in Hs1. discriminate.
  - exact H.
  - rewrite (Hl1 _ H) in Hs2. discriminate.
Qed.

(** ** Scenarios of the test program *)

(** [compact_bitset<20>] parsed from the stream ["01010100110"]. *)
Example stream_parse_20 :
  to_string U32 20
    (snd (operator_extract U32 20
            (mkIstream (list_ascii_of_string "01010100110") false false false)
            (ctor_default U32 20)))
    "0"%char "1"%char
  = list_ascii_of_string "01010100110000000000".
Proof. reflexivity. Qed.

(** [compact_bitset<20>] constructed from the string ["01010100110"]. *)
Example string_parse_20 :
  ctor_string U32 20 (list_ascii_of_string "01010100110") 0 (2 ^ 64 - 1) "0"%char "1"%char
  = Ok (snd (operator_extract U32 20
               (mkIstream (list_ascii_of_string "01010100110") false false false)
               (ctor_default U32 20))).
Proof. reflexivity. Qed.

(** [compact_bitset<8>(0b10110000).to_ulong() == 176]. *)
Example integer_round_trip_8 :
  to_ulong U8 8 64 (ctor_ull U8 8 176) = Ok 176%Z /\
  to_ullong U8 8 (ctor_ull U8 8 176) = Ok 176%Z.
Proof. split; vm_compute; reflexivity. Qed.

(** [x << 2], [x >> 2] and the saturated shifts of a
    [compact_bitset<11>] holding the bits 0, 1 and 10, computed into a
    result whose storage held all ones. *)
Example shifts_11 :
  operator_shl U16 11 [65535%Z] [1027%Z] 2 = [12%Z] /\
  operator_shr U16 11 [65535%Z] [1027%Z] 2 = [256%Z] /\
  operator_shl U16 11 [65535%Z] [1027%Z] 11 = [0%Z] /\
  operator_shr U16 11 [65535%Z] [1027%Z] 100 = [0%Z].
Proof. repeat split; reflexivity. Qed.

(** ** Construction from an integer *)

Section FromInteger.

Variable T : WordTy.
Variable N : nat.

Lemma ctor_ull_loop_spec (fuel : nat) (val : Z) (d : DataArray) :
  (0 <= val < 2 ^ 64)%Z -> wf T N d ->
  (forall k, k + fuel < 64 -> Z.testbit val (Z.of_nat k) = false) ->
  wf T N (ctor_ull_loop T N fuel val d) /\
  forall p, raw_bit T (ctor_ull_loop T N fuel val d) p
            = raw_bit T d p || ((p <? N) && Z.testbit val (Z.of_nat p)).
Proof.
  revert val d. induction fuel as [|fuel IH]; intros val d Hval Hd Hlow.
  - assert (val = 0%Z) as ->.
    { apply bits_inj_nat. intros k. rewrite Z.bits_0.
      destruct (Nat.lt_ge_cases k 64).
      - apply Hlow. lia.
      - apply (in_range_bits_high (n := 64)); lia. }
    simpl. split; [exact Hd|]. intros p.
    rewrite Z.bits_0, andb_false_r, orb_false_r. reflexivity.
  - simpl. destruct (Z.eqb_spec val 0) as [->|Hne].
    + split; [exact Hd|]. intros p.
      rewrite Z.bits_0, andb_false_r, orb_false_r. reflexivity.
    + destruct (@ffs_index_spec 64 val (le_n _) Hval Hne) as (Hb & Hset & Hlowest).
      set (b := ffs_index 64 val) in *.
      destruct ((N <? 64) && (N <=? b)) eqn:Hbrk.
      * (* the lowest remaining bit cannot be stored: neither can the others *)
        apply andb_true_iff in Hbrk. destruct Hbrk as [_ HNb]. apply Nat.leb_le in HNb.
        split; [exact Hd|]. intros p.
        destruct (Nat.ltb_spec p N) as [Hp|Hp]; simpl; [|rewrite orb_false_r; reflexivity].
        rewrite Hlowest by lia. rewrite orb_false_r. reflexivity.
      * assert (b < N) as HbN.
        { apply andb_false_iff in Hbrk. destruct Hbrk as [H|H].
          - apply Nat.ltb_ge in H. lia.
          - apply Nat.leb_gt in H. exact H. }
        destruct (IH _ _ (@clear_bit_range 64 val b ltac:(lia) Hval)
                    (wf_index_assign b true Hd)) as [Hwf Hbits].
        { intros k Hk. rewrite testbit_clear_bit by lia.
          destruct (Nat.eq_dec k b) as [->|Hkb].
          - rewrite Z.eqb_refl, andb_false_r. reflexivity.
          - rewrite Hlowest; [reflexivity|].
            destruct (Nat.lt_ge_cases k b) as [|Hge]; [assumption|].
            assert (b + Datatypes.S fuel < 64) as Hlt by lia.
            rewrite (Hlow b Hlt) in Hset. discriminate. }
        split; [exact Hwf|]. intros p. rewrite Hbits.
        rewrite raw_bit_index_assign by (apply (word_of_pos_lt Hd HbN)).
        rewrite testbit_clear_bit by lia.
        destruct (Nat.eqb_spec p b) as [->|Hpb].
        -- rewrite Hset. replace (b <? N) with true by (symmetry; apply Nat.ltb_lt; exact HbN).
           simpl. rewrite orb_true_r. reflexivity.
        -- replace (Z.of_nat p =? Z.of_nat b)%Z with false by (symmetry; apply Z.eqb_neq; lia).
           rewrite andb_true_r. reflexivity.
Qed.

(** [compact_bitset(val)]: bit [p] is bit [p] of [val] for [p < N];
    the bits of [val] at [N] and above are dropped. *)
Lemma ctor_ull_spec (val : Z) :
  (0 <= val < 2 ^ 64)%Z ->
  wf T N (ctor_ull T N val) /\
  forall p, raw_bit T (ctor_ull T N val) p = (p <? N) && Z.testbit val (Z.of_nat p).
Proof.
  intros Hval. unfold ctor_ull.
  destruct (@ctor_ull_loop_spec 64 val (ctor_default T N) Hval (wf_ctor_default T N))
    as [Hwf Hbits]; [intros k Hk; lia|].
  split; [exact Hwf|]. intros p. rewrite Hbits, raw_bit_ctor_default. reflexivity.
Qed.

End FromInteger.

(** ** The copy loop of the left shift *)

Lemma for_range_cons (S : Type) (lo hi : nat) (body : nat -> S -> S) (s : S) :
  lo < hi -> for_range lo hi body s = for_range (lo + 1) hi body (body lo s).
Proof.
  intros H. unfold for_range.
  replace (hi - lo) with (Datatypes.S (hi - (lo + 1))) by lia.
  simpl. replace (lo + 1) with (Datatypes.S lo) by lia. reflexivity.
Qed.

(** With [N] and [shift] values of [std::size_t], the loop written
    with the 64-bit sum is the counting loop over [0, N - shift). *)
Lemma shl_copy_loop_for_range (T : WordTy) (N fuel i shift : nat)
    (this ret : DataArray) :
  (Z.of_nat N < 2 ^ 64)%Z -> (Z.of_nat shift < 2 ^ 64)%Z ->
  i = 0 \/ i + shift <= N -> N <= i + fuel ->
  shl_copy_loop T N fuel i shift this ret
  = for_range i (N - shift)
      (fun i ret => index_assign T ret (i + shift) (index T this i)) ret.
Proof.
  intros HN Hs. revert i ret. induction fuel as [|fuel IH]; intros i ret Hi Hfuel; simpl.
  - rewrite for_range_empty by lia. reflexivity.
  - assert (size_add i shift = i + shift) as ->.
    { unfold size_add. rewrite Z.mod_small by lia. lia. }
    destruct (Nat.ltb_spec (i + shift) N) as [Hlt|Hge].
    + rewrite IH by lia. rewrite (for_range_cons (lo := i)) by lia. reflexivity.
    + rewrite for_range_empty by lia. reflexivity.
Qed.

(** * The claims *)

(** Closing a well-formedness goal on a concrete array. *)
Ltac solve_wf :=
  split; [reflexivity | repeat constructor; vm_compute; try discriminate; reflexivity].

(** C1.  Unused-bit invariant: whatever the capacity [N] and the word
    type, every bitset built by a sequence of the documented operations
    (default, integer and string construction, copy, checked
    single-bit and bulk set/reset/flip, binary and compound AND/OR/XOR,
    NOT, both shifts, stream extraction, and [operator[]] below [N])
    has a well-formed backing array of [bits_size()] bytes in which
    every bit at a position [>= N] of the raw byte view [bits()] is
    0. *)
Theorem C1_unused_bit_invariant (T : WordTy) (N : nat) (x : DataArray) :
  reachable T N x ->
  wf T N x /\
  length (bits T x) = NWords T N * sizeof T /\
  forall p, N <= p -> byte_bit (bits T x) p = false.
Proof.
  intros H. destruct (reachable_invariant H) as [Hwf Hzero].
  split; [exact Hwf|]. split; [|exact Hzero].
  rewrite bits_length. unfold bits_size. rewrite (wf_length Hwf). reflexivity.
Qed.

Lemma C1_unused_bit_invariant_witness :
  reachable U16 11 (flip_all U16 11 (ctor_default U16 11)) /\
  (wf U16 11 (flip_all U16 11 (ctor_default U16 11)) /\
   length (bits U16 (flip_all U16 11 (ctor_default U16 11))) = NWords U16 11 * sizeof U16 /\
   forall p, 11 <= p -> byte_bit (bits U16 (flip_all U16 11 (ctor_default U16 11))) p = false).
Proof.
  assert (reachable U16 11 (flip_all U16 11 (ctor_default U16 11))) as H
    by (apply R_flip_all, R_default).
  split; [exact H|exact (C1_unused_bit_invariant H)].
Defined.

(** C2.  The substring constructor at [N = 4], [str = "1111"],
    [pos = 1], [n = 2]: the claim has [c = min(2, 4, 3) = 2] characters
    copied, so bit 1 would be [str[2] == '1']; the constructor stops at
    the index [min(n, size) = 2] and copies [str[1]] alone, leaving
    bit 1 clear. *)
Theorem C2_ctor_string_stops_at_index_n :
  ctor_string U8 4 (list_ascii_of_string "1111") 1 2 "0"%char "1"%char = Ok [1%Z] /\
  Nat.min 2 (Nat.min 4 (length (list_ascii_of_string "1111") - 1)) = 2 /\
  Ascii.eqb (nth (1 + 1) (list_ascii_of_string "1111") Ascii.zero) "1"%char = true /\
  index U8 [1%Z] 1 = false.
Proof. repeat split; reflexivity. Qed.

(** C3.  Stream extraction on a stream whose [eofbit] is already set
    takes no character and leaves every state bit as it was, so
    [failbit] is not raised although [N > 0] and nothing was consumed.
    With [N = 20] and the input ["0101"]: the first extraction reads
    four characters and meets the end of input ([eofbit], no
    [failbit]); the second one consumes nothing, resets the target and
    still does not set [failbit]. *)
Theorem C3_extract_at_eof_sets_no_failbit :
  (forall T N b fl bd x,
     operator_extract T N (mkIstream b true fl bd) x
     = (mkIstream b true fl bd, reset_all T N x)) /\
  operator_extract U32 20
    (mkIstream (list_ascii_of_string "0101") false false false) (ctor_default U32 20)
  = (mkIstream [] true false false, [10%Z]) /\
  operator_extract U32 20 (mkIstream [] true false false) [10%Z]
  = (mkIstream [] true false false, [0%Z]) /\
  consumed (mkIstream [] true false false)
    (fst (operator_extract U32 20 (mkIstream [] true false false) [10%Z])) = 0 /\
  failbit (fst (operator_extract U32 20 (mkIstream [] true false false) [10%Z])) = false.
Proof.
  split.
  - intros T N b fl bd x. apply operator_extract_not_good. reflexivity.
  - repeat split; reflexivity.
Qed.

(** C4.  Shifts, for every capacity, operand [x] and shift amount [s],
    whatever the uninitialized result [g] held: bit [i < N] of
    [x << s] is bit [i - s] of [x] when [i >= s] and 0 otherwise; bit
    [i < N] of [x >> s] is bit [i + s] of [x] when [i + s < N] and 0
    otherwise; for [s >= N] both results are the all-zero bitset. *)
Theorem C4_shift_semantics (T : WordTy) (N : nat) (g x : DataArray) (s : nat) :
  wf T N g ->
  (forall i, i < N ->
     index T (operator_shl T N g x s) i = if s <=? i then index T x (i - s) else false) /\
  (forall i, i < N ->
     index T (operator_shr T N g x s) i = if i + s <? N then index T x (i + s) else false) /\
  (N <= s ->
     operator_shl T N g x s = ctor_default T N /\
     operator_shr T N g x s = ctor_default T N).
Proof.
  intros Hg.
  destruct (operator_shl_spec x s Hg) as [Hwl Hbl].
  destruct (operator_shr_spec x s Hg) as [Hwr Hbr].
  split; [|split].
  - intros i Hi. rewrite !index_raw_bit, Hbl.
    replace (i <? N) with true by (symmetry; apply Nat.ltb_lt; exact Hi).
    destruct (s <=? i); reflexivity.
  - intros i Hi. rewrite !index_raw_bit, Hbr.
    destruct (i + s <? N); reflexivity.
  - intros Hs. split.
    + apply (wf_ext Hwl (wf_ctor_default T N)). intros p _.
      rewrite Hbl, raw_bit_ctor_default.
      destruct (Nat.ltb_spec p N), (Nat.leb_spec s p); simpl; auto; lia.
    + apply (wf_ext Hwr (wf_ctor_default T N)). intros p _.
      rewrite Hbr, raw_bit_ctor_default.
      destruct (Nat.ltb_spec (p + s) N); simpl; auto; lia.
Qed.

Lemma C4_shift_semantics_witness :
  wf U16 11 [65535%Z] /\
  ((forall i, i < 11 ->
      index U16 (operator_shl U16 11 [65535%Z] [1027%Z] 2) i
      = if 2 <=? i then index U16 [1027%Z] (i - 2) else false) /\
   (forall i, i < 11 ->
      index U16 (operator_shr U16 11 [65535%Z] [1027%Z] 2) i
      = if i + 2 <? 11 then index U16 [1027%Z] (i + 2) else false) /\
   (11 <= 2 ->
      operator_shl U16 11 [65535%Z] [1027%Z] 2 = ctor_default U16 11 /\
      operator_shr U16 11 [65535%Z] [1027%Z] 2 = ctor_default U16 11)).
Proof.
  assert (wf U16 11 [65535%Z]) as H by solve_wf.
  split; [exact H|exact (C4_shift_semantics [1027%Z] 2 H)].
Defined.

(** C5.  [to_ullong()] throws [std::overflow_error] exactly when
    [N > 64] and otherwise returns the little-endian value, the sum
    over [i < N] of [bit(i) * 2^i]; [to_ulong()] does the same with the
    width [LBits] of [unsigned long].  So [N = 65] overflows on the
    64-bit conversion and [N = 64] returns the exact bit pattern. *)
Theorem C5_integer_conversion (T : WordTy) (N : nat) (x : DataArray) :
  wf T N x ->
  (to_ullong T N x = Err Overflow <-> 64 < N) /\
  (N <= 64 -> to_ullong T N x = Ok (bits_value T x N)) /\
  (forall LBits,
     (to_ulong T N LBits x = Err Overflow <-> LBits < N) /\
     (N <= LBits -> to_ulong T N LBits x = Ok (bits_value T x N))).
Proof.
  intros Hx. destruct (to_ullong_spec Hx) as [H1 H2].
  split; [exact H1|]. split; [exact H2|].
  intros LBits. apply (to_ulong_spec LBits Hx).
Qed.

Lemma C5_integer_conversion_witness :
  wf U64 64 [16045690984833335023%Z] /\
  ((to_ullong U64 64 [16045690984833335023%Z] = Err Overflow <-> 64 < 64) /\
   (64 <= 64 ->
      to_ullong U64 64 [16045690984833335023%Z]
      = Ok (bits_value U64 [16045690984833335023%Z] 64)) /\
   (forall LBits,
      (to_ulong U64 64 LBits [16045690984833335023%Z] = Err Overflow <-> LBits < 64) /\
      (64 <= LBits ->
         to_ulong U64 64 LBits [16045690984833335023%Z]
         = Ok (bits_value U64 [16045690984833335023%Z] 64)))).
Proof.
  assert (wf U64 64 [16045690984833335023%Z]) as H by solve_wf.
  split; [exact H|exact (C5_integer_conversion H)].
Defined.

(** The overflow boundary on concrete bitsets: capacity 65 overflows,
    capacity 64 returns the stored word. *)
Example to_ullong_boundary :
  to_ullong U64 65 [16045690984833335023%Z; 1%Z] = Err Overflow /\
  to_ullong U64 64 [16045690984833335023%Z] = Ok 16045690984833335023%Z /\
  bits_value U64 [16045690984833335023%Z] 64 = 16045690984833335023%Z.
Proof. repeat split; vm_compute; reflexivity. Qed.

(** C6, as stated.  A byte stored through the non-const [bits()]
    pointer can set an unused bit: for [N = 11] the default bitset and
    the one obtained from it by writing [0x10] into byte 1 compare
    equal under [operator==], which masks the last word, and hash
    differently, since [hash_code] folds the raw bytes. *)
Lemma C6_counterexample :
  ~ (forall T N x y,
       api_reachable T N x -> api_reachable T N y ->
       operator_eq T N x y = true -> hash_code T x = hash_code T y).
Proof.
  intros H.
  assert (api_reachable U16 11 (ctor_default U16 11)) as Hx
    by (apply A_reachable, R_default).
  assert (api_reachable U16 11 (bits_write U16 (ctor_default U16 11) 1 16)) as Hy.
  { apply A_bits_write; [exact Hx| |].
    - vm_compute. repeat constructor.
    - split; [discriminate|reflexivity]. }
  specialize (H U16 11 _ _ Hx Hy eq_refl). vm_compute in H. discriminate H.
Qed.

(** C6, amended.  Hash consistency under the unused-bit invariant: two
    well-formed bitsets of the same capacity whose unused bits are 0
    and that compare equal have the same hash code.  By
    [reachable_invariant] this covers every bitset built by the
    constructors and the documented operations. *)
Theorem C6_hash_consistency (T : WordTy) (N : nat) (x y : DataArray) :
  invariant T N x -> invariant T N y ->
  operator_eq T N x y = true -> hash_code T x = hash_code T y.
Proof.
  intros Hx Hy Heq. rewrite (operator_eq_data Hx Hy Heq). reflexivity.
Qed.

Lemma C6_hash_consistency_witness :
  invariant U16 11 (ctor_ull U16 11 1027) /\
  invariant U16 11 (flip_all U16 11 (ctor_ull U16 11 1020)) /\
  operator_eq U16 11 (ctor_ull U16 11 1027) (flip_all U16 11 (ctor_ull U16 11 1020)) = true /\
  hash_code U16 (ctor_ull U16 11 1027) = hash_code U16 (flip_all U16 11 (ctor_ull U16 11 1020)).
Proof.
  assert (reachable U16 11 (ctor_ull U16 11 1027)) as Rx
    by (apply R_ull; split; [discriminate|reflexivity]).
  assert (reachable U16 11 (flip_all U16 11 (ctor_ull U16 11 1020))) as Ry
    by (apply R_flip_all, R_ull; split; [discriminate|reflexivity]).
  pose proof (reachable_invariant Rx) as Hx.
  pose proof (reachable_invariant Ry) as Hy.
  split; [exact Hx|]. split; [exact Hy|]. split; [reflexivity|].
  exact (C6_hash_consistency Hx Hy eq_refl).
Defined.

(** C7, as stated.  For [N = 11], after [set(10)] and [set(0)],
    [to_string()] is not ["10000000011"]. *)
Lemma C7_counterexample :
  ~ (exists x1 x2,
       set_pos (default_T 11) 11 (ctor_default (default_T 11) 11) 10 true = Ok x1 /\
       set_pos (default_T 11) 11 x1 0 true = Ok x2 /\
       to_string (default_T 11) 11 x2 "0"%char "1"%char
       = list_ascii_of_string "10000000011").
Proof.
  intros (x1 & x2 & H1 & H2 & H3).
  vm_compute in H1. injection H1 as <-.
  vm_compute in H2. injection H2 as <-.
  vm_compute in H3. discriminate H3.
Qed.

(** C7, amended.  [to_string(zero, one)] has exactly [N] characters,
    the one at position [i] being [one] when bit [i] is set and [zero]
    otherwise; for [N = 11], after [set(10)] and [set(0)],
    [to_string()] is ["10000000001"]. *)
Theorem C7_to_string (T : WordTy) (N : nat) (x : DataArray) (zero one : ascii) :
  length (to_string T N x zero one) = N /\
  to_string T N x zero one = map (fun i => if index T x i then one else zero) (seq 0 N) /\
  exists x1 x2,
    set_pos (default_T 11) 11 (ctor_default (default_T 11) 11) 10 true = Ok x1 /\
    set_pos (default_T 11) 11 x1 0 true = Ok x2 /\
    to_string (default_T 11) 11 x2 "0"%char "1"%char
    = list_ascii_of_string "10000000001".
Proof.
  split; [|split].
  - rewrite to_string_spec, length_map, length_seq. reflexivity.
  - apply to_string_spec.
  - exists [1024%Z], [1025%Z]. repeat split; reflexivity.
Qed.

(** C8.  Zero capacity: [all()] is true, [any()] false, [none()] true
    and [count()] 0, for every word type and every array content. *)
Theorem C8_zero_capacity (T : WordTy) (x : DataArray) :
  all T 0 x = true /\ any T 0 x = false /\ none T 0 x = true /\ count T 0 x = 0.
Proof. destruct T; repeat split; reflexivity. Qed.

(** C9.  The guard of the string constructor is
    [pos >= str.size() && N]: with [N > 0] it raises [OutOfRange] at a
    starting position equal to the length of the string, which is not
    beyond it (the message of the exception is "Specified string is
    shorter than pos", and [std::bitset] accepts that position and
    builds the all-zero bitset).  So the string ["0101"] at [pos = 4]
    and the empty string at [pos = 0] are refused.  Everywhere else the
    claim holds: [OutOfRange] is raised exactly when the guard is
    true, hence for every [pos] beyond the length when [N > 0], for
    no [pos] inside the string, and never for [N = 0]. *)
Theorem C9_out_of_range_at_string_end :
  (forall T N str n zero one,
     ctor_string T (Datatypes.S N) str (length str) n zero one = Err OutOfRange) /\
  ctor_string U8 4 (list_ascii_of_string "0101") 4 4 "0"%char "1"%char
  = Err OutOfRange /\
  ctor_string U8 1 [] 0 0 "0"%char "1"%char = Err OutOfRange /\
  (forall T N str pos n zero one,
     ctor_string T N str pos n zero one = Err OutOfRange
     <-> length str <= pos /\ N <> 0) /\
  (forall T str pos n zero one,
     ctor_string T 0 str pos n zero one <> Err OutOfRange).
Proof.
  assert (forall T N str pos n zero one,
            ctor_string T N str pos n zero one = Err OutOfRange
            <-> length str <= pos /\ N <> 0) as Hiff
    by (intros; apply ctor_string_out_of_range).
  split; [|split; [|split; [|split]]].
  - intros T N str n zero one. apply Hiff. split; [apply le_n|discriminate].
  - reflexivity.
  - reflexivity.
  - exact Hiff.
  - intros T str pos n zero one H. apply Hiff in H. destruct H as [_ H].
    apply H. reflexivity.
Qed.

(** C10.  [operator==] depends only on the bits below [N]: on any two
    well-formed arrays, whatever their unused bits hold, it returns
    true exactly when the bitsets agree at every position [i < N]; for
    [N = 0] any two bitsets compare equal. *)
Theorem C10_equality_below_N (T : WordTy) (N : nat) (x y : DataArray) :
  wf T N x -> wf T N y ->
  (operator_eq T N x y = true <-> forall i, i < N -> index T x i = index T y i) /\
  (N = 0 -> operator_eq T N x y = true).
Proof.
  intros Hx Hy.
  assert (operator_eq T N x y = true <-> forall i, i < N -> index T x i = index T y i) as H.
  { rewrite (operator_eq_iff Hx Hy). split; intros H i Hi.
    - rewrite !index_raw_bit. apply H, Hi.
    - rewrite <- !index_raw_bit. apply H, Hi. }
  split; [exact H|]. intros HN. apply H. intros i Hi. lia.
Qed.

Lemma C10_equality_below_N_witness :
  wf U16 11 [1027%Z] /\
  wf U16 11 (bits_write U16 [1027%Z] 1 20) /\
  index U16 (bits_write U16 [1027%Z] 1 20) 12 = true /\
  ((operator_eq U16 11 [1027%Z] (bits_write U16 [1027%Z] 1 20) = true
    <-> forall i, i < 11 ->
          index U16 [1027%Z] i = index U16 (bits_write U16 [1027%Z] 1 20) i) /\
   (11 = 0 -> operator_eq U16 11 [1027%Z] (bits_write U16 [1027%Z] 1 20) = true)).
Proof.
  assert (wf U16 11 [1027%Z]) as Hx by solve_wf.
  assert (wf U16 11 (bits_write U16 [1027%Z] 1 20)) as Hy by solve_wf.
  split; [exact Hx|]. split; [exact Hy|]. split; [reflexivity|].
  exact (C10_equality_below_N Hx Hy).
Defined.

(** * Further properties *)

(** ** Counting *)

Lemma count_true_S (f : nat -> bool) (n : nat) :
  count_true f (Datatypes.S n) = count_true f n + (if f n then 1 else 0).
Proof.
  unfold count_true. rewrite seq_S, filter_app, length_app. simpl.
  destruct (f n); reflexivity.
Qed.

Lemma count_true_ext (f g : nat -> bool) (n : nat) :
  (forall k, k < n -> f k = g k) -> count_true f n = count_true g n.
Proof.
  intros H. induction n as [|n IH]; [reflexivity|].
  rewrite !count_true_S, IH, H by (intros; try apply H; lia). reflexivity.
Qed.

Lemma count_true_add (f : nat -> bool) (a b : nat) :
  count_true f (a + b) = count_true f a + count_true (fun k => f (a + k)) b.
Proof.
  induction b as [|b IH].
  - rewrite Nat.add_0_r. unfold count_true at 3. simpl. lia.
  - replace (a + Datatypes.S b) with (Datatypes.S (a + b)) by lia.
    rewrite !count_true_S, IH. lia.
Qed.

Lemma count_true_false (f : nat -> bool) (n : nat) :
  (forall k, k < n -> f k = false) -> count_true f n = 0.
Proof.
  intros H. induction n as [|n IH]; [reflexivity|].
  rewrite count_true_S, IH, H by (intros; try apply H; lia). reflexivity.
Qed.

Lemma count_true_true (f : nat -> bool) (n : nat) :
  (forall k, k < n -> f k = true) -> count_true f n = n.
Proof.
  intros H. induction n as [|n IH]; [reflexivity|].
  rewrite count_true_S, IH, H by (intros; try apply H; lia). lia.
Qed.

Lemma count_true_le (f : nat -> bool) (n : nat) : count_true f n <= n.
Proof.
  induction n as [|n IH]; [reflexivity|].
  rewrite count_true_S. destruct (f n); lia.
Qed.

Lemma count_true_negb (f : nat -> bool) (n : nat) :
  count_true f n + count_true (fun k => negb (f k)) n = n.
Proof.
  induction n as [|n IH]; [reflexivity|].
  rewrite !count_true_S. destruct (f n); simpl; lia.
Qed.

Lemma count_true_full (f : nat -> bool) (n : nat) :
  count_true f n = n -> forall k, k < n -> f k = true.
Proof.
  induction n as [|n IH]; intros H k Hk; [lia|].
  rewrite count_true_S in H. pose proof (count_true_le f n).
  destruct (f n) eqn:E; [|lia].
  destruct (Nat.eq_dec k n) as [->|Hne]; [exact E|].
  apply IH; lia.
Qed.

Lemma count_true_zero (f : nat -> bool) (n : nat) :
  count_true f n = 0 -> forall k, k < n -> f k = false.
Proof.
  induction n as [|n IH]; intros H k Hk; [lia|].
  rewrite count_true_S in H.
  destruct (f n) eqn:E; [lia|].
  destruct (Nat.eq_dec k n) as [->|Hne]; [exact E|].
  apply IH; lia.
Qed.

Lemma count_true_mask (f : nat -> bool) (r n : nat) :
  r <= n -> count_true (fun k => f k && (k <? r)) n = count_true f r.
Proof.
  intros H. replace n with (r + (n - r)) by lia.
  rewrite count_true_add, (count_true_false (fun k => f (r + k) && (r + k <? r))).
  - rewrite Nat.add_0_r. apply count_true_ext. intros k Hk.
    replace (k <? r) with true by (symmetry; apply Nat.ltb_lt; exact Hk).
    apply andb_true_r.
  - intros k _. replace (r + k <? r) with false by (symmetry; apply Nat.ltb_ge; lia).
    apply andb_false_r.
Qed.

(** A position where [f] holds can be found whenever [f] is not false
    everywhere below [n]. *)
Lemma bounded_search (f : nat -> bool) (n : nat) :
  (forall k, k < n -> f k = false) \/ (exists k, k < n /\ f k = true).
Proof.
  induction n as [|n [IH|(k & Hk & Hf)]].
  - left. intros k Hk. lia.
  - destruct (f n) eqn:E.
    + right. exists n. split; [lia|exact E].
    + left. intros k Hk. destruct (Nat.eq_dec k n) as [->|Hne]; [exact E|].
      apply IH. lia.
  - right. exists k. split; [lia|exact Hf].
Qed.

(** [get_popcount] counts the set bits among the low [nBits]. *)
Lemma get_popcount_spec (nBits : nat) (w : Z) :
  get_popcount nBits w = count_true (fun i => Z.testbit w (Z.of_nat i)) nBits.
Proof.
  unfold get_popcount.
  apply (for_range_ind
           (fun i acc => acc = count_true (fun i => Z.testbit w (Z.of_nat i)) i));
    [lia|reflexivity|].
  intros i acc _ ->. replace (i + 1) with (Datatypes.S i) by lia.
  rewrite count_true_S, bit_and_spec. destruct (Z.testbit w (Z.of_nat i)); lia.
Qed.

Section Counting.

Variable T : WordTy.
Variable N : nat.

(** [count()] is the number of set bits below [N], whatever the unused
    bits of the last word hold. *)
Lemma count_spec (x : DataArray) : count T N x = count_true (index T x) N.
Proof.
  unfold count.
  pose proof (N_split T N) as HN. pose proof (NBitsRem_lt T N) as HR.
  assert (count_true (index T x) N = count_true (raw_bit T x) N) as ->
    by (apply count_true_ext; intros; apply index_raw_bit).
  assert (for_range 0 (NFullyUsedWords T N)
            (fun i ret => ret + get_popcount (TBits T) (nth i x 0%Z)) 0
          = count_true (raw_bit T x) (TBits T * NFullyUsedWords T N)) as ->.
  { apply (for_range_ind
             (fun i acc => acc = count_true (raw_bit T x) (TBits T * i))); [lia| |].
    - rewrite Nat.mul_0_r. reflexivity.
    - intros i acc _ ->.
      replace (TBits T * (i + 1)) with (TBits T * i + TBits T) by lia.
      rewrite count_true_add, get_popcount_spec. f_equal.
      apply count_true_ext. intros k Hk. rewrite raw_bit_word by exact Hk. reflexivity. }
  rewrite LastWordMask_eqb_0.
  destruct (Nat.eqb_spec (NBitsRem T N) 0) as [Hz|Hz].
  - f_equal. lia.
  - rewrite last_word_index by lia. rewrite get_popcount_spec.
    replace (count_true (raw_bit T x) N)
      with (count_true (raw_bit T x) (TBits T * NFullyUsedWords T N + NBitsRem T N))
      by (f_equal; lia).
    rewrite count_true_add. f_equal.
    rewrite <- (count_true_mask (fun k => raw_bit T x (TBits T * NFullyUsedWords T N + k))
                  (r := NBitsRem T N) (n := TBits T)) by lia.
    apply count_true_ext. intros k Hk.
    rewrite Z.land_spec, testbit_LastWordMask, raw_bit_word by exact Hk. reflexivity.
Qed.

Lemma forallb_seq_ext (f g : nat -> bool) (n : nat) :
  (forall w, w < n -> f w = g w) -> forallb f (seq 0 n) = forallb g (seq 0 n).
Proof.
  intros H. destruct (forallb g (seq 0 n)) eqn:E.
  - apply forallb_seq_iff. intros w Hw. rewrite H by exact Hw.
    apply (proj1 (forallb_seq_iff g n) E w Hw).
  - destruct (forallb f (seq 0 n)) eqn:E'; [|reflexivity].
    rewrite <- E. symmetry. apply forallb_seq_iff. intros w Hw.
    rewrite <- H by exact Hw. apply (proj1 (forallb_seq_iff f n) E' w Hw).
Qed.

Lemma existsb_negb (A : Type) (f : A -> bool) (l : list A) :
  existsb (fun a => negb (f a)) l = negb (forallb f l).
Proof.
  induction l as [|a l IH]; [reflexivity|]. simpl. rewrite IH.
  destruct (f a); reflexivity.
Qed.

Lemma nth_ctor_default (w : nat) : nth w (ctor_default T N) 0%Z = 0%Z.
Proof. unfold ctor_default. apply nth_repeat. Qed.

(** [none()] compares with the all-zero bitset, [any()] is its
    negation. *)
Lemma none_eq_default (x : DataArray) :
  none T N x = operator_eq T N x (ctor_default T N).
Proof.
  unfold none, any, operator_eq. rewrite existsb_negb, negb_orb, negb_involutive.
  f_equal.
  - apply forallb_seq_ext. intros w _. rewrite nth_ctor_default. reflexivity.
  - destruct (LastWordMask T N =? 0)%Z; [reflexivity|].
    rewrite nth_ctor_default, Z.land_0_l, negb_involutive. reflexivity.
Qed.

Lemma none_spec (x : DataArray) :
  wf T N x -> (none T N x = true <-> forall i, i < N -> index T x i = false).
Proof.
  intros Hx. rewrite none_eq_default, (operator_eq_iff Hx (wf_ctor_default T N)).
  split; intros H i Hi.
  - rewrite index_raw_bit, H by exact Hi. apply raw_bit_ctor_default.
  - rewrite <- index_raw_bit, H by exact Hi. symmetry. apply raw_bit_ctor_default.
Qed.

Lemma any_spec (x : DataArray) :
  wf T N x -> (any T N x = true <-> exists i, i < N /\ index T x i = true).
Proof.
  intros Hx. pose proof (none_spec Hx) as Hnone. unfold none in Hnone.
  split.
  - intros Ha. destruct (bounded_search (index T x) N) as [Hall|Hex]; [|exact Hex].
    apply Hnone in Hall. rewrite Ha in Hall. discriminate.
  - intros (i & Hi & Hb). destruct (any T N x) eqn:E; [reflexivity|].
    rewrite (proj1 Hnone eq_refl i Hi) in Hb. discriminate.
Qed.

Lemma all_spec (x : DataArray) :
  wf T N x -> (all T N x = true <-> forall i, i < N -> index T x i = true).
Proof.
  intros Hx. unfold all.
  rewrite andb_true_iff, forallb_seq_iff, LastWordMask_eqb_0.
  pose proof (NBitsRem_lt T N) as HR. pose proof (N_split T N) as HN.
  split.
  - intros [Hfull Hlast] p Hp. rewrite index_raw_bit.
    destruct (pos_split T p) as [Hp1 Hp2].
    apply (lt_N_iff T N) in Hp. unfold raw_bit.
    destruct Hp as [Hq|[Hq Hr]].
    + apply Hfull in Hq. apply Z.eqb_eq in Hq. rewrite Hq, testbit_AllMask.
      apply Nat.ltb_lt. exact Hp2.
    + destruct (Nat.eqb_spec (NBitsRem T N) 0) as [|_]; [lia|].
      apply Z.eqb_eq in Hlast.
      apply (f_equal (fun z => Z.testbit z (Z.of_nat (p mod TBits T)))) in Hlast.
      rewrite Z.land_spec, testbit_LastWordMask in Hlast.
      replace (p mod TBits T <? NBitsRem T N) with true in Hlast
        by (symmetry; apply Nat.ltb_lt; exact Hr).
      rewrite andb_true_r in Hlast. rewrite Hq. exact Hlast.
  - intros H. split.
    + intros w Hw. apply Z.eqb_eq.
      apply (in_range_ext (n := Z.of_nat (TBits T)));
        [lia|apply (wf_nth _ Hx)|apply wrap_range|].
      intros k Hk. replace k with (Z.of_nat (Z.to_nat k)) by lia.
      rewrite testbit_AllMask, <- (@raw_bit_word T) by lia.
      rewrite <- index_raw_bit, H by nia.
      symmetry. apply Nat.ltb_lt. lia.
    + destruct (Nat.eqb_spec (NBitsRem T N) 0) as [|Hne]; [reflexivity|].
      apply Z.eqb_eq, Z.bits_inj'. intros k Hk.
      replace k with (Z.of_nat (Z.to_nat k)) by lia.
      rewrite Z.land_spec, testbit_LastWordMask.
      destruct (Nat.ltb_spec (Z.to_nat k) (NBitsRem T N)) as [Hlt|Hge];
        [|apply andb_false_r].
      rewrite andb_true_r, <- (@raw_bit_word T) by lia.
      rewrite <- index_raw_bit. apply H. lia.
Qed.

End Counting.

(** ** Algebra of the bulk operations *)

Section Algebra.

Variable T : WordTy.
Variable N : nat.

Lemma invariant_raw_bit (x : DataArray) (p : nat) :
  invariant T N x -> raw_bit T x p = (p <? N) && raw_bit T x p.
Proof.
  intros Hx. apply invariant_iff in Hx. destruct Hx as [_ Hz].
  destruct (Nat.ltb_spec p N); [reflexivity|]. apply Hz. assumption.
Qed.

Lemma raw_bit_set_all (x : DataArray) (p : nat) :
  wf T N x -> raw_bit T (set_all T N x) p = (p <? N).
Proof. intros Hx. apply (proj2 (set_all_spec Hx)). Qed.

Lemma raw_bit_flip_all (x : DataArray) (p : nat) :
  wf T N x -> raw_bit T (flip_all T N x) p = (p <? N) && negb (raw_bit T x p).
Proof. intros Hx. apply (proj2 (flip_all_spec Hx)). Qed.

Lemma wf_flip_all (x : DataArray) : wf T N x -> wf T N (flip_all T N x).
Proof. intros Hx. apply (proj1 (flip_all_spec Hx)). Qed.

Lemma wf_set_all (x : DataArray) : wf T N x -> wf T N (set_all T N x).
Proof. intros Hx. apply (proj1 (set_all_spec Hx)). Qed.

Lemma wf_bitwise (op : bool -> bool -> bool) (g x y : DataArray) :
  wf T N g -> wf T N (bitwise T N op g x y).
Proof. intros Hg. apply (proj1 (bitwise_spec op x y Hg)). Qed.

Lemma raw_bit_bitwise (op : bool -> bool -> bool) (g x y : DataArray) (p : nat) :
  wf T N g ->
  raw_bit T (bitwise T N op g x y) p = (p <? N) && op (raw_bit T x p) (raw_bit T y p).
Proof. intros Hg. apply (proj2 (bitwise_spec op x y Hg)). Qed.

(** Two flips restore a bitset that satisfies the invariant. *)
Lemma flip_all_involutive (x : DataArray) :
  invariant T N x -> flip_all T N (flip_all T N x) = x.
Proof.
  intros Hx. pose proof (invariant_wf Hx) as Hwf.
  apply (wf_ext (wf_flip_all (wf_flip_all Hwf)) Hwf). intros p _.
  rewrite !raw_bit_flip_all by (try apply wf_flip_all; exact Hwf).
  rewrite (invariant_raw_bit p Hx) at 2.
  destruct (p <? N), (raw_bit T x p); reflexivity.
Qed.

(** [operator~] is [flip()] on a copy. *)
Lemma operator_not_flip (g g' x : DataArray) :
  wf T N g -> wf T N g' -> wf T N x -> operator_not T N g g' x = flip_all T N x.
Proof.
  intros Hg Hg' Hx. unfold operator_not, copy_ctor.
  rewrite (copy_assign_wf Hg Hx).
  apply (copy_assign_wf Hg' (wf_flip_all Hx)).
Qed.

(** The result of a binary operator does not depend on what the
    uninitialized result object held. *)
Lemma bitwise_garbage (op : bool -> bool -> bool) (g g' x y : DataArray) :
  wf T N g -> wf T N g' -> bitwise T N op g x y = bitwise T N op g' x y.
Proof.
  intros Hg Hg'. apply (wf_ext (wf_bitwise op x y Hg) (wf_bitwise op x y Hg')).
  intros p _. rewrite !raw_bit_bitwise by assumption. reflexivity.
Qed.

(** A binary operator sees only the bits below [N] of its operands. *)
Lemma bitwise_ext (op : bool -> bool -> bool) (g x y x' y' : DataArray) :
  wf T N g ->
  (forall p, p < N -> raw_bit T x p = raw_bit T x' p) ->
  (forall p, p < N -> raw_bit T y p = raw_bit T y' p) ->
  bitwise T N op g x y = bitwise T N op g x' y'.
Proof.
  intros Hg Hx Hy. apply (wf_ext (wf_bitwise op x y Hg) (wf_bitwise op x' y' Hg)).
  intros p _. rewrite !raw_bit_bitwise by assumption.
  destruct (Nat.ltb_spec p N) as [Hp|Hp]; [|reflexivity].
  rewrite Hx, Hy by exact Hp. reflexivity.
Qed.

Lemma operator_xor_self (g x : DataArray) :
  wf T N g -> operator_xor T N g x x = ctor_default T N.
Proof.
  intros Hg. unfold operator_xor.
  apply (wf_ext (wf_bitwise xorb x x Hg) (wf_ctor_default T N)). intros p _.
  rewrite raw_bit_bitwise, raw_bit_ctor_default, xorb_nilpotent by assumption.
  apply andb_false_r.
Qed.

Lemma operator_and_not (g g1 g2 x : DataArray) :
  wf T N g -> wf T N g1 -> wf T N g2 -> wf T N x ->
  operator_and T N g x (operator_not T N g1 g2 x) = ctor_default T N.
Proof.
  intros Hg Hg1 Hg2 Hx. rewrite (operator_not_flip Hg1 Hg2 Hx). unfold operator_and.
  apply (wf_ext (wf_bitwise andb x _ Hg) (wf_ctor_default T N)). intros p _.
  rewrite raw_bit_bitwise, raw_bit_flip_all, raw_bit_ctor_default by assumption.
  destruct (p <? N), (raw_bit T x p); reflexivity.
Qed.

Lemma operator_or_not (g g1 g2 x y : DataArray) :
  wf T N g -> wf T N g1 -> wf T N g2 -> wf T N x -> wf T N y ->
  operator_or T N g x (operator_not T N g1 g2 x) = set_all T N y.
Proof.
  intros Hg Hg1 Hg2 Hx Hy. rewrite (operator_not_flip Hg1 Hg2 Hx). unfold operator_or.
  apply (wf_ext (wf_bitwise orb x _ Hg) (wf_set_all Hy)). intros p _.
  rewrite raw_bit_bitwise, raw_bit_flip_all, raw_bit_set_all by assumption.
  destruct (p <? N), (raw_bit T x p); reflexivity.
Qed.

(** De Morgan: [~(x & y) = ~x | ~y] and [~(x | y) = ~x & ~y]. *)
Lemma de_morgan (g x y : DataArray) :
  wf T N g -> wf T N x -> wf T N y ->
  flip_all T N (operator_and T N g x y)
  = operator_or T N g (flip_all T N x) (flip_all T N y) /\
  flip_all T N (operator_or T N g x y)
  = operator_and T N g (flip_all T N x) (flip_all T N y).
Proof.
  intros Hg Hx Hy. unfold operator_and, operator_or. split.
  - apply (wf_ext (wf_flip_all (wf_bitwise andb x y Hg)) (wf_bitwise orb _ _ Hg)).
    intros p _.
    rewrite raw_bit_flip_all, !raw_bit_bitwise, !raw_bit_flip_all
      by (try apply wf_bitwise; assumption).
    destruct (p <? N), (raw_bit T x p), (raw_bit T y p); reflexivity.
  - apply (wf_ext (wf_flip_all (wf_bitwise orb x y Hg)) (wf_bitwise andb _ _ Hg)).
    intros p _.
    rewrite raw_bit_flip_all, !raw_bit_bitwise, !raw_bit_flip_all
      by (try apply wf_bitwise; assumption).
    destruct (p <? N), (raw_bit T x p), (raw_bit T y p); reflexivity.
Qed.

(** The three compound assignments of the test program's swap. *)
Lemma xor_swap (g1 g2 g3 a b : DataArray) :
  wf T N g1 -> wf T N g2 -> wf T N g3 -> invariant T N a -> invariant T N b ->
  let a1 := operator_xor_assign T N g1 a b in
  let b1 := operator_xor_assign T N g2 b a1 in
  let a2 := operator_xor_assign T N g3 a1 b1 in
  a2 = b /\ b1 = a.
Proof.
  intros Hg1 Hg2 Hg3 Ha Hb a1 b1 a2.
  pose proof (invariant_wf Ha) as Hwa. pose proof (invariant_wf Hb) as Hwb.
  assert (a1 = operator_xor T N g1 a b) as Ea1
    by (apply (copy_assign_wf Hwa (wf_bitwise xorb a b Hg1))).
  assert (wf T N a1) as Hwa1 by (rewrite Ea1; apply wf_bitwise; exact Hg1).
  assert (b1 = operator_xor T N g2 b a1) as Eb1
    by (apply (copy_assign_wf Hwb (wf_bitwise xorb b a1 Hg2))).
  assert (wf T N b1) as Hwb1 by (rewrite Eb1; apply wf_bitwise; exact Hg2).
  assert (a2 = operator_xor T N g3 a1 b1) as Ea2
    by (apply (copy_assign_wf Hwa1 (wf_bitwise xorb a1 b1 Hg3))).
  assert (forall p, raw_bit T a1 p = (p <? N) && xorb (raw_bit T a p) (raw_bit T b p)) as Ba1
    by (intros p; rewrite Ea1; apply raw_bit_bitwise; exact Hg1).
  assert (forall p, raw_bit T b1 p = raw_bit T a p) as Bb1.
  { intros p. rewrite Eb1. unfold operator_xor. rewrite raw_bit_bitwise, Ba1 by exact Hg2.
    rewrite (invariant_raw_bit p Ha) at 2.
    destruct (p <? N), (raw_bit T a p), (raw_bit T b p); reflexivity. }
  split.
  - apply wf_ext with (T := T) (N := N);
      [rewrite Ea2; apply wf_bitwise; exact Hg3|exact Hwb|].
    intros p _. rewrite Ea2. unfold operator_xor.
    rewrite raw_bit_bitwise, Ba1, Bb1 by exact Hg3.
    rewrite (invariant_raw_bit p Hb) at 2.
    destruct (p <? N), (raw_bit T a p), (raw_bit T b p); reflexivity.
  - apply (wf_ext Hwb1 Hwa). intros p _. apply Bb1.
Qed.

(** *** Shifts *)

Lemma wf_operator_shl (g x : DataArray) (s : nat) :
  wf T N g -> wf T N (operator_shl T N g x s).
Proof. intros Hg. apply (proj1 (operator_shl_spec x s Hg)). Qed.

Lemma wf_operator_shr (g x : DataArray) (s : nat) :
  wf T N g -> wf T N (operator_shr T N g x s).
Proof. intros Hg. apply (proj1 (operator_shr_spec x s Hg)). Qed.

Lemma raw_bit_operator_shl (g x : DataArray) (s p : nat) :
  wf T N g ->
  raw_bit T (operator_shl T N g x s) p = (p <? N) && (s <=? p) && raw_bit T x (p - s).
Proof. intros Hg. apply (proj2 (operator_shl_spec x s Hg)). Qed.

Lemma raw_bit_operator_shr (g x : DataArray) (s p : nat) :
  wf T N g ->
  raw_bit T (operator_shr T N g x s) p = (p + s <? N) && raw_bit T x (p + s).
Proof. intros Hg. apply (proj2 (operator_shr_spec x s Hg)). Qed.

Lemma shift_zero (g x : DataArray) :
  wf T N g -> invariant T N x ->
  operator_shl T N g x 0 = x /\ operator_shr T N g x 0 = x.
Proof.
  intros Hg Hx. pose proof (invariant_wf Hx) as Hwx. split.
  - apply (wf_ext (wf_operator_shl x 0 Hg) Hwx). intros p _.
    rewrite raw_bit_operator_shl, Nat.sub_0_r, (invariant_raw_bit p Hx) by exact Hg.
    destruct (p <? N); reflexivity.
  - apply (wf_ext (wf_operator_shr x 0 Hg) Hwx). intros p _.
    rewrite raw_bit_operator_shr, Nat.add_0_r by exact Hg.
    symmetry. apply (invariant_raw_bit p Hx).
Qed.

Lemma shift_shift (g g' x : DataArray) (a b : nat) :
  wf T N g -> wf T N g' ->
  operator_shl T N g' (operator_shl T N g x a) b = operator_shl T N g x (a + b) /\
  operator_shr T N g' (operator_shr T N g x a) b = operator_shr T N g x (a + b).
Proof.
  intros Hg Hg'. split.
  - apply (wf_ext (wf_operator_shl _ b Hg') (wf_operator_shl x (a + b) Hg)). intros p _.
    rewrite !raw_bit_operator_shl by assumption.
    destruct (Nat.ltb_spec p N), (Nat.leb_spec b p), (Nat.leb_spec (a + b) p),
      (Nat.ltb_spec (p - b) N), (Nat.leb_spec a (p - b)); simpl; try lia; try reflexivity.
    f_equal. lia.
  - apply (wf_ext (wf_operator_shr _ b Hg') (wf_operator_shr x (a + b) Hg)). intros p _.
    rewrite !raw_bit_operator_shr by assumption.
    destruct (Nat.ltb_spec (p + b) N), (Nat.ltb_spec (p + b + a) N),
      (Nat.ltb_spec (p + (a + b)) N); simpl; try lia; try reflexivity.
    f_equal. lia.
Qed.

(** Shifting left and back right clears the top [s] bits; shifting
    right and back left clears the low [s] bits. *)
Lemma shift_back (g g' x : DataArray) (s p : nat) :
  wf T N g -> wf T N g' ->
  raw_bit T (operator_shr T N g' (operator_shl T N g x s) s) p
  = (p + s <? N) && raw_bit T x p /\
  raw_bit T (operator_shl T N g' (operator_shr T N g x s) s) p
  = (p <? N) && (s <=? p) && raw_bit T x p.
Proof.
  intros Hg Hg'. split.
  - rewrite raw_bit_operator_shr, raw_bit_operator_shl by assumption.
    replace (p + s - s) with p by lia.
    destruct (Nat.ltb_spec (p + s) N), (Nat.leb_spec s (p + s)); simpl; try lia; reflexivity.
  - rewrite raw_bit_operator_shl, raw_bit_operator_shr by assumption.
    destruct (Nat.ltb_spec p N), (Nat.leb_spec s p); simpl; try reflexivity.
    replace (p - s + s) with p by lia.
    destruct (Nat.ltb_spec p N); [reflexivity|lia].
Qed.

End Algebra.

(** ** Single bits *)

Section SingleBits.

Variable T : WordTy.
Variable N : nat.

Lemma index_index_assign (x : DataArray) (i q : nat) (b : bool) :
  i / TBits T < length x ->
  index T (index_assign T x i b) q = if q =? i then b else index T x q.
Proof. intros Hi. rewrite !index_raw_bit. apply raw_bit_index_assign, Hi. Qed.

Lemma set_pos_ok (x : DataArray) (pos : nat) (v : bool) :
  pos < N -> set_pos T N x pos v = Ok (index_assign T x pos v).
Proof.
  intros Hp. unfold set_pos, throw_if_out_of_range, size.
  destruct (Nat.leb_spec N pos); [lia|reflexivity].
Qed.

Lemma flip_pos_ok (x : DataArray) (pos : nat) :
  pos < N -> flip_pos T N x pos = Ok (index_assign T x pos (negb (index T x pos))).
Proof.
  intros Hp. unfold flip_pos, throw_if_out_of_range, size.
  destruct (Nat.leb_spec N pos); [lia|reflexivity].
Qed.

Lemma checked_out_of_range (A : Type) (pos : nat) (k : unit -> result A) :
  (forall u, k u <> Err OutOfRange) ->
  ((do u <- throw_if_out_of_range N pos; k u) = Err OutOfRange <-> N <= pos).
Proof.
  intros Hk. unfold throw_if_out_of_range, size.
  destruct (Nat.leb_spec N pos) as [Hle|Hlt]; simpl.
  - split; [intros _; exact Hle|reflexivity].
  - split; [intros H; destruct (Hk tt H)|lia].
Qed.

(** Writing a bit twice: the last write wins; writing the value a
    bit already has changes nothing. *)
Lemma index_assign_same (x : DataArray) (i : nat) :
  wf T N x -> i < N -> index_assign T x i (index T x i) = x.
Proof.
  intros Hx Hi. apply (wf_ext (wf_index_assign i _ Hx) Hx). intros p _.
  rewrite raw_bit_index_assign by (apply (word_of_pos_lt Hx Hi)).
  destruct (Nat.eqb_spec p i) as [->|]; [apply index_raw_bit|reflexivity].
Qed.

Lemma index_assign_twice (x : DataArray) (i : nat) (b c : bool) :
  wf T N x -> i < N ->
  index_assign T (index_assign T x i b) i c = index_assign T x i c.
Proof.
  intros Hx Hi.
  apply (wf_ext (wf_index_assign i c (wf_index_assign i b Hx)) (wf_index_assign i c Hx)).
  intros p _.
  rewrite !raw_bit_index_assign
    by (try rewrite (wf_length (wf_index_assign i b Hx)), <- (wf_length Hx);
        apply (word_of_pos_lt Hx Hi)).
  destruct (p =? i); reflexivity.
Qed.

Lemma flip_pos_twice (x : DataArray) (pos : nat) :
  wf T N x -> pos < N ->
  (do x1 <- flip_pos T N x pos; flip_pos T N x1 pos) = Ok x.
Proof.
  intros Hx Hp. rewrite (flip_pos_ok x Hp). simpl. rewrite (flip_pos_ok _ Hp).
  f_equal. rewrite index_assign_twice by assumption.
  rewrite index_index_assign by (apply (word_of_pos_lt Hx Hp)).
  rewrite Nat.eqb_refl, negb_involutive. apply index_assign_same; assumption.
Qed.

End SingleBits.

(** ** Integers and bitsets *)

Section IntegerRoundTrip.

Variable T : WordTy.
Variable N : nat.

Lemma ltb_of_nat (a b : nat) : (Z.of_nat a <? Z.of_nat b)%Z = (a <? b).
Proof.
  destruct (Nat.ltb_spec a b), (Z.ltb_spec (Z.of_nat a) (Z.of_nat b)); auto; lia.
Qed.

Lemma bits_value_ctor_ull (val : Z) :
  (0 <= val < 2 ^ 64)%Z ->
  bits_value T (ctor_ull T N val) N = (val mod 2 ^ Z.of_nat N)%Z.
Proof.
  intros Hval. destruct (ctor_ull_spec T N Hval) as [_ Hbits].
  destruct (bits_value_spec T (ctor_ull T N val) N) as [_ Hv].
  apply bits_inj_nat. intros k.
  rewrite Hv, Hbits, Z.testbit_mod_pow2, ltb_of_nat by lia.
  destruct (k <? N); reflexivity.
Qed.

Lemma bits_value_range (x : DataArray) :
  N <= 64 -> (0 <= bits_value T x N < 2 ^ 64)%Z.
Proof.
  intros HN. destruct (bits_value_spec T x N) as [[H0 H1] _].
  split; [exact H0|]. apply Z.lt_le_trans with (2 ^ Z.of_nat N)%Z; [exact H1|].
  apply Z.pow_le_mono_r; lia.
Qed.

Lemma ctor_ull_bits_value (x : DataArray) :
  N <= 64 -> invariant T N x -> ctor_ull T N (bits_value T x N) = x.
Proof.
  intros HN Hx. pose proof (bits_value_range x HN) as Hr.
  destruct (ctor_ull_spec T N Hr) as [Hwf Hbits].
  destruct (bits_value_spec T x N) as [_ Hv].
  apply (wf_ext Hwf (invariant_wf Hx)). intros p _.
  rewrite Hbits, Hv, (invariant_raw_bit p Hx).
  destruct (p <? N); reflexivity.
Qed.

Lemma bits_value_inj (x y : DataArray) :
  bits_value T x N = bits_value T y N <->
  forall p, p < N -> raw_bit T x p = raw_bit T y p.
Proof.
  destruct (bits_value_spec T x N) as [_ Hx].
  destruct (bits_value_spec T y N) as [_ Hy].
  split.
  - intros E p Hp.
    pose proof (Hx p) as H1. rewrite E, Hy in H1.
    replace (p <? N) with true in H1 by (symmetry; apply Nat.ltb_lt; exact Hp).
    simpl in H1. symmetry. exact H1.
  - intros H. apply bits_inj_nat. intros k. rewrite Hx, Hy.
    destruct (Nat.ltb_spec k N) as [Hk|]; [|reflexivity].
    simpl. apply H, Hk.
Qed.

End IntegerRoundTrip.

(** ** Strings and bitsets *)

Section StringRoundTrip.

Variable T : WordTy.
Variable N : nat.

(** The loop of the string constructor succeeds exactly when every
    character it scans is the zero or the one character. *)
Lemma ctor_string_loop_total (fuel : nat) (str : list ascii) (n : nat)
    (zero one : ascii) (i j : nat) (d : DataArray) :
  N <= j + fuel ->
  let scanned := seq i (Nat.min (n - i) (N - j)) in
  let ok := forallb (fun q => in_alphabet zero one (nth q str Ascii.zero)) scanned in
  (ok = true -> exists x, ctor_string_loop T N fuel str n zero one i j d = Ok x) /\
  (ok = false -> ctor_string_loop T N fuel str n zero one i j d = Err InvalidArgument).
Proof.
  revert i j d. induction fuel as [|fuel IH]; intros i j d Hfuel; cbv zeta.
  - replace (N - j) with 0 by lia. rewrite Nat.min_0_r. simpl.
    split; [intros _; eexists; reflexivity|discriminate].
  - cbn [ctor_string_loop].
    destruct (Nat.ltb_spec i n) as [Hi|Hi], (Nat.ltb_spec j N) as [Hj|Hj]; cbn [andb];
      try (replace (Nat.min (n - i) (N - j)) with 0 by lia; simpl;
           split; [intros _; eexists; reflexivity|discriminate]).
    replace (Nat.min (n - i) (N - j))
      with (Datatypes.S (Nat.min (n - (i + 1)) (N - (j + 1)))) by lia.
    cbn [seq forallb]. replace (Datatypes.S i) with (i + 1) by lia.
    unfold in_alphabet at 1 3.
    destruct (Ascii.eqb (nth i str Ascii.zero) one) eqn:Hone; cbn [orb andb].
    + apply IH. lia.
    + destruct (Ascii.eqb (nth i str Ascii.zero) zero) eqn:Hzero; cbn [andb].
      * apply IH. lia.
      * split; [discriminate|reflexivity].
Qed.

(** The characters the constructor scans: [str[pos .. pos + c)] with
    [c = min (min n size - pos) N]. *)
Lemma ctor_string_total (str : list ascii) (pos n : nat) (zero one : ascii) :
  let c := Nat.min (Nat.min n (length str) - pos) N in
  let ok := forallb (fun q => in_alphabet zero one (nth q str Ascii.zero)) (seq pos c) in
  ctor_string T N str pos n zero one =
  if (length str <=? pos) && negb (N =? 0) then Err OutOfRange
  else if ok then ctor_string T N str pos n zero one
  else Err InvalidArgument.
Proof.
  cbv zeta. destruct ((length str <=? pos) && negb (N =? 0)) eqn:Hoor.
  - unfold ctor_string. rewrite Hoor. reflexivity.
  - destruct (forallb _ _) eqn:Hok; [reflexivity|].
    unfold ctor_string. rewrite Hoor.
    destruct (@ctor_string_loop_total N str (Nat.min n (length str)) zero one pos 0
                (ctor_default T N) ltac:(lia)) as [_ H].
    apply H. rewrite Nat.sub_0_r. exact Hok.
Qed.

Lemma ctor_string_ok (str : list ascii) (pos n : nat) (zero one : ascii) :
  (length str <=? pos) && negb (N =? 0) = false ->
  forallb (fun q => in_alphabet zero one (nth q str Ascii.zero))
    (seq pos (Nat.min (Nat.min n (length str) - pos) N)) = true ->
  exists x, ctor_string T N str pos n zero one = Ok x.
Proof.
  intros Hoor Hok. unfold ctor_string. rewrite Hoor.
  destruct (@ctor_string_loop_total N str (Nat.min n (length str)) zero one pos 0
              (ctor_default T N) ltac:(lia)) as [H _].
  apply H. rewrite Nat.sub_0_r. exact Hok.
Qed.

Lemma ctor_string_scanned_valid (str : list ascii) (pos n : nat) (zero one : ascii)
    (x : DataArray) :
  ctor_string T N str pos n zero one = Ok x ->
  forall k, k < Nat.min (Nat.min n (length str) - pos) N ->
            in_alphabet zero one (nth (pos + k) str Ascii.zero) = true.
Proof.
  intros H k Hk. pose proof (ctor_string_total str pos n zero one) as Ht.
  cbv zeta in Ht. rewrite H in Ht.
  destruct ((length str <=? pos) && negb (N =? 0)); [discriminate|].
  destruct (forallb _ _) eqn:Hok; [|discriminate].
  rewrite forallb_forall in Hok. apply Hok, in_seq. lia.
Qed.

Lemma nth_map_seq (A : Type) (f : nat -> A) (n k : nat) (dflt : A) :
  k < n -> nth k (map f (seq 0 n)) dflt = f k.
Proof.
  intros Hk. rewrite (nth_indep _ dflt (f 0)) by (rewrite length_map, length_seq; exact Hk).
  rewrite (map_nth f), seq_nth by exact Hk. reflexivity.
Qed.

(** Parsing the string of a bitset gives the bitset back. *)
Lemma ctor_string_to_string (x : DataArray) (n : nat) (zero one : ascii) :
  invariant T N x -> zero <> one -> N <= n ->
  ctor_string T N (to_string T N x zero one) 0 n zero one = Ok x.
Proof.
  intros Hx Hne Hn.
  set (str := to_string T N x zero one).
  assert (length str = N) as Hlen
    by (subst str; rewrite to_string_spec, length_map, length_seq; reflexivity).
  assert (forall k, k < N -> nth k str Ascii.zero = if index T x k then one else zero) as Hnth
    by (intros k Hk; subst str; rewrite to_string_spec; apply nth_map_seq, Hk).
  destruct (@ctor_string_ok str 0 n zero one) as [x' Hx'].
  - rewrite Hlen. destruct (Nat.eqb_spec N 0) as [->|]; [reflexivity|].
    destruct (Nat.leb_spec N 0); [lia|reflexivity].
  - apply forallb_forall. intros q Hq. apply in_seq in Hq. rewrite Hlen in Hq.
    rewrite Hnth by lia. unfold in_alphabet.
    destruct (index T x q); rewrite Ascii.eqb_refl; [reflexivity|apply orb_true_r].
  - rewrite Hx'. f_equal.
    destruct (ctor_string_spec _ _ _ _ _ _ _ Hx') as [Hwf Hbits].
    apply (wf_ext Hwf (invariant_wf Hx)). intros p _.
    rewrite Hbits, Hlen, (invariant_raw_bit p Hx).
    replace (Nat.min (Nat.min n N - 0) N) with N by lia.
    destruct (Nat.ltb_spec p N) as [Hp|Hp]; [|reflexivity].
    simpl. rewrite Hnth by exact Hp. rewrite <- index_raw_bit.
    destruct (index T x p); [apply Ascii.eqb_refl|].
    apply Ascii.eqb_neq. exact Hne.
Qed.

(** Printing a parsed bitset gives the scanned characters back,
    followed by zero characters up to [N]. *)
Lemma to_string_ctor_string (str : list ascii) (pos n : nat) (zero one : ascii)
    (x : DataArray) :
  ctor_string T N str pos n zero one = Ok x ->
  let c := Nat.min (Nat.min n (length str) - pos) N in
  to_string T N x zero one = firstn c (skipn pos str) ++ repeat zero (N - c).
Proof.
  intros H c. pose proof (ctor_string_scanned_valid _ _ _ _ _ H) as Hvalid. fold c in Hvalid.
  destruct (ctor_string_spec _ _ _ _ _ _ _ H) as [_ Hbits]. fold c in Hbits.
  assert (c <= length str - pos) as Hc by (subst c; lia).
  assert (length (firstn c (skipn pos str)) = c) as Hlen
    by (rewrite length_firstn, length_skipn; lia).
  rewrite to_string_spec.
  apply nth_ext with (d := zero) (d' := zero).
  - rewrite length_map, length_seq, length_app, Hlen, repeat_length. subst c. lia.
  - intros k Hk. rewrite length_map, length_seq in Hk.
    rewrite nth_map_seq by exact Hk. rewrite index_raw_bit, Hbits.
    destruct (Nat.ltb_spec k c) as [Hkc|Hkc]; simpl.
    + rewrite app_nth1 by (rewrite Hlen; exact Hkc).
      rewrite nth_firstn.
      replace (k <? c) with true by (symmetry; apply Nat.ltb_lt; exact Hkc).
      rewrite nth_skipn.
      assert (pos + k < length str) as Hin by lia.
      rewrite (nth_indep str zero Ascii.zero Hin).
      specialize (Hvalid k Hkc). unfold in_alphabet in Hvalid.
      destruct (Ascii.eqb_spec (nth (pos + k) str Ascii.zero) one) as [E|E];
        [symmetry; exact E|].
      simpl in Hvalid. apply Ascii.eqb_eq in Hvalid. symmetry. exact Hvalid.
    + rewrite app_nth2 by (rewrite Hlen; exact Hkc).
      rewrite nth_repeat. reflexivity.
Qed.

End StringRoundTrip.

(** ** Streams and bitsets *)

Section StreamRoundTrip.

Variable T : WordTy.
Variable N : nat.

Local Opaque eof_char.

(** Extraction from a good stream that starts with [N - i] characters
    of the alphabet takes exactly these and leaves the stream good. *)
Lemma extract_loop_chars (zero one : ascii) (chars rest : list ascii) :
  forall (fuel i : nat) (x : DataArray),
  wf T N x -> i + length chars = N -> N <= i + fuel ->
  forallb (in_alphabet zero one) chars = true ->
  exists x',
    extract_loop T N fuel zero one i (mkIstream (chars ++ rest) false false false) x
    = (mkIstream rest false false false, x') /\
    wf T N x' /\
    forall p, raw_bit T x' p =
              if (i <=? p) && (p <? N) then Ascii.eqb (nth (p - i) chars zero) one
              else raw_bit T x p.
Proof.
  induction chars as [|c cs IH]; intros fuel i x Hx Hlen Hfuel Hvalid.
  - simpl in Hlen. exists x. split; [|split; [exact Hx|]].
    + destruct fuel as [|fuel]; [reflexivity|]. rewrite extract_loop_S.
      replace (i <? N) with false by (symmetry; apply Nat.ltb_ge; lia). reflexivity.
    + intros p. destruct (Nat.leb_spec i p), (Nat.ltb_spec p N); simpl; auto; lia.
  - simpl in Hlen, Hvalid. apply andb_true_iff in Hvalid. destruct Hvalid as [Hc Hcs].
    destruct fuel as [|fuel]; [lia|].
    rewrite extract_loop_S. unfold is_eof, is_good, is_peek, is_get, is_good.
    cbn [buf eofbit failbit badbit negb andb app].
    replace (i <? N) with true by (symmetry; apply Nat.ltb_lt; lia).
    cbn [andb negb].
    unfold in_alphabet in Hc.
    replace (negb (Ascii.eqb c one) && negb (Ascii.eqb c zero)) with false
      by (destruct (Ascii.eqb c one), (Ascii.eqb c zero); simpl in *; congruence).
    destruct (IH fuel (i + 1) (index_assign T x i (Ascii.eqb c one))
                (wf_index_assign i _ Hx) ltac:(lia) ltac:(lia) Hcs)
      as (x' & Hrun & Hwf & Hbits).
    exists x'. split; [exact Hrun|]. split; [exact Hwf|].
    intros p. rewrite Hbits.
    rewrite raw_bit_index_assign by (apply (word_of_pos_lt Hx); lia).
    destruct (Nat.leb_spec (i + 1) p), (Nat.leb_spec i p), (Nat.ltb_spec p N),
      (Nat.eqb_spec p i); simpl; try lia; try reflexivity.
    + replace (p - i) with (Datatypes.S (p - (i + 1))) by lia. reflexivity.
    + subst p. rewrite Nat.sub_diag. reflexivity.
Qed.

Lemma to_string_in_alphabet (x : DataArray) (zero one : ascii) :
  forallb (in_alphabet zero one) (to_string T N x zero one) = true.
Proof.
  rewrite to_string_spec. apply forallb_forall. intros c Hc.
  apply in_map_iff in Hc. destruct Hc as (k & <- & _). unfold in_alphabet.
  destruct (index T x k); rewrite Ascii.eqb_refl; [reflexivity|apply orb_true_r].
Qed.

(** Reading back what [to_string()] printed gives the bitset, takes
    exactly [N] characters and leaves the stream good. *)
Lemma operator_extract_to_string (x y : DataArray) (rest : list ascii) :
  invariant T N x -> wf T N y ->
  operator_extract T N
    (mkIstream (to_string T N x "0"%char "1"%char ++ rest) false false false) y
  = (mkIstream rest false false false, x).
Proof.
  intros Hx Hy. unfold operator_extract. rewrite (reset_all_wf Hy).
  destruct (@extract_loop_chars "0"%char "1"%char (to_string T N x "0"%char "1"%char) rest
              N 0 (ctor_default T N) (wf_ctor_default T N))
    as (x' & Hrun & Hwf & Hbits).
  - rewrite to_string_spec, length_map, length_seq. reflexivity.
  - lia.
  - apply to_string_in_alphabet.
  - rewrite Hrun. f_equal.
    apply (wf_ext Hwf (invariant_wf Hx)). intros p _.
    rewrite Hbits, raw_bit_ctor_default, (invariant_raw_bit p Hx). simpl.
    destruct (Nat.ltb_spec p N) as [Hp|Hp]; [|reflexivity].
    rewrite Nat.sub_0_r, to_string_spec, nth_map_seq by exact Hp.
    rewrite <- index_raw_bit. destruct (index T x p); reflexivity.
Qed.

(** *** The earlier revision of the extraction operator *)

Lemma extract_loop_old_S (fuel : nat) (zero one : ascii) (i ok : nat)
    (strm : istream) (x : DataArray) :
  extract_loop_old T N (Datatypes.S fuel) zero one i ok strm x =
  if (i <? N) && negb (is_eof strm) then
    if negb (is_good strm) then (strm, x, ok)
    else
      let '(ch, strm1) := is_peek strm in
      if negb (Ascii.eqb ch one) && negb (Ascii.eqb ch zero) then (strm1, x, ok)
      else
        let '(ch', strm2) := is_get strm1 ch in
        extract_loop_old T N fuel zero one (i + 1) (ok + 1) strm2
          (index_assign T x i (Ascii.eqb ch' one))
  else (strm, x, ok).
Proof. reflexivity. Qed.

(** The earlier loop never touches [failbit] or [badbit], and [ok]
    grows by the number of characters taken. *)
Lemma extract_loop_old_counts (zero one : ascii) :
  eof_char <> one -> eof_char <> zero ->
  forall (fuel i ok : nat) (strm : istream) (x : DataArray),
  let r := extract_loop_old T N fuel zero one i ok strm x in
  failbit (fst (fst r)) = failbit strm /\
  badbit (fst (fst r)) = badbit strm /\
  length (buf (fst (fst r))) <= length (buf strm) /\
  snd r = ok + (length (buf strm) - length (buf (fst (fst r)))).
Proof.
  intros Hone Hzero. induction fuel as [|fuel IH]; intros i ok strm x; cbv zeta.
  - simpl. rewrite Nat.sub_diag. repeat split; lia.
  - rewrite extract_loop_old_S.
    destruct ((i <? N) && negb (is_eof strm));
      [|simpl; rewrite Nat.sub_diag; repeat split; lia].
    destruct (is_good strm) eqn:Hg; cbn [negb];
      [|simpl; rewrite Nat.sub_diag; repeat split; lia].
    unfold is_peek. rewrite Hg.
    destruct strm as [b e f bd]. unfold is_good in Hg. cbn [buf eofbit failbit badbit] in *.
    destruct e, f, bd; try discriminate. clear Hg.
    destruct b as [|c rest].
    + replace (Ascii.eqb eof_char one) with false
        by (symmetry; apply Ascii.eqb_neq; exact Hone).
      replace (Ascii.eqb eof_char zero) with false
        by (symmetry; apply Ascii.eqb_neq; exact Hzero).
      simpl. repeat split; lia.
    + destruct (negb (Ascii.eqb c one) && negb (Ascii.eqb c zero)).
      * simpl. rewrite Nat.sub_diag. repeat split; lia.
      * unfold is_get, is_good. cbn [buf eofbit failbit badbit negb andb].
        specialize (IH (i + 1) (ok + 1) (mkIstream rest false false false)
                      (index_assign T x i (Ascii.eqb c one))).
        cbv zeta in IH. cbn [buf failbit badbit] in IH |- *.
        destruct IH as (H1 & H2 & H3 & H4).
        repeat split; try assumption; cbn [length]; lia.
Qed.

(** With a character already taken, the two revisions run alike on a
    good stream. *)
Lemma extract_loop_old_new_pos (zero one : ascii) :
  forall (fuel i ok : nat) (b : list ascii) (x : DataArray),
  0 < i -> 0 < ok ->
  let r := extract_loop_old T N fuel zero one i ok (mkIstream b false false false) x in
  extract_loop T N fuel zero one i (mkIstream b false false false) x = fst r /\
  0 < snd r.
Proof.
  induction fuel as [|fuel IH]; intros i ok b x Hi Hok; cbv zeta.
  - simpl. split; [reflexivity|exact Hok].
  - rewrite extract_loop_old_S, extract_loop_S.
    unfold is_eof, is_good, is_peek, is_good. cbn [buf eofbit failbit badbit negb andb].
    destruct (i <? N); cbn [andb negb]; [|split; [reflexivity|exact Hok]].
    destruct b as [|c rest].
    + destruct (negb (Ascii.eqb eof_char one) && negb (Ascii.eqb eof_char zero)).
      * replace (i =? 0) with false by (symmetry; apply Nat.eqb_neq; lia).
        split; [reflexivity|exact Hok].
      * unfold is_get, is_good, setstate_eof. cbn [buf eofbit failbit badbit negb andb].
        destruct fuel as [|fuel']; [simpl; split; [reflexivity|lia]|].
        rewrite extract_loop_old_S, extract_loop_S.
        unfold is_eof. cbn [eofbit negb]. rewrite andb_false_r.
        split; [reflexivity|simpl; lia].
    + destruct (negb (Ascii.eqb c one) && negb (Ascii.eqb c zero)).
      * replace (i =? 0) with false by (symmetry; apply Nat.eqb_neq; lia).
        split; [reflexivity|exact Hok].
      * unfold is_get, is_good. cbn [buf eofbit failbit badbit negb andb].
        apply IH; lia.
Qed.

Local Transparent eof_char.

Lemma extract_loop_old_new_top (fuel : nat) (b : list ascii) (x0 : DataArray) :
  let r := extract_loop_old T N fuel "0"%char "1"%char 0 0
             (mkIstream b false false false) x0 in
  extract_loop T N fuel "0"%char "1"%char 0 (mkIstream b false false false) x0
  = ((if (0 <? N) && (0 <? fuel) && (snd r =? 0)
      then setstate_fail (fst (fst r)) else fst (fst r)), snd (fst r)).
Proof.
  cbv zeta. destruct fuel as [|fuel].
  - simpl. rewrite andb_false_r. reflexivity.
  - rewrite extract_loop_old_S, extract_loop_S.
    unfold is_eof, is_good, is_peek, is_good. cbn [buf eofbit failbit badbit negb andb].
    destruct (0 <? N); cbn [andb negb]; [|reflexivity].
    destruct b as [|c rest].
    + reflexivity.
    + destruct (negb (Ascii.eqb c "1") && negb (Ascii.eqb c "0")); [reflexivity|].
      unfold is_get, is_good. cbn [buf eofbit failbit badbit negb andb].
      destruct (@extract_loop_old_new_pos "0"%char "1"%char fuel (0 + 1) (0 + 1) rest
                  (index_assign T x0 0 (Ascii.eqb c "1")) ltac:(lia) ltac:(lia)) as [E Hpos].
      cbv zeta in E, Hpos. rewrite E.
      destruct (extract_loop_old T N fuel "0" "1" (0 + 1) (0 + 1)
                  (mkIstream rest false false false)
                  (index_assign T x0 0 (Ascii.eqb c "1"))) as [[s1 x1] ok1].
      cbn [fst snd] in *.
      replace (ok1 =? 0) with false by (symmetry; apply Nat.eqb_neq; lia).
      reflexivity.
Qed.

(** On a stream that is good on entry the earlier revision and the
    current one agree. *)
Lemma operator_extract_old_good (strm : istream) (x : DataArray) :
  is_good strm = true ->
  operator_extract_old T N strm x = operator_extract T N strm x.
Proof.
  intros Hg. rewrite (good_stream_eta strm Hg).
  unfold operator_extract_old, operator_extract.
  rewrite extract_loop_old_new_top.
  destruct (extract_loop_old T N N "0" "1" 0 0 _ _) as [[s1 x1] ok1]. cbn [fst snd].
  destruct (Nat.eqb_spec N 0) as [->|HN]; [reflexivity|].
  replace (0 <? N) with true by (symmetry; apply Nat.ltb_lt; lia). reflexivity.
Qed.

End StreamRoundTrip.

(** ** Hashing *)

Lemma byte_bit_cons (b : Z) (rest : list Z) (k : nat) :
  byte_bit (b :: rest) k = if k <? 8 then Z.testbit b (Z.of_nat k) else byte_bit rest (k - 8).
Proof.
  unfold byte_bit. destruct (Nat.ltb_spec k 8) as [Hk|Hk].
  - rewrite Nat.div_small, Nat.mod_small by exact Hk. reflexivity.
  - replace k with ((k - 8) + 1 * 8) at 1 2 by lia.
    rewrite Nat.div_add, Nat.Div0.mod_add by lia.
    replace ((k - 8) / 8 + 1) with (Datatypes.S ((k - 8) / 8)) by lia. reflexivity.
Qed.

Lemma le_combine_nonneg (bytes : list Z) : Forall is_byte bytes -> (0 <= le_combine bytes)%Z.
Proof.
  induction 1 as [|b rest Hb _ IH]; cbn [le_combine]; [lia|].
  apply Z.lor_nonneg. split; [apply Hb|]. apply Z.shiftl_nonneg. exact IH.
Qed.

(** Bit [k] of the combined value is bit [k] of the byte buffer. *)
Lemma testbit_le_combine (bytes : list Z) (k : nat) :
  Forall is_byte bytes -> Z.testbit (le_combine bytes) (Z.of_nat k) = byte_bit bytes k.
Proof.
  intros H. revert k. induction H as [|b rest Hb _ IH]; intros k.
  - cbn [le_combine]. unfold byte_bit. rewrite Z.bits_0. destruct (k / 8); symmetry; apply Z.bits_0.
  - cbn [le_combine]. rewrite byte_bit_cons, Z.lor_spec, Z.shiftl_spec by lia.
    destruct (Nat.ltb_spec k 8) as [Hk|Hk].
    + rewrite (Z.testbit_neg_r _ (Z.of_nat k - 8)) by lia. apply orb_false_r.
    + rewrite (in_range_bits_high (n := 8) (w := b)) by (try apply Hb; lia).
      simpl. rewrite <- IH. f_equal. lia.
Qed.

Lemma le_combine_range (bytes : list Z) (n : nat) :
  Forall is_byte bytes -> length bytes <= n ->
  (0 <= le_combine bytes < 2 ^ (8 * Z.of_nat n))%Z.
Proof.
  intros H Hlen. apply range_of_bits; [lia|apply le_combine_nonneg, H|].
  intros k Hk. replace k with (Z.of_nat (Z.to_nat k)) by lia.
  rewrite testbit_le_combine by exact H. unfold byte_bit.
  rewrite nth_overflow; [apply Z.bits_0|].
  assert (n <= Z.to_nat k / 8); [|lia].
  apply Nat.div_le_lower_bound; lia.
Qed.

Lemma word_bytes_is_byte (T : WordTy) (w : Z) : Forall is_byte (word_bytes T w).
Proof.
  unfold word_bytes. apply Forall_forall. intros b Hb.
  apply in_map_iff in Hb. destruct Hb as (k & <- & _). unfold is_byte.
  change 255%Z with (Z.ones 8). rewrite Z.land_ones by lia.
  change (2 ^ 8)%Z with 256%Z. apply Z.mod_pos_bound. lia.
Qed.

Lemma bits_is_byte (T : WordTy) (d : DataArray) : Forall is_byte (bits T d).
Proof.
  unfold bits. induction d as [|w d IH]; simpl; [constructor|].
  apply Forall_app. split; [apply word_bytes_is_byte|exact IH].
Qed.

Lemma Forall_firstn (A : Type) (P : A -> Prop) (n : nat) (l : list A) :
  Forall P l -> Forall P (firstn n l).
Proof.
  intros H. revert n. induction H; intros [|n]; simpl; constructor; auto.
Qed.

Lemma Forall_skipn (A : Type) (P : A -> Prop) (n : nat) (l : list A) :
  Forall P l -> Forall P (skipn n l).
Proof.
  intros H. revert n. induction H; intros [|n]; simpl; try constructor; auto.
Qed.

(** The running value of the hash loop always fits a [std::size_t]. *)
Lemma hash_loop_range (fuel : nat) (bytes : list Z) (ret : Z) :
  Forall is_byte bytes -> (0 <= ret < 2 ^ 64)%Z ->
  (0 <= hash_loop fuel bytes ret < 2 ^ 64)%Z.
Proof.
  revert bytes ret. induction fuel as [|fuel IH]; intros bytes ret Hb Hret;
    cbn [hash_loop]; [exact Hret|].
  destruct bytes as [|b rest]; [exact Hret|].
  apply IH; [apply Forall_skipn, Hb|].
  pose proof (@le_combine_range (firstn 8 (b :: rest)) 8 (Forall_firstn 8 Hb)
                (firstn_le_length 8 _)) as Hc.
  change (8 * Z.of_nat 8)%Z with 64%Z in Hc.
  apply range_of_bits; [lia|apply Z.lxor_nonneg; lia|].
  intros k Hk. rewrite Z.lxor_spec, !(in_range_bits_high (n := 64)) by lia. reflexivity.
Qed.

(** A buffer of at most eight bytes is hashed to its little-endian
    value. *)
Lemma hash_loop_small (bytes : list Z) :
  length bytes <= 8 -> hash_loop (length bytes) bytes 0 = le_combine bytes.
Proof.
  intros Hlen. destruct bytes as [|b rest]; [reflexivity|].
  cbn [length hash_loop].
  rewrite firstn_all2 by exact Hlen. rewrite skipn_all2 by exact Hlen.
  rewrite Z.lxor_0_l. destruct (length rest); reflexivity.
Qed.

Section HashValue.

Variable T : WordTy.
Variable N : nat.

Lemma hash_code_range (x : DataArray) : (0 <= hash_code T x < 2 ^ 64)%Z.
Proof.
  unfold hash_code. apply hash_loop_range; [apply bits_is_byte|].
  split; [lia|reflexivity].
Qed.

(** Up to eight bytes of storage, the hash code of a bitset that
    satisfies the invariant is its integer value. *)
Lemma hash_code_small (x : DataArray) :
  invariant T N x -> bits_size T x <= 8 -> hash_code T x = bits_value T x N.
Proof.
  intros Hx Hsz. unfold hash_code. rewrite <- bits_length in *.
  rewrite hash_loop_small by exact Hsz.
  destruct (bits_value_spec T x N) as [_ Hv].
  apply bits_inj_nat. intros k.
  rewrite testbit_le_combine by apply bits_is_byte.
  rewrite byte_bit_bits, Hv. apply (invariant_raw_bit k Hx).
Qed.

End HashValue.

(** With 64-bit words every chunk of the hash loop is one word. *)
Lemma le_combine_word_bytes (T : WordTy) (w : Z) :
  (0 <= w < 2 ^ Z.of_nat (TBits T))%Z -> le_combine (word_bytes T w) = w.
Proof.
  intros Hw. apply bits_inj_nat. intros k.
  rewrite testbit_le_combine by apply word_bytes_is_byte.
  replace (word_bytes T w) with (bits T [w]) by (unfold bits; simpl; apply app_nil_r).
  rewrite byte_bit_bits. unfold raw_bit.
  destruct (pos_split T k) as [Hk Hr].
  destruct (k / TBits T) as [|q] eqn:Hq.
  - simpl. f_equal. lia.
  - simpl. destruct q; rewrite Z.bits_0; symmetry;
      apply (in_range_bits_high (n := Z.of_nat (TBits T))); try lia; nia.
Qed.

Lemma hash_loop_words (x : DataArray) :
  Forall (fun w => 0 <= w < 2 ^ 64)%Z x ->
  forall fuel ret, length x <= fuel ->
  hash_loop fuel (bits U64 x) ret = fold_left Z.lxor x ret.
Proof.
  induction 1 as [|w x Hw _ IH]; intros fuel ret Hfuel.
  - destruct fuel; reflexivity.
  - destruct fuel as [|fuel]; [simpl in Hfuel; lia|].
    assert (length (word_bytes U64 w) = 8) as Hlen by apply word_bytes_length.
    unfold bits. cbn [flat_map]. fold (bits U64 x).
    cbn [hash_loop].
    destruct (word_bytes U64 w ++ bits U64 x) as [|b rest] eqn:E.
    { apply (f_equal (@length _)) in E. rewrite length_app, Hlen in E. simpl in E. lia. }
    rewrite <- E.
    rewrite firstn_app, skipn_app, Hlen, Nat.sub_diag.
    rewrite firstn_all2, skipn_all2 by lia.
    simpl (firstn 0 _). simpl (skipn 0 _). rewrite app_nil_r. simpl ([] ++ _).
    rewrite (@le_combine_word_bytes U64 w Hw).
    simpl in Hfuel. rewrite IH by lia. reflexivity.
Qed.

(** * Properties of the operations *)

(** ** Checked single-bit access *)

Lemma wf_word_lt (T : WordTy) (N : nat) (x : DataArray) (pos : nat) :
  wf T N x -> pos < N -> pos / TBits T < length x.
Proof. intros Hx Hpos. apply (word_of_pos_lt Hx Hpos). Qed.

Lemma throw_in_range (N pos : nat) :
  pos < N -> throw_if_out_of_range N pos = Ok tt.
Proof.
  intros H. unfold throw_if_out_of_range, size.
  destruct (Nat.leb_spec N pos); [lia|reflexivity].
Qed.

Lemma throw_beyond (N pos : nat) :
  N <= pos -> throw_if_out_of_range N pos = Err OutOfRange.
Proof.
  intros H. unfold throw_if_out_of_range, size.
  destruct (Nat.leb_spec N pos); [reflexivity|lia].
Qed.

(** X1.  [test], [set(pos, value)], [reset(pos)] and [flip(pos)] throw
    [std::out_of_range] at every position [>= N] and at no other; at a
    position below [N], [test] returns the bit and each of the three
    writes changes that bit and no other. *)
Theorem X1_checked_single_bit (T : WordTy) (N : nat) (x : DataArray)
    (pos : nat) (v : bool) :
  wf T N x ->
  (N <= pos ->
     test T N x pos = Err OutOfRange /\
     set_pos T N x pos v = Err OutOfRange /\
     reset_pos T N x pos = Err OutOfRange /\
     flip_pos T N x pos = Err OutOfRange) /\
  (pos < N ->
     test T N x pos = Ok (index T x pos) /\
     (exists x1, set_pos T N x pos v = Ok x1 /\ wf T N x1 /\
        forall q, index T x1 q = if q =? pos then v else index T x q) /\
     (exists x0, reset_pos T N x pos = Ok x0 /\ wf T N x0 /\
        forall q, index T x0 q = if q =? pos then false else index T x q) /\
     (exists xf, flip_pos T N x pos = Ok xf /\ wf T N xf /\
        forall q, index T xf q
                  = if q =? pos then negb (index T x pos) else index T x q)).
Proof.
  intros Hx. split.
  - intros Hpos. unfold test, set_pos, reset_pos, flip_pos.
    rewrite (throw_beyond Hpos). repeat split; reflexivity.
  - intros Hpos. pose proof (wf_word_lt Hx Hpos) as Hw.
    unfold test, set_pos, reset_pos, flip_pos.
    rewrite (throw_in_range Hpos). cbn [bind].
    split; [reflexivity|].
    split; [|split]; eexists; (split; [reflexivity|]);
      (split; [apply wf_index_assign, Hx|]);
      intros q; apply index_index_assign, Hw.
Qed.

Lemma X1_checked_single_bit_witness :
  wf U16 11 [1025%Z] /\
  ((11 <= 10 ->
     test U16 11 [1025%Z] 10 = Err OutOfRange /\
     set_pos U16 11 [1025%Z] 10 false = Err OutOfRange /\
     reset_pos U16 11 [1025%Z] 10 = Err OutOfRange /\
     flip_pos U16 11 [1025%Z] 10 = Err OutOfRange) /\
   (10 < 11 ->
     test U16 11 [1025%Z] 10 = Ok (index U16 [1025%Z] 10) /\
     (exists x1, set_pos U16 11 [1025%Z] 10 false = Ok x1 /\ wf U16 11 x1 /\
        forall q, index U16 x1 q = if q =? 10 then false else index U16 [1025%Z] q) /\
     (exists x0, reset_pos U16 11 [1025%Z] 10 = Ok x0 /\ wf U16 11 x0 /\
        forall q, index U16 x0 q = if q =? 10 then false else index U16 [1025%Z] q) /\
     (exists xf, flip_pos U16 11 [1025%Z] 10 = Ok xf /\ wf U16 11 xf /\
        forall q, index U16 xf q
                  = if q =? 10 then negb (index U16 [1025%Z] 10)
                    else index U16 [1025%Z] q))).
Proof.
  assert (wf U16 11 [1025%Z]) as H by solve_wf.
  split; [exact H|exact (@X1_checked_single_bit U16 11 [1025%Z] 10 false H)].
Defined.

Lemma index_assign_comm (T : WordTy) (N : nat) (x : DataArray) (p q : nat) (b c : bool) :
  wf T N x -> p < N -> q < N -> p <> q ->
  index_assign T (index_assign T x p b) q c = index_assign T (index_assign T x q c) p b.
Proof.
  intros Hx Hp Hq Hne.
  pose proof (wf_index_assign p b Hx) as H1. pose proof (wf_index_assign q c Hx) as H2.
  apply (@wf_ext T N); try (apply wf_index_assign; assumption).
  intros r _.
  rewrite !raw_bit_index_assign
    by (first [apply (wf_word_lt Hx)|apply (wf_word_lt H1)|apply (wf_word_lt H2)]; assumption).
  destruct (Nat.eqb_spec r q), (Nat.eqb_spec r p); try reflexivity. lia.
Qed.

(** X2.  Checked writes compose as writes to a bit array: a bit that
    was set reads back, the later of two writes to one position wins,
    writes to different positions commute, and flipping a bit twice
    restores the bitset. *)
Theorem X2_single_bit_writes_compose (T : WordTy) (N : nat) (x : DataArray)
    (p q : nat) (b c : bool) :
  wf T N x -> p < N -> q < N ->
  (do x1 <- set_pos T N x p b; test T N x1 p) = Ok b /\
  (do x1 <- set_pos T N x p b; set_pos T N x1 p c) = set_pos T N x p c /\
  (p <> q ->
   (do x1 <- set_pos T N x p b; set_pos T N x1 q c)
   = (do x1 <- set_pos T N x q c; set_pos T N x1 p b)) /\
  (do x1 <- flip_pos T N x p; flip_pos T N x1 p) = Ok x /\
  (do x1 <- set_pos T N x p b; reset_pos T N x1 p) = reset_pos T N x p.
Proof.
  intros Hx Hp Hq. pose proof (wf_word_lt Hx Hp) as Hw.
  unfold test, set_pos, reset_pos.
  pose proof (throw_in_range Hp) as Tp.
  pose proof (throw_in_range Hq) as Tq.
  rewrite ?Tp, ?Tq. cbn [bind]. rewrite ?Tp, ?Tq. cbn [bind].
  repeat match goal with |- _ /\ _ => split end.
  - rewrite (@index_index_assign T x p p b Hw), Nat.eqb_refl. reflexivity.
  - f_equal. eapply index_assign_twice; eassumption.
  - intros Hne. f_equal. apply (index_assign_comm b c Hx Hp Hq Hne).
  - apply (flip_pos_twice Hx Hp).
  - f_equal. eapply index_assign_twice; eassumption.
Qed.

Lemma X2_single_bit_writes_compose_witness :
  wf U16 11 [1025%Z] /\ 3 < 11 /\ 10 < 11 /\
  ((do x1 <- set_pos U16 11 [1025%Z] 3 true; test U16 11 x1 3) = Ok true /\
   (do x1 <- set_pos U16 11 [1025%Z] 3 true; set_pos U16 11 x1 3 false)
   = set_pos U16 11 [1025%Z] 3 false /\
   (3 <> 10 ->
    (do x1 <- set_pos U16 11 [1025%Z] 3 true; set_pos U16 11 x1 10 false)
    = (do x1 <- set_pos U16 11 [1025%Z] 10 false; set_pos U16 11 x1 3 true)) /\
   (do x1 <- flip_pos U16 11 [1025%Z] 3; flip_pos U16 11 x1 3) = Ok [1025%Z] /\
   (do x1 <- set_pos U16 11 [1025%Z] 3 true; reset_pos U16 11 x1 3)
   = reset_pos U16 11 [1025%Z] 3).
Proof.
  assert (wf U16 11 [1025%Z]) as H by solve_wf.
  assert (3 < 11) as H3 by lia. assert (10 < 11) as H10 by lia.
  split; [exact H|]. split; [exact H3|]. split; [exact H10|].
  exact (@X2_single_bit_writes_compose U16 11 [1025%Z] 3 10 true false H H3 H10).
Defined.

(** ** Bulk operations and counting *)

Lemma count_of_bits (T : WordTy) (N : nat) (x : DataArray) (f : nat -> bool) :
  (forall i, i < N -> raw_bit T x i = f i) -> count T N x = count_true f N.
Proof.
  intros H. rewrite count_spec. apply count_true_ext.
  intros k Hk. rewrite index_raw_bit. apply H, Hk.
Qed.

(** X3.  [set()] sets every bit below [N] and [reset()] clears every
    bit, whatever the bitset held: after [set()], [all()] holds and
    [count()] is [N]; after [reset()] the bitset is the default one,
    [none()] holds and [count()] is 0.  Both keep the unused bits 0. *)
Theorem X3_set_and_reset (T : WordTy) (N : nat) (x : DataArray) :
  wf T N x ->
  (invariant T N (set_all T N x) /\
   (forall i, index T (set_all T N x) i = (i <? N)) /\
   all T N (set_all T N x) = true /\
   count T N (set_all T N x) = N) /\
  (reset_all T N x = ctor_default T N /\
   (forall i, index T (reset_all T N x) i = false) /\
   none T N (reset_all T N x) = true /\
   any T N (reset_all T N x) = false /\
   count T N (reset_all T N x) = 0).
Proof.
  intros Hx. destruct (set_all_spec Hx) as [Hs Hbits]. split.
  - repeat match goal with |- _ /\ _ => split end.
    + apply (@invariant_of_bits T N _ (fun _ => true) Hs).
      intros p. rewrite Hbits, andb_true_r. reflexivity.
    + intros i. rewrite index_raw_bit. apply Hbits.
    + apply (all_spec Hs). intros i Hi. rewrite index_raw_bit, Hbits.
      apply Nat.ltb_lt, Hi.
    + rewrite (@count_of_bits T N _ (fun _ => true)).
      * apply count_true_true. reflexivity.
      * intros i Hi. rewrite Hbits. apply Nat.ltb_lt, Hi.
  - rewrite (reset_all_wf Hx).
    assert (none T N (ctor_default T N) = true) as Hnone.
    { apply (none_spec (wf_ctor_default T N)). intros i _.
      rewrite index_raw_bit. apply raw_bit_ctor_default. }
    repeat match goal with |- _ /\ _ => split end.
    + reflexivity.
    + intros i. rewrite index_raw_bit. apply raw_bit_ctor_default.
    + exact Hnone.
    + unfold none in Hnone. apply negb_true_iff, Hnone.
    + rewrite (@count_of_bits T N _ (fun _ => false)).
      * apply count_true_false. reflexivity.
      * intros i _. apply raw_bit_ctor_default.
Qed.

Lemma X3_set_and_reset_witness :
  wf U16 11 [1025%Z] /\
  ((invariant U16 11 (set_all U16 11 [1025%Z]) /\
    (forall i, index U16 (set_all U16 11 [1025%Z]) i = (i <? 11)) /\
    all U16 11 (set_all U16 11 [1025%Z]) = true /\
    count U16 11 (set_all U16 11 [1025%Z]) = 11) /\
   (reset_all U16 11 [1025%Z] = ctor_default U16 11 /\
    (forall i, index U16 (reset_all U16 11 [1025%Z]) i = false) /\
    none U16 11 (reset_all U16 11 [1025%Z]) = true /\
    any U16 11 (reset_all U16 11 [1025%Z]) = false /\
    count U16 11 (reset_all U16 11 [1025%Z]) = 0)).
Proof.
  assert (wf U16 11 [1025%Z]) as H by solve_wf.
  split; [exact H|exact (@X3_set_and_reset U16 11 [1025%Z] H)].
Defined.

(** X4.  [flip()] inverts every bit below [N] and leaves the unused
    bits 0; [operator~] returns the same bitset whatever its
    temporaries held; on a bitset with the unused bits 0, flipping
    twice restores it, and a bitset and its complement have [N] set
    bits together. *)
Theorem X4_flip_and_complement (T : WordTy) (N : nat) (g g' x : DataArray) :
  wf T N g -> wf T N g' -> invariant T N x ->
  invariant T N (flip_all T N x) /\
  (forall i, index T (flip_all T N x) i = (i <? N) && negb (index T x i)) /\
  operator_not T N g g' x = flip_all T N x /\
  flip_all T N (flip_all T N x) = x /\
  count T N x + count T N (flip_all T N x) = N.
Proof.
  intros Hg Hg' Hx. pose proof (invariant_wf Hx) as Hwf.
  destruct (flip_all_spec Hwf) as [Hf Hbits].
  repeat match goal with |- _ /\ _ => split end.
  - apply (@invariant_of_bits T N _ (fun p => negb (raw_bit T x p)) Hf). exact Hbits.
  - intros i. rewrite !index_raw_bit. apply Hbits.
  - apply operator_not_flip; assumption.
  - apply flip_all_involutive, Hx.
  - rewrite (@count_of_bits T N x (raw_bit T x)) by reflexivity.
    rewrite (@count_of_bits T N _ (fun k => negb (raw_bit T x k))).
    + apply count_true_negb.
    + intros i Hi. rewrite Hbits.
      replace (i <? N) with true by (symmetry; apply Nat.ltb_lt, Hi). reflexivity.
Qed.

Lemma X4_flip_and_complement_witness :
  wf U16 11 [65535%Z] /\ wf U16 11 [4660%Z] /\
  invariant U16 11 (ctor_ull U16 11 1025) /\
  (invariant U16 11 (flip_all U16 11 (ctor_ull U16 11 1025)) /\
   (forall i, index U16 (flip_all U16 11 (ctor_ull U16 11 1025)) i
              = (i <? 11) && negb (index U16 (ctor_ull U16 11 1025) i)) /\
   operator_not U16 11 [65535%Z] [4660%Z] (ctor_ull U16 11 1025)
   = flip_all U16 11 (ctor_ull U16 11 1025) /\
   flip_all U16 11 (flip_all U16 11 (ctor_ull U16 11 1025)) = ctor_ull U16 11 1025 /\
   count U16 11 (ctor_ull U16 11 1025)
   + count U16 11 (flip_all U16 11 (ctor_ull U16 11 1025)) = 11).
Proof.
  assert (wf U16 11 [65535%Z]) as Hg by solve_wf.
  assert (wf U16 11 [4660%Z]) as Hg' by solve_wf.
  assert (invariant U16 11 (ctor_ull U16 11 1025)) as Hx
    by (apply reachable_invariant, R_ull; lia).
  split; [exact Hg|]. split; [exact Hg'|]. split; [exact Hx|].
  exact (@X4_flip_and_complement U16 11 [65535%Z] [4660%Z] _ Hg Hg' Hx).
Defined.

(** X5.  [count()] is the number of positions below [N] at which
    [operator[]] reads 1, whatever the words hold above [N]; it never
    exceeds [N], and [get_popcount] on a word counts its set bits
    below the width.  (No assumption on the array.) *)
Theorem X5_count_is_population (T : WordTy) (N : nat) (x : DataArray) :
  count T N x = count_true (index T x) N /\
  count T N x <= N /\
  forall nBits w,
    get_popcount nBits w = count_true (fun i => Z.testbit w (Z.of_nat i)) nBits.
Proof.
  split; [apply count_spec|]. split.
  - rewrite count_spec. apply count_true_le.
  - apply get_popcount_spec.
Qed.

(** X6.  [all()], [any()] and [none()] look at the positions below [N]
    alone: [all()] holds when every such bit is 1, [any()] when one is,
    [none()] when none is; [all()] is [count() == N], [none()] is
    [count() == 0], and [none()] is equality with the default bitset. *)
Theorem X6_all_any_none (T : WordTy) (N : nat) (x : DataArray) :
  wf T N x ->
  (all T N x = true <-> forall i, i < N -> index T x i = true) /\
  (any T N x = true <-> exists i, i < N /\ index T x i = true) /\
  (none T N x = true <-> forall i, i < N -> index T x i = false) /\
  all T N x = (count T N x =? N) /\
  none T N x = (count T N x =? 0) /\
  none T N x = operator_eq T N x (ctor_default T N).
Proof.
  intros Hx.
  repeat match goal with |- _ /\ _ => split end.
  - apply (all_spec Hx).
  - apply (any_spec Hx).
  - apply (none_spec Hx).
  - apply eq_true_iff_eq. rewrite (all_spec Hx), Nat.eqb_eq, count_spec. split.
    + apply count_true_true.
    + apply count_true_full.
  - apply eq_true_iff_eq. rewrite (none_spec Hx), Nat.eqb_eq, count_spec. split.
    + apply count_true_false.
    + apply count_true_zero.
  - apply none_eq_default.
Qed.

Lemma X6_all_any_none_witness :
  wf U16 11 [1025%Z] /\
  ((all U16 11 [1025%Z] = true <-> forall i, i < 11 -> index U16 [1025%Z] i = true) /\
   (any U16 11 [1025%Z] = true <-> exists i, i < 11 /\ index U16 [1025%Z] i = true) /\
   (none U16 11 [1025%Z] = true <-> forall i, i < 11 -> index U16 [1025%Z] i = false) /\
   all U16 11 [1025%Z] = (count U16 11 [1025%Z] =? 11) /\
   none U16 11 [1025%Z] = (count U16 11 [1025%Z] =? 0) /\
   none U16 11 [1025%Z] = operator_eq U16 11 [1025%Z] (ctor_default U16 11)).
Proof.
  assert (wf U16 11 [1025%Z]) as H by solve_wf.
  split; [exact H|exact (@X6_all_any_none U16 11 [1025%Z] H)].
Defined.

(** ** Bitwise algebra *)

Lemma index_bitwise (T : WordTy) (N : nat) (op : bool -> bool -> bool)
    (g x y : DataArray) (i : nat) :
  wf T N g ->
  index T (bitwise T N op g x y) i = (i <? N) && op (index T x i) (index T y i).
Proof. intros Hg. rewrite !index_raw_bit. apply raw_bit_bitwise, Hg. Qed.

(** X7.  [operator&], [operator|] and [operator^] combine the two
    operands bit by bit below [N] and return a bitset whose unused
    bits are 0; the result does not depend on what the uninitialized
    result object held, and [&=], [|=], [^=] store that same result. *)
Theorem X7_bitwise_operators (T : WordTy) (N : nat) (g g' x y : DataArray) :
  wf T N g -> wf T N g' -> wf T N x ->
  (invariant T N (operator_and T N g x y) /\
   forall i, index T (operator_and T N g x y) i
             = (i <? N) && (index T x i && index T y i)) /\
  (invariant T N (operator_or T N g x y) /\
   forall i, index T (operator_or T N g x y) i
             = (i <? N) && (index T x i || index T y i)) /\
  (invariant T N (operator_xor T N g x y) /\
   forall i, index T (operator_xor T N g x y) i
             = (i <? N) && xorb (index T x i) (index T y i)) /\
  (operator_and T N g x y = operator_and T N g' x y /\
   operator_or T N g x y = operator_or T N g' x y /\
   operator_xor T N g x y = operator_xor T N g' x y) /\
  (operator_and_assign T N g x y = operator_and T N g x y /\
   operator_or_assign T N g x y = operator_or T N g x y /\
   operator_xor_assign T N g x y = operator_xor T N g x y).
Proof.
  intros Hg Hg' Hx.
  unfold operator_and_assign, operator_or_assign, operator_xor_assign,
    operator_and, operator_or, operator_xor.
  repeat match goal with |- _ /\ _ => split end;
    try (apply invariant_bitwise, Hg);
    try (intros i; apply index_bitwise, Hg);
    try (apply bitwise_garbage; assumption);
    apply (copy_assign_wf Hx), wf_bitwise, Hg.
Qed.

Lemma X7_bitwise_operators_witness :
  wf U16 11 [65535%Z] /\ wf U16 11 [4660%Z] /\ wf U16 11 [1025%Z] /\
  ((invariant U16 11 (operator_and U16 11 [65535%Z] [1025%Z] [1027%Z]) /\
    forall i, index U16 (operator_and U16 11 [65535%Z] [1025%Z] [1027%Z]) i
              = (i <? 11) && (index U16 [1025%Z] i && index U16 [1027%Z] i)) /\
   (invariant U16 11 (operator_or U16 11 [65535%Z] [1025%Z] [1027%Z]) /\
    forall i, index U16 (operator_or U16 11 [65535%Z] [1025%Z] [1027%Z]) i
              = (i <? 11) && (index U16 [1025%Z] i || index U16 [1027%Z] i)) /\
   (invariant U16 11 (operator_xor U16 11 [65535%Z] [1025%Z] [1027%Z]) /\
    forall i, index U16 (operator_xor U16 11 [65535%Z] [1025%Z] [1027%Z]) i
              = (i <? 11) && xorb (index U16 [1025%Z] i) (index U16 [1027%Z] i)) /\
   (operator_and U16 11 [65535%Z] [1025%Z] [1027%Z]
    = operator_and U16 11 [4660%Z] [1025%Z] [1027%Z] /\
    operator_or U16 11 [65535%Z] [1025%Z] [1027%Z]
    = operator_or U16 11 [4660%Z] [1025%Z] [1027%Z] /\
    operator_xor U16 11 [65535%Z] [1025%Z] [1027%Z]
    = operator_xor U16 11 [4660%Z] [1025%Z] [1027%Z]) /\
   (operator_and_assign U16 11 [65535%Z] [1025%Z] [1027%Z]
    = operator_and U16 11 [65535%Z] [1025%Z] [1027%Z] /\
    operator_or_assign U16 11 [65535%Z] [1025%Z] [1027%Z]
    = operator_or U16 11 [65535%Z] [1025%Z] [1027%Z] /\
    operator_xor_assign U16 11 [65535%Z] [1025%Z] [1027%Z]
    = operator_xor U16 11 [65535%Z] [1025%Z] [1027%Z])).
Proof.
  assert (wf U16 11 [65535%Z]) as Hg by solve_wf.
  assert (wf U16 11 [4660%Z]) as Hg' by solve_wf.
  assert (wf U16 11 [1025%Z]) as Hx by solve_wf.
  split; [exact Hg|]. split; [exact Hg'|]. split; [exact Hx|].
  exact (@X7_bitwise_operators U16 11 [65535%Z] [4660%Z] [1025%Z] [1027%Z] Hg Hg' Hx).
Defined.

(** Two results of the binary operators are equal when their bits
    below [N] are. *)
Ltac bitset_ext T N :=
  apply (@wf_ext T N);
  [ try (apply wf_bitwise; assumption); try (apply invariant_wf; assumption)
  | try (apply wf_bitwise; assumption); try (apply invariant_wf; assumption)
  | intros ?p _ ].

Ltac bool_cases :=
  repeat match goal with
         | |- context [raw_bit ?T ?x ?p] =>
             let b := fresh "b" in
             generalize (raw_bit T x p); intros b
         end;
  repeat match goal with b : bool |- _ => destruct b end;
  try reflexivity.

Lemma bitwise_laws (T : WordTy) (N : nat) (g x y z : DataArray) :
  wf T N g ->
  (operator_and T N g x y = operator_and T N g y x /\
   operator_or T N g x y = operator_or T N g y x /\
   operator_xor T N g x y = operator_xor T N g y x) /\
  (operator_and T N g (operator_and T N g x y) z
   = operator_and T N g x (operator_and T N g y z) /\
   operator_or T N g (operator_or T N g x y) z
   = operator_or T N g x (operator_or T N g y z) /\
   operator_xor T N g (operator_xor T N g x y) z
   = operator_xor T N g x (operator_xor T N g y z)) /\
  (operator_and T N g x (operator_or T N g y z)
   = operator_or T N g (operator_and T N g x y) (operator_and T N g x z) /\
   operator_or T N g x (operator_and T N g y z)
   = operator_and T N g (operator_or T N g x y) (operator_or T N g x z)).
Proof.
  intros Hg. unfold operator_and, operator_or, operator_xor.
  repeat match goal with |- _ /\ _ => split end;
    bitset_ext T N; rewrite !raw_bit_bitwise by assumption;
    destruct (p <? N); cbn [andb]; bool_cases.
Qed.

Lemma bitwise_units (T : WordTy) (N : nat) (g x : DataArray) :
  wf T N g -> invariant T N x ->
  operator_and T N g x x = x /\
  operator_or T N g x x = x /\
  operator_or T N g x (ctor_default T N) = x /\
  operator_xor T N g x (ctor_default T N) = x /\
  operator_and T N g x (ctor_default T N) = ctor_default T N /\
  operator_and T N g x (set_all T N x) = x /\
  operator_or T N g x (set_all T N x) = set_all T N x.
Proof.
  intros Hg Hx. pose proof (invariant_wf Hx) as Hwf.
  pose proof (wf_ctor_default T N) as H0. pose proof (wf_set_all Hwf) as H1.
  unfold operator_and, operator_or, operator_xor.
  repeat match goal with |- _ /\ _ => split end;
    bitset_ext T N; try assumption;
    rewrite !raw_bit_bitwise by assumption;
    rewrite ?raw_bit_ctor_default, ?(raw_bit_set_all p Hwf);
    rewrite (invariant_raw_bit p Hx);
    destruct (p <? N); cbn [andb]; bool_cases.
Qed.

(** X8.  The operators form a Boolean algebra on the bitsets whose
    unused bits are 0: [&], [|], [^] are commutative and associative,
    [&] and [|] distribute over each other and are idempotent, the
    default bitset is the unit of [|] and [^] and absorbs [&], the
    all-ones bitset of [set()] is the unit of [&] and absorbs [|],
    [x ^ x] and [x & ~x] are the default bitset, [x | ~x] is all ones,
    and De Morgan's laws hold. *)
Theorem X8_boolean_algebra (T : WordTy) (N : nat) (g x y z : DataArray) :
  wf T N g -> invariant T N x -> invariant T N y -> invariant T N z ->
  (operator_and T N g x y = operator_and T N g y x /\
   operator_or T N g x y = operator_or T N g y x /\
   operator_xor T N g x y = operator_xor T N g y x) /\
  (operator_and T N g (operator_and T N g x y) z
   = operator_and T N g x (operator_and T N g y z) /\
   operator_or T N g (operator_or T N g x y) z
   = operator_or T N g x (operator_or T N g y z) /\
   operator_xor T N g (operator_xor T N g x y) z
   = operator_xor T N g x (operator_xor T N g y z)) /\
  (operator_and T N g x (operator_or T N g y z)
   = operator_or T N g (operator_and T N g x y) (operator_and T N g x z) /\
   operator_or T N g x (operator_and T N g y z)
   = operator_and T N g (operator_or T N g x y) (operator_or T N g x z)) /\
  (operator_and T N g x x = x /\
   operator_or T N g x x = x /\
   operator_or T N g x (ctor_default T N) = x /\
   operator_xor T N g x (ctor_default T N) = x /\
   operator_and T N g x (ctor_default T N) = ctor_default T N /\
   operator_and T N g x (set_all T N x) = x /\
   operator_or T N g x (set_all T N x) = set_all T N x) /\
  (operator_xor T N g x x = ctor_default T N /\
   operator_and T N g x (operator_not T N g g x) = ctor_default T N /\
   operator_or T N g x (operator_not T N g g x) = set_all T N x) /\
  (operator_not T N g g (operator_and T N g x y)
   = operator_or T N g (operator_not T N g g x) (operator_not T N g g y) /\
   operator_not T N g g (operator_or T N g x y)
   = operator_and T N g (operator_not T N g g x) (operator_not T N g g y)).
Proof.
  intros Hg Hx Hy Hz.
  pose proof (invariant_wf Hx) as Hwx. pose proof (invariant_wf Hy) as Hwy.
  destruct (bitwise_laws x y z Hg) as (Hc & Ha & Hd).
  split; [exact Hc|]. split; [exact Ha|]. split; [exact Hd|].
  split; [apply (bitwise_units Hg Hx)|]. split.
  - split; [apply operator_xor_self, Hg|].
    split; [apply operator_and_not; assumption|apply operator_or_not; assumption].
  - rewrite !operator_not_flip
      by (try assumption; apply wf_bitwise; assumption).
    apply de_morgan; assumption.
Qed.

Lemma X8_boolean_algebra_witness :
  wf U16 11 [65535%Z] /\
  invariant U16 11 (ctor_ull U16 11 1025) /\
  invariant U16 11 (ctor_ull U16 11 1027) /\
  invariant U16 11 (ctor_ull U16 11 7) /\
  operator_and U16 11 [65535%Z] (ctor_ull U16 11 1025)
    (operator_not U16 11 [65535%Z] [65535%Z] (ctor_ull U16 11 1025))
  = ctor_default U16 11.
Proof.
  assert (wf U16 11 [65535%Z]) as Hg by solve_wf.
  assert (invariant U16 11 (ctor_ull U16 11 1025)) as Hx
    by (apply reachable_invariant, R_ull; lia).
  assert (invariant U16 11 (ctor_ull U16 11 1027)) as Hy
    by (apply reachable_invariant, R_ull; lia).
  assert (invariant U16 11 (ctor_ull U16 11 7)) as Hz
    by (apply reachable_invariant, R_ull; lia).
  split; [exact Hg|]. split; [exact Hx|]. split; [exact Hy|]. split; [exact Hz|].
  exact (proj1 (proj2 (proj1 (proj2 (proj2 (proj2 (proj2
    (@X8_boolean_algebra U16 11 [65535%Z] _ _ _ Hg Hx Hy Hz)))))))).
Defined.

(** X9.  The exchange of two bitsets by three [^=], as the test
    program does ([cbs ^= cbs2; cbs2 ^= cbs; cbs ^= cbs2]), swaps
    them. *)
Theorem X9_xor_swap (T : WordTy) (N : nat) (g1 g2 g3 a b : DataArray) :
  wf T N g1 -> wf T N g2 -> wf T N g3 -> invariant T N a -> invariant T N b ->
  let a1 := operator_xor_assign T N g1 a b in
  let b1 := operator_xor_assign T N g2 b a1 in
  let a2 := operator_xor_assign T N g3 a1 b1 in
  a2 = b /\ b1 = a.
Proof. intros H1 H2 H3 Ha Hb. apply xor_swap; assumption. Qed.

Lemma X9_xor_swap_witness :
  wf U16 11 [65535%Z] /\ wf U16 11 [4660%Z] /\ wf U16 11 [0%Z] /\
  invariant U16 11 (ctor_ull U16 11 1024) /\
  invariant U16 11 (ctor_ull U16 11 1025) /\
  (let a1 := operator_xor_assign U16 11 [65535%Z] (ctor_ull U16 11 1024)
               (ctor_ull U16 11 1025) in
   let b1 := operator_xor_assign U16 11 [4660%Z] (ctor_ull U16 11 1025) a1 in
   let a2 := operator_xor_assign U16 11 [0%Z] a1 b1 in
   a2 = ctor_ull U16 11 1025 /\ b1 = ctor_ull U16 11 1024).
Proof.
  assert (wf U16 11 [65535%Z]) as H1 by solve_wf.
  assert (wf U16 11 [4660%Z]) as H2 by solve_wf.
  assert (wf U16 11 [0%Z]) as H3 by solve_wf.
  assert (invariant U16 11 (ctor_ull U16 11 1024)) as Ha
    by (apply reachable_invariant, R_ull; lia).
  assert (invariant U16 11 (ctor_ull U16 11 1025)) as Hb
    by (apply reachable_invariant, R_ull; lia).
  split; [exact H1|]. split; [exact H2|]. split; [exact H3|].
  split; [exact Ha|]. split; [exact Hb|].
  exact (@X9_xor_swap U16 11 _ _ _ _ _ H1 H2 H3 Ha Hb).
Defined.

(** ** Shifts *)

(** X10.  Shifts compose: shifting by [a] and then by [b] in the same
    direction is one shift by [a + b] (the sum as a natural number);
    a shift by 0 returns a bitset with unused bits 0 unchanged;
    [<<=] and [>>=] store the result of [<<] and [>>]; and shifting
    there and back keeps the bits that were not pushed out: [(x << s)
    >> s] keeps the bits below [N - s], [(x >> s) << s] those from
    [s] on. *)
Theorem X10_shifts_compose (T : WordTy) (N : nat) (g g' x : DataArray) (a b : nat) :
  wf T N g -> wf T N g' -> invariant T N x ->
  operator_shl T N g' (operator_shl T N g x a) b = operator_shl T N g x (a + b) /\
  operator_shr T N g' (operator_shr T N g x a) b = operator_shr T N g x (a + b) /\
  operator_shl T N g x 0 = x /\
  operator_shr T N g x 0 = x /\
  operator_shl_assign T N g x a = operator_shl T N g x a /\
  operator_shr_assign T N g x a = operator_shr T N g x a /\
  (forall i, index T (operator_shr T N g' (operator_shl T N g x a) a) i
             = (i + a <? N) && index T x i) /\
  (forall i, index T (operator_shl T N g' (operator_shr T N g x a) a) i
             = (i <? N) && (a <=? i) && index T x i).
Proof.
  intros Hg Hg' Hx. pose proof (invariant_wf Hx) as Hwf.
  destruct (shift_shift x a b Hg Hg') as [Hl Hr].
  destruct (shift_zero Hg Hx) as [Hl0 Hr0].
  repeat match goal with |- _ /\ _ => split end; try assumption.
  - apply (copy_assign_wf Hwf), wf_operator_shl, Hg.
  - apply (copy_assign_wf Hwf), wf_operator_shr, Hg.
  - intros i. rewrite !index_raw_bit. apply (shift_back x a i Hg Hg').
  - intros i. rewrite !index_raw_bit. apply (shift_back x a i Hg Hg').
Qed.

Lemma X10_shifts_compose_witness :
  wf U16 11 [65535%Z] /\ wf U16 11 [4660%Z] /\
  invariant U16 11 (ctor_ull U16 11 1027) /\
  operator_shl U16 11 [4660%Z] (operator_shl U16 11 [65535%Z] (ctor_ull U16 11 1027) 2) 3
  = operator_shl U16 11 [65535%Z] (ctor_ull U16 11 1027) (2 + 3).
Proof.
  assert (wf U16 11 [65535%Z]) as Hg by solve_wf.
  assert (wf U16 11 [4660%Z]) as Hg' by solve_wf.
  assert (invariant U16 11 (ctor_ull U16 11 1027)) as Hx
    by (apply reachable_invariant, R_ull; lia).
  split; [exact Hg|]. split; [exact Hg'|]. split; [exact Hx|].
  exact (proj1 (@X10_shifts_compose U16 11 [65535%Z] [4660%Z] _ 2 3 Hg Hg' Hx)).
Defined.

Lemma bits_value_shl (T : WordTy) (N : nat) (g x : DataArray) (s : nat) :
  wf T N g ->
  bits_value T (operator_shl T N g x s) N
  = ((bits_value T x N * 2 ^ Z.of_nat s) mod 2 ^ Z.of_nat N)%Z.
Proof.
  intros Hg. apply bits_inj_nat. intros k.
  destruct (bits_value_spec T (operator_shl T N g x s) N) as [_ ->].
  rewrite raw_bit_operator_shl by exact Hg.
  rewrite <- Z.shiftl_mul_pow2 by lia. rewrite testbit_shl_mod.
  destruct (bits_value_spec T x N) as [_ ->].
  destruct (Nat.ltb_spec k N) as [Hk|Hk]; cbn [andb]; [|reflexivity].
  destruct (Nat.leb_spec s k) as [Hs|Hs]; cbn [andb]; [|reflexivity].
  replace (k - s <? N) with true by (symmetry; apply Nat.ltb_lt; lia). reflexivity.
Qed.

Lemma bits_value_shr (T : WordTy) (N : nat) (g x : DataArray) (s : nat) :
  wf T N g ->
  bits_value T (operator_shr T N g x s) N
  = (bits_value T x N / 2 ^ Z.of_nat s)%Z.
Proof.
  intros Hg. apply bits_inj_nat. intros k.
  destruct (bits_value_spec T (operator_shr T N g x s) N) as [_ ->].
  rewrite raw_bit_operator_shr by exact Hg.
  rewrite <- Z.shiftr_div_pow2, Z.shiftr_spec by lia.
  replace (Z.of_nat k + Z.of_nat s)%Z with (Z.of_nat (k + s)) by lia.
  destruct (bits_value_spec T x N) as [_ ->].
  destruct (Nat.ltb_spec (k + s) N) as [Hk|Hk]; cbn [andb].
  - replace (k <? N) with true by (symmetry; apply Nat.ltb_lt; lia). reflexivity.
  - apply andb_false_r.
Qed.

(** X11.  On the integer a bitset of at most 64 bits converts to, the
    shifts are the arithmetic ones: with [v] the value of [x],
    [(x << s).to_ullong()] is [v * 2^s] reduced modulo [2^N] and
    [(x >> s).to_ullong()] is [v / 2^s]. *)
Theorem X11_shifts_as_arithmetic (T : WordTy) (N : nat) (g x : DataArray)
    (s : nat) (v : Z) :
  N <= 64 -> wf T N g -> wf T N x -> to_ullong T N x = Ok v ->
  to_ullong T N (operator_shl T N g x s)
  = Ok ((v * 2 ^ Z.of_nat s) mod 2 ^ Z.of_nat N)%Z /\
  to_ullong T N (operator_shr T N g x s) = Ok (v / 2 ^ Z.of_nat s)%Z.
Proof.
  intros HN Hg Hx Hv.
  rewrite (proj2 (to_ullong_spec Hx) HN) in Hv. injection Hv as <-.
  rewrite (proj2 (to_ullong_spec (wf_operator_shl x s Hg)) HN).
  rewrite (proj2 (to_ullong_spec (wf_operator_shr x s Hg)) HN).
  rewrite (bits_value_shl x s Hg), (bits_value_shr x s Hg). split; reflexivity.
Qed.

Lemma X11_shifts_as_arithmetic_witness :
  11 <= 64 /\ wf U16 11 [65535%Z] /\ wf U16 11 [1027%Z] /\
  to_ullong U16 11 [1027%Z] = Ok 1027%Z /\
  (to_ullong U16 11 (operator_shl U16 11 [65535%Z] [1027%Z] 2)
   = Ok ((1027 * 2 ^ Z.of_nat 2) mod 2 ^ Z.of_nat 11)%Z /\
   to_ullong U16 11 (operator_shr U16 11 [65535%Z] [1027%Z] 2)
   = Ok (1027 / 2 ^ Z.of_nat 2)%Z).
Proof.
  assert (11 <= 64) as HN by lia.
  assert (wf U16 11 [65535%Z]) as Hg by solve_wf.
  assert (wf U16 11 [1027%Z]) as Hx by solve_wf.
  assert (to_ullong U16 11 [1027%Z] = Ok 1027%Z) as Hv by (vm_compute; reflexivity).
  split; [exact HN|]. split; [exact Hg|]. split; [exact Hx|]. split; [exact Hv|].
  exact (@X11_shifts_as_arithmetic U16 11 [65535%Z] [1027%Z] 2 1027%Z HN Hg Hx Hv).
Defined.

(** ** Integers *)

(** X12.  The constructor from [unsigned long long] stores bit [i] of
    the value at position [i] for [i < N] and drops the bits from [N]
    on, leaving the unused bits 0; converting back gives the value
    modulo [2^N], so a value below [2^N] survives the round trip. *)
Theorem X12_integer_constructor (T : WordTy) (N : nat) (val : Z) :
  (0 <= val < 2 ^ 64)%Z ->
  invariant T N (ctor_ull T N val) /\
  (forall i, index T (ctor_ull T N val) i = (i <? N) && Z.testbit val (Z.of_nat i)) /\
  (N <= 64 ->
   to_ullong T N (ctor_ull T N val) = Ok (val mod 2 ^ Z.of_nat N)%Z /\
   ((val < 2 ^ Z.of_nat N)%Z -> to_ullong T N (ctor_ull T N val) = Ok val)).
Proof.
  intros Hval. destruct (ctor_ull_spec T N Hval) as [Hwf Hbits].
  split; [apply reachable_invariant, R_ull, Hval|].
  split; [intros i; rewrite index_raw_bit; apply Hbits|].
  intros HN.
  assert (to_ullong T N (ctor_ull T N val) = Ok (val mod 2 ^ Z.of_nat N)%Z) as E.
  { rewrite (proj2 (to_ullong_spec Hwf) HN). f_equal.
    apply bits_value_ctor_ull, Hval. }
  split; [exact E|]. intros Hsmall. rewrite E, Z.mod_small by lia. reflexivity.
Qed.

Lemma X12_integer_constructor_witness :
  (0 <= 5123 < 2 ^ 64)%Z /\
  (invariant U16 11 (ctor_ull U16 11 5123) /\
   (forall i, index U16 (ctor_ull U16 11 5123) i
              = (i <? 11) && Z.testbit 5123 (Z.of_nat i)) /\
   (11 <= 64 ->
    to_ullong U16 11 (ctor_ull U16 11 5123) = Ok (5123 mod 2 ^ Z.of_nat 11)%Z /\
    ((5123 < 2 ^ Z.of_nat 11)%Z -> to_ullong U16 11 (ctor_ull U16 11 5123) = Ok 5123%Z))).
Proof.
  assert (0 <= 5123 < 2 ^ 64)%Z as H by lia.
  split; [exact H|exact (@X12_integer_constructor U16 11 5123 H)].
Defined.

(** X13.  For [N <= 64] a bitset whose unused bits are 0 is rebuilt
    from its integer: [to_ullong] succeeds with a value below [2^N],
    and the constructor applied to that value returns the bitset; so
    two such bitsets convert to the same integer exactly when
    [operator==] holds, and then they are the same array. *)
Theorem X13_integer_round_trip (T : WordTy) (N : nat) (x y : DataArray) :
  N <= 64 -> invariant T N x -> invariant T N y ->
  (exists v, to_ullong T N x = Ok v /\ (0 <= v < 2 ^ Z.of_nat N)%Z /\
             ctor_ull T N v = x) /\
  (to_ullong T N x = to_ullong T N y <-> operator_eq T N x y = true) /\
  (to_ullong T N x = to_ullong T N y -> x = y).
Proof.
  intros HN Hx Hy.
  pose proof (invariant_wf Hx) as Hwx. pose proof (invariant_wf Hy) as Hwy.
  rewrite (proj2 (to_ullong_spec Hwx) HN), (proj2 (to_ullong_spec Hwy) HN).
  assert (Ok (bits_value T x N) = Ok (bits_value T y N) :> result Z
          <-> operator_eq T N x y = true) as Hiff.
  { rewrite (operator_eq_iff Hwx Hwy), <- bits_value_inj.
    split; [intros E; injection E; auto|intros ->; reflexivity]. }
  split; [|split].
  - exists (bits_value T x N). split; [reflexivity|].
    split; [apply bits_value_spec|apply ctor_ull_bits_value; assumption].
  - exact Hiff.
  - intros E. apply (operator_eq_data Hx Hy), Hiff, E.
Qed.

Lemma X13_integer_round_trip_witness :
  11 <= 64 /\
  invariant U16 11 (ctor_ull U16 11 1025) /\
  invariant U16 11 (ctor_ull U16 11 1027) /\
  ((exists v, to_ullong U16 11 (ctor_ull U16 11 1025) = Ok v /\
              (0 <= v < 2 ^ Z.of_nat 11)%Z /\
              ctor_ull U16 11 v = ctor_ull U16 11 1025) /\
   (to_ullong U16 11 (ctor_ull U16 11 1025) = to_ullong U16 11 (ctor_ull U16 11 1027)
    <-> operator_eq U16 11 (ctor_ull U16 11 1025) (ctor_ull U16 11 1027) = true) /\
   (to_ullong U16 11 (ctor_ull U16 11 1025) = to_ullong U16 11 (ctor_ull U16 11 1027)
    -> ctor_ull U16 11 1025 = ctor_ull U16 11 1027)).
Proof.
  assert (11 <= 64) as HN by lia.
  assert (invariant U16 11 (ctor_ull U16 11 1025)) as Hx
    by (apply reachable_invariant, R_ull; lia).
  assert (invariant U16 11 (ctor_ull U16 11 1027)) as Hy
    by (apply reachable_invariant, R_ull; lia).
  split; [exact HN|]. split; [exact Hx|]. split; [exact Hy|].
  exact (@X13_integer_round_trip U16 11 _ _ HN Hx Hy).
Defined.

(** ** Strings *)

(** X14.  A bitset whose unused bits are 0 is rebuilt from its string:
    the string constructor applied to [to_string(zero, one)], from
    position 0 with a count of at least [N] and the same two distinct
    characters, succeeds and returns the bitset, so the check
    [parsed != cbs] of the test program never fires. *)
Theorem X14_string_round_trip (T : WordTy) (N : nat) (x : DataArray) (n : nat)
    (zero one : ascii) :
  invariant T N x -> zero <> one -> N <= n ->
  ctor_string T N (to_string T N x zero one) 0 n zero one = Ok x /\
  operator_ne T N x x = false.
Proof.
  intros Hx Hne Hn. split; [apply ctor_string_to_string; assumption|].
  unfold operator_ne. apply negb_false_iff.
  apply (operator_eq_iff (invariant_wf Hx) (invariant_wf Hx)). reflexivity.
Qed.

Lemma X14_string_round_trip_witness :
  invariant U16 11 (ctor_ull U16 11 1025) /\ "0"%char <> "1"%char /\ 11 <= 11 /\
  (ctor_string U16 11 (to_string U16 11 (ctor_ull U16 11 1025) "0" "1") 0 11 "0" "1"
   = Ok (ctor_ull U16 11 1025) /\
   operator_ne U16 11 (ctor_ull U16 11 1025) (ctor_ull U16 11 1025) = false).
Proof.
  assert (invariant U16 11 (ctor_ull U16 11 1025)) as Hx
    by (apply reachable_invariant, R_ull; lia).
  assert ("0"%char <> "1"%char) as Hne by discriminate.
  assert (11 <= 11) as Hn by lia.
  split; [exact Hx|]. split; [exact Hne|]. split; [exact Hn|].
  exact (@X14_string_round_trip U16 11 _ 11 "0" "1" Hx Hne Hn).
Defined.

(** X15.  When the string constructor succeeds, [to_string] of the
    result, with the same two characters, is the characters it read,
    [str[pos .. pos + c)] with [c = min(min(n, size) - pos, N)] (the
    count [n] bounds the end index), followed by [N - c] zero
    characters. *)
Theorem X15_string_of_parsed (T : WordTy) (N : nat) (str : list ascii)
    (pos n : nat) (zero one : ascii) (x : DataArray) :
  ctor_string T N str pos n zero one = Ok x ->
  let c := Nat.min (Nat.min n (length str) - pos) N in
  to_string T N x zero one = firstn c (skipn pos str) ++ repeat zero (N - c).
Proof. apply to_string_ctor_string. Qed.

Lemma X15_string_of_parsed_witness :
  ctor_string U16 11 (list_ascii_of_string "xx0110101") 2 8 "0" "1"
  = Ok [22%Z] /\
  to_string U16 11 [22%Z] "0" "1"
  = firstn (Nat.min (Nat.min 8 9 - 2) 11) (skipn 2 (list_ascii_of_string "xx0110101"))
    ++ repeat "0"%char (11 - Nat.min (Nat.min 8 9 - 2) 11).
Proof.
  assert (ctor_string U16 11 (list_ascii_of_string "xx0110101") 2 8 "0" "1"
          = Ok [22%Z]) as H by (vm_compute; reflexivity).
  split; [exact H|].
  exact (@X15_string_of_parsed U16 11 _ 2 8 "0" "1" _ H).
Defined.

(** X16.  The outcome of the string constructor is decided by two
    tests.  It throws [std::out_of_range] when [pos >= str.size()] and
    [N != 0]; otherwise it throws [std::invalid_argument] when one of
    the characters it scans, [str[pos .. pos + c)] with
    [c = min(min(n, size) - pos, N)], is neither [zero] nor [one];
    otherwise it succeeds.  Characters after the scanned ones are not
    examined, and it throws nothing else. *)
Theorem X16_string_constructor_outcome (T : WordTy) (N : nat) (str : list ascii)
    (pos n : nat) (zero one : ascii) :
  let r := ctor_string T N str pos n zero one in
  let beyond := (length str <=? pos) && negb (N =? 0) in
  let c := Nat.min (Nat.min n (length str) - pos) N in
  let valid := forallb (fun q => in_alphabet zero one (nth q str Ascii.zero))
                 (seq pos c) in
  (r = Err OutOfRange <-> beyond = true) /\
  (r = Err InvalidArgument <-> beyond = false /\ valid = false) /\
  ((exists x, r = Ok x) <-> beyond = false /\ valid = true) /\
  r <> Err Overflow.
Proof.
  cbv zeta.
  pose proof (ctor_string_total T N str pos n zero one) as E. cbv zeta in E.
  pose proof (@ctor_string_ok T N str pos n zero one) as Hok.
  destruct ((length str <=? pos) && negb (N =? 0)) eqn:Hb.
  - rewrite E. repeat match goal with |- _ /\ _ => split | |- _ <-> _ => split end;
      try tauto; try discriminate; try (intros [_ C]; discriminate C);
      try (intros [C _]; discriminate C); intros [x C]; discriminate C.
  - destruct (forallb _ (seq pos _)) eqn:Hv.
    + destruct (Hok eq_refl eq_refl) as [x Hx]. rewrite Hx.
      repeat match goal with |- _ /\ _ => split | |- _ <-> _ => split end;
        try tauto; try discriminate; try (intros [_ C]; discriminate C);
        try (intros [C _]; discriminate C). exists x. reflexivity.
    + rewrite E.
      repeat match goal with |- _ /\ _ => split | |- _ <-> _ => split end;
        try tauto; try discriminate; try (intros [_ C]; discriminate C);
        try (intros [C _]; discriminate C); intros [x C]; discriminate C.
Qed.

(** ** Streams *)

(** X17.  A bitset whose unused bits are 0 is read back from its text:
    extraction from a good stream that starts with [to_string()] of
    the bitset takes exactly those [N] characters, leaves whatever
    follows in the stream, sets no state bit, and stores the bitset,
    whatever the target held; the second check of the test program,
    [is >> parsed; parsed != cbs], never fires. *)
Theorem X17_stream_round_trip (T : WordTy) (N : nat) (x y : DataArray)
    (rest : list ascii) :
  invariant T N x -> wf T N y ->
  operator_extract T N
    (mkIstream (to_string T N x "0" "1" ++ rest) false false false) y
  = (mkIstream rest false false false, x).
Proof. apply operator_extract_to_string. Qed.

Lemma X17_stream_round_trip_witness :
  invariant U16 11 (ctor_ull U16 11 1025) /\ wf U16 11 [4660%Z] /\
  operator_extract U16 11
    (mkIstream (to_string U16 11 (ctor_ull U16 11 1025) "0" "1"
                ++ list_ascii_of_string " 7") false false false) [4660%Z]
  = (mkIstream (list_ascii_of_string " 7") false false false, ctor_ull U16 11 1025).
Proof.
  assert (invariant U16 11 (ctor_ull U16 11 1025)) as Hx
    by (apply reachable_invariant, R_ull; lia).
  assert (wf U16 11 [4660%Z]) as Hy by solve_wf.
  split; [exact Hx|]. split; [exact Hy|].
  exact (@X17_stream_round_trip U16 11 _ _ (list_ascii_of_string " 7") Hx Hy).
Defined.

Lemma eof_char_not_digit : eof_char <> "1"%char /\ eof_char <> "0"%char.
Proof. split; intros C; vm_compute in C; discriminate C. Qed.

(** X18.  The earlier revision of [operator>>], which counts the
    characters it takes and sets [failbit] after the loop: on every
    stream, good or not, [failbit] is set on return exactly when it
    was set on entry or [N > 0] and no character was consumed; and on
    a stream that is good on entry it returns the same stream and the
    same bitset as the current revision. *)
Theorem X18_earlier_extraction (T : WordTy) (N : nat) (strm : istream)
    (x : DataArray) :
  let r := operator_extract_old T N strm x in
  failbit (fst r)
  = failbit strm || (negb (N =? 0) && (consumed strm (fst r) =? 0)) /\
  (is_good strm = true -> r = operator_extract T N strm x).
Proof.
  cbv zeta. split; [|apply operator_extract_old_good].
  unfold operator_extract_old, consumed.
  destruct eof_char_not_digit as [H1 H0].
  pose proof (@extract_loop_old_counts T N "0" "1" H1 H0 N 0 0 strm (reset_all T N x)) as H.
  cbv zeta in H.
  destruct (extract_loop_old T N N "0" "1" 0 0 strm (reset_all T N x)) as [[s1 x1] ok1].
  cbn [fst snd] in *. destruct H as (Hf & _ & Hlen & Hok).
  assert (length (buf strm) - length (buf s1) = ok1) as Hc by lia.
  destruct (negb (N =? 0) && (ok1 =? 0)) eqn:Hcond;
    cbn [fst setstate_fail failbit buf]; rewrite Hc.
  - rewrite Hcond. symmetry. apply orb_true_r.
  - rewrite Hcond, Hf. symmetry. apply orb_false_r.
Qed.

(** X19.  Extraction from a stream that is good on entry: the
    characters taken are a prefix of the buffer made of ['0'] and
    ['1'], at most [N] long, and it is the longest such prefix (it
    stops at [N] characters, at the end of input, or before the first
    other character, which stays in the stream); character [p] of it
    becomes bit [p], every other bit is 0, the unused bits included;
    and [failbit] is set exactly when [N > 0] and nothing was taken. *)
Theorem X19_extraction_from_good_stream (T : WordTy) (N : nat) (strm : istream)
    (x : DataArray) :
  is_good strm = true -> wf T N x ->
  let r := operator_extract T N strm x in
  let k := consumed strm (fst r) in
  buf strm = firstn k (buf strm) ++ buf (fst r) /\
  k <= N /\
  Forall (fun c => c = "1"%char \/ c = "0"%char) (firstn k (buf strm)) /\
  (k = N \/
   match buf (fst r) with [] => True | c :: _ => c <> "1"%char /\ c <> "0"%char end) /\
  (failbit (fst r) = true <-> 0 < N /\ k = 0) /\
  invariant T N (snd r) /\
  forall p, index T (snd r) p
            = (p <? k) && Ascii.eqb (nth p (buf strm) "0"%char) "1"%char.
Proof.
  intros Hg Hx. cbv zeta.
  destruct (operator_extract_good strm Hg Hx) as (H1 & H2 & H3 & H4 & H5 & H6 & H7).
  cbv zeta in *.
  repeat match goal with |- _ /\ _ => split end; try assumption.
  - apply (@invariant_of_bits T N _
             (fun p => (p <? consumed strm (fst (operator_extract T N strm x)))
                       && Ascii.eqb (nth p (buf strm) "0"%char) "1"%char) H6).
    intros p. rewrite H7.
    destruct (Nat.ltb_spec p (consumed strm (fst (operator_extract T N strm x))));
      [|rewrite andb_false_r; reflexivity].
    replace (p <? N) with true by (symmetry; apply Nat.ltb_lt; lia). reflexivity.
  - intros p. rewrite index_raw_bit. apply H7.
Qed.

Lemma X19_extraction_from_good_stream_witness :
  is_good (mkIstream (list_ascii_of_string "0101x1") false false false) = true /\
  wf U16 11 [4660%Z] /\
  (fst (operator_extract U16 11
          (mkIstream (list_ascii_of_string "0101x1") false false false) [4660%Z])
   = mkIstream (list_ascii_of_string "x1") false false false /\
   invariant U16 11
     (snd (operator_extract U16 11
             (mkIstream (list_ascii_of_string "0101x1") false false false) [4660%Z]))).
Proof.
  assert (is_good (mkIstream (list_ascii_of_string "0101x1") false false false) = true)
    as Hg by reflexivity.
  assert (wf U16 11 [4660%Z]) as Hx by solve_wf.
  split; [exact Hg|]. split; [exact Hx|]. split; [vm_compute; reflexivity|].
  exact (proj1 (proj2 (proj2 (proj2 (proj2 (proj2
    (@X19_extraction_from_good_stream U16 11 _ _ Hg Hx))))))).
Defined.

(** ** Storage, equality and hashing *)

Lemma storage_bits_tight (T : WordTy) (N : nat) :
  N <= NWords T N * TBits T /\ NWords T N * TBits T < N + TBits T.
Proof.
  pose proof (N_split T N). pose proof (NBitsRem_lt T N).
  destruct (NWords_cases T N) as [[? ->]|[? ->]]; nia.
Qed.

Lemma single_word (T : WordTy) (N : nat) :
  0 < N -> N <= TBits T -> NWords T N = 1.
Proof.
  intros H0 H1. pose proof (storage_bits_tight T N) as [Ha Hb].
  pose proof (TBits_pos T). nia.
Qed.

Lemma small_storage (T : WordTy) (N : nat) :
  N <= 64 -> NWords T N * sizeof T <= 8.
Proof.
  intros HN. pose proof (storage_bits_tight T N) as [_ Hb].
  unfold TBits in Hb. destruct T; simpl in *; lia.
Qed.

(** X20.  The bitset occupies the fewest whole words that hold [N]
    bits: [bits_size()] times 8 is at least [N] and less than [N] plus
    one word; a non-empty bitset that fits one word has exactly one;
    up to 64 bits it never takes more than 8 bytes; and the default
    word type is the narrowest of the four that holds all [N] bits, or
    the 64-bit one when none does. *)
Theorem X20_storage_layout (T : WordTy) (N : nat) (x : DataArray) :
  wf T N x ->
  (N <= 8 * bits_size T x /\ 8 * bits_size T x < N + TBits T) /\
  (N <= TBits T -> bits_size T x = if N =? 0 then 0 else sizeof T) /\
  (N <= 64 -> bits_size T x <= 8) /\
  (forall T', N <= TBits T' -> sizeof (default_T N) <= sizeof T') /\
  (N <= 64 -> N <= TBits (default_T N)) /\
  (64 < N -> default_T N = U64).
Proof.
  intros Hx. unfold bits_size. rewrite (wf_length Hx).
  pose proof (storage_bits_tight T N) as [Ha Hb].
  repeat match goal with |- _ /\ _ => split end.
  - unfold TBits in Ha. lia.
  - unfold TBits in Ha, Hb |- *. lia.
  - intros HN. destruct (Nat.eqb_spec N 0) as [->|H0].
    + destruct (zero_capacity_layout T) as (_ & _ & -> & _). reflexivity.
    + rewrite single_word by lia. lia.
  - apply small_storage.
  - intros T' HT'. unfold default_T, TBits in *.
    destruct (Nat.leb_spec N 8); [destruct T'; simpl in *; lia|].
    destruct (Nat.leb_spec N 16); [destruct T'; simpl in *; lia|].
    destruct (Nat.leb_spec N 32); destruct T'; simpl in *; lia.
  - intros HN. unfold default_T, TBits.
    destruct (Nat.leb_spec N 8); [simpl; lia|].
    destruct (Nat.leb_spec N 16); [simpl; lia|].
    destruct (Nat.leb_spec N 32); simpl; lia.
  - intros HN. unfold default_T.
    destruct (Nat.leb_spec N 8); [lia|].
    destruct (Nat.leb_spec N 16); [lia|].
    destruct (Nat.leb_spec N 32); [lia|reflexivity].
Qed.

Lemma X20_storage_layout_witness :
  wf U16 11 [1025%Z] /\
  ((11 <= 8 * bits_size U16 [1025%Z] /\ 8 * bits_size U16 [1025%Z] < 11 + TBits U16) /\
   (11 <= TBits U16 -> bits_size U16 [1025%Z] = if 11 =? 0 then 0 else sizeof U16) /\
   (11 <= 64 -> bits_size U16 [1025%Z] <= 8) /\
   (forall T', 11 <= TBits T' -> sizeof (default_T 11) <= sizeof T') /\
   (11 <= 64 -> 11 <= TBits (default_T 11)) /\
   (64 < 11 -> default_T 11 = U64)).
Proof.
  assert (wf U16 11 [1025%Z]) as H by solve_wf.
  split; [exact H|exact (@X20_storage_layout U16 11 [1025%Z] H)].
Defined.

(** X21.  [operator==] is an equivalence relation on the bitsets of
    one capacity and [operator!=] is its negation; on bitsets whose
    unused bits are 0 it holds exactly when the two arrays are the
    same, word for word. *)
Theorem X21_equality_is_equivalence (T : WordTy) (N : nat) (x y z : DataArray) :
  wf T N x -> wf T N y -> wf T N z ->
  operator_eq T N x x = true /\
  operator_eq T N x y = operator_eq T N y x /\
  (operator_eq T N x y = true -> operator_eq T N y z = true ->
   operator_eq T N x z = true) /\
  (operator_ne T N x y = true <-> exists i, i < N /\ index T x i <> index T y i) /\
  (invariant T N x -> invariant T N y -> (operator_eq T N x y = true <-> x = y)).
Proof.
  intros Hx Hy Hz.
  pose proof (operator_eq_iff Hx Hy) as Hxy. pose proof (operator_eq_iff Hy Hx) as Hyx.
  pose proof (operator_eq_iff Hy Hz) as Hyz. pose proof (operator_eq_iff Hx Hz) as Hxz.
  pose proof (operator_eq_iff Hx Hx) as Hxx.
  repeat match goal with |- _ /\ _ => split end.
  - apply Hxx. reflexivity.
  - apply eq_true_iff_eq. rewrite Hxy, Hyx.
    split; intros H p Hp; symmetry; apply H, Hp.
  - intros E1 E2. apply Hxz. intros p Hp.
    rewrite (proj1 Hxy E1 p Hp). apply (proj1 Hyz E2 p Hp).
  - unfold operator_ne. rewrite negb_true_iff. split.
    + intros Hne.
      destruct (bounded_search (fun i => negb (Bool.eqb (index T x i) (index T y i))) N)
        as [Hall|[i [Hi Hd]]].
      * assert (operator_eq T N x y = true) as C; [|congruence].
        apply Hxy. intros p Hp. specialize (Hall p Hp).
        apply negb_false_iff, Bool.eqb_prop in Hall. rewrite <- !index_raw_bit. exact Hall.
      * exists i. split; [exact Hi|]. intros E. rewrite E, Bool.eqb_reflx in Hd.
        discriminate Hd.
    + intros [i [Hi Hd]]. destruct (operator_eq T N x y) eqn:E; [|reflexivity].
      exfalso. apply Hd. rewrite !index_raw_bit. apply (proj1 Hxy eq_refl i Hi).
  - intros Ix Iy. split; [apply (operator_eq_data Ix Iy)|].
    intros <-. apply Hxx. reflexivity.
Qed.

Lemma X21_equality_is_equivalence_witness :
  wf U16 11 [1025%Z] /\ wf U16 11 [3073%Z] /\ wf U16 11 [5121%Z] /\
  (operator_eq U16 11 [1025%Z] [1025%Z] = true /\
   operator_eq U16 11 [1025%Z] [3073%Z] = operator_eq U16 11 [3073%Z] [1025%Z] /\
   (operator_eq U16 11 [1025%Z] [3073%Z] = true ->
    operator_eq U16 11 [3073%Z] [5121%Z] = true ->
    operator_eq U16 11 [1025%Z] [5121%Z] = true) /\
   (operator_ne U16 11 [1025%Z] [3073%Z] = true
    <-> exists i, i < 11 /\ index U16 [1025%Z] i <> index U16 [3073%Z] i) /\
   (invariant U16 11 [1025%Z] -> invariant U16 11 [3073%Z] ->
    (operator_eq U16 11 [1025%Z] [3073%Z] = true <-> [1025%Z] = [3073%Z]))).
Proof.
  assert (wf U16 11 [1025%Z]) as Hx by solve_wf.
  assert (wf U16 11 [3073%Z]) as Hy by solve_wf.
  assert (wf U16 11 [5121%Z]) as Hz by solve_wf.
  split; [exact Hx|]. split; [exact Hy|]. split; [exact Hz|].
  exact (@X21_equality_is_equivalence U16 11 _ _ _ Hx Hy Hz).
Defined.

(** X22.  Up to 64 bits the hash code of a bitset whose unused bits
    are 0 is the integer [to_ullong()] returns, so two such bitsets
    with the same hash code are the same bitset: no collisions. *)
Theorem X22_hash_of_small_bitsets (T : WordTy) (N : nat) (x y : DataArray) :
  N <= 64 -> invariant T N x -> invariant T N y ->
  to_ullong T N x = Ok (hash_code T x) /\
  (hash_code T x = hash_code T y -> x = y).
Proof.
  intros HN Hx Hy.
  pose proof (invariant_wf Hx) as Hwx. pose proof (invariant_wf Hy) as Hwy.
  assert (forall d, wf T N d -> bits_size T d <= 8) as Hsz.
  { intros d Hd. unfold bits_size. rewrite (wf_length Hd). apply small_storage, HN. }
  rewrite (hash_code_small Hx (Hsz x Hwx)), (hash_code_small Hy (Hsz y Hwy)).
  split; [apply (proj2 (to_ullong_spec Hwx) HN)|].
  intros E. apply (operator_eq_data Hx Hy), (operator_eq_iff Hwx Hwy).
  apply bits_value_inj, E.
Qed.

Lemma X22_hash_of_small_bitsets_witness :
  11 <= 64 /\
  invariant U16 11 (ctor_ull U16 11 1025) /\
  invariant U16 11 (ctor_ull U16 11 1027) /\
  (to_ullong U16 11 (ctor_ull U16 11 1025) = Ok (hash_code U16 (ctor_ull U16 11 1025)) /\
   (hash_code U16 (ctor_ull U16 11 1025) = hash_code U16 (ctor_ull U16 11 1027) ->
    ctor_ull U16 11 1025 = ctor_ull U16 11 1027)).
Proof.
  assert (11 <= 64) as HN by lia.
  assert (invariant U16 11 (ctor_ull U16 11 1025)) as Hx
    by (apply reachable_invariant, R_ull; lia).
  assert (invariant U16 11 (ctor_ull U16 11 1027)) as Hy
    by (apply reachable_invariant, R_ull; lia).
  split; [exact HN|]. split; [exact Hx|]. split; [exact Hy|].
  exact (@X22_hash_of_small_bitsets U16 11 _ _ HN Hx Hy).
Defined.

(** X23.  The hash code always fits a [std::size_t], and with 64-bit
    words, the default above 64 bits, it is the exclusive or of the
    words of the array. *)
Theorem X23_hash_of_words (N : nat) (x : DataArray) :
  wf U64 N x ->
  hash_code U64 x = fold_left Z.lxor x 0%Z /\
  forall T d, (0 <= hash_code T d < 2 ^ 64)%Z.
Proof.
  intros [Hlen Hr]. split; [|intros T d; apply hash_code_range].
  unfold hash_code. apply hash_loop_words.
  - exact Hr.
  - unfold bits_size. simpl. lia.
Qed.

Lemma X23_hash_of_words_witness :
  wf U64 73 [16045690984833335023%Z; 257%Z] /\
  (hash_code U64 [16045690984833335023%Z; 257%Z]
   = fold_left Z.lxor [16045690984833335023%Z; 257%Z] 0%Z /\
   forall T d, (0 <= hash_code T d < 2 ^ 64)%Z).
Proof.
  assert (wf U64 73 [16045690984833335023%Z; 257%Z]) as H by solve_wf.
  split; [exact H|exact (@X23_hash_of_words 73 _ H)].
Defined.

(** ** The proxy, the bit scan and the byte view *)

(** X24.  The proxy [reference] returned by [operator[]] for a
    position [i < N] reads and writes that one bit: [~ref] is the
    negation of the bit; assigning a [bool], assigning another proxy
    (which copies the bit it refers to, in the same bitset or in
    another, and does not rebind) and [flip()] change bit [i] and no
    other, and keep the unused bits 0. *)
Theorem X24_reference_proxy (T : WordTy) (N : nat) (x y : DataArray) (i j : nat) :
  wf T N x -> i < N ->
  ref_not x (make_ref T i) = negb (index T x i) /\
  (forall b q, index T (ref_assign T x (make_ref T i) b) q
               = if q =? i then b else index T x q) /\
  (forall q, index T (ref_assign_ref T x (make_ref T i) y (make_ref T j)) q
             = if q =? i then index T y j else index T x q) /\
  (forall q, index T (ref_assign_ref T x (make_ref T i) x (make_ref T j)) q
             = if q =? i then index T x j else index T x q) /\
  (forall q, index T (ref_flip T x (make_ref T i)) q
             = if q =? i then negb (index T x i) else index T x q) /\
  (invariant T N x ->
   (forall b, invariant T N (ref_assign T x (make_ref T i) b)) /\
   invariant T N (ref_assign_ref T x (make_ref T i) y (make_ref T j)) /\
   invariant T N (ref_flip T x (make_ref T i))).
Proof.
  intros Hx Hi. pose proof (wf_word_lt Hx Hi) as Hw.
  unfold ref_not, ref_assign_ref, ref_flip.
  fold (index T x i). fold (index T y j). fold (index T x j).
  repeat match goal with |- _ /\ _ => split end.
  - reflexivity.
  - intros b q. apply (@index_index_assign T x i q b Hw).
  - intros q. apply (@index_index_assign T x i q _ Hw).
  - intros q. apply (@index_index_assign T x i q _ Hw).
  - intros q. apply (@index_index_assign T x i q _ Hw).
  - intros Ix. repeat match goal with |- _ /\ _ => split end;
      intros; apply (invariant_index_assign _ Ix Hi).
Qed.

Lemma X24_reference_proxy_witness :
  wf U16 11 [1025%Z] /\ 3 < 11 /\
  (forall q, index U16 (ref_assign_ref U16 [1025%Z] (make_ref U16 3)
                          [1027%Z] (make_ref U16 1)) q
             = if q =? 3 then index U16 [1027%Z] 1 else index U16 [1025%Z] q).
Proof.
  assert (wf U16 11 [1025%Z]) as Hx by solve_wf.
  assert (3 < 11) as Hi by lia.
  split; [exact Hx|]. split; [exact Hi|].
  exact (proj1 (proj2 (proj2 (@X24_reference_proxy U16 11 _ [1027%Z] 3 1 Hx Hi)))).
Defined.

(** X25.  [ffs] returns 0 for a zero word and, for a non-zero word of
    the given width, one plus the position of its lowest set bit; the
    position does not depend on the width the word is scanned at. *)
Theorem X25_ffs_lowest_set_bit (nBits : nat) (w : Z) :
  (0 <= w < 2 ^ Z.of_nat nBits)%Z ->
  (ffs nBits w = 0%Z <-> w = 0%Z) /\
  (w <> 0%Z ->
   exists b, ffs nBits w = (Z.of_nat b + 1)%Z /\ b < nBits /\
             Z.testbit w (Z.of_nat b) = true /\
             (forall k, k < b -> Z.testbit w (Z.of_nat k) = false) /\
             (forall m, nBits <= m -> ffs m w = ffs nBits w)).
Proof.
  intros Hw.
  assert (w <> 0%Z ->
          exists b, ffs nBits w = (Z.of_nat b + 1)%Z /\ b < nBits /\
                    Z.testbit w (Z.of_nat b) = true /\
                    (forall k, k < b -> Z.testbit w (Z.of_nat k) = false) /\
                    (forall m, nBits <= m -> ffs m w = ffs nBits w)) as Hnz.
  { intros Hne. unfold ffs.
    destruct (Z.eqb_spec w 0) as [|_]; [contradiction|].
    destruct (find (bit_and w) (seq 0 nBits)) as [i|] eqn:Hfind.
    - destruct (@find_seq_first _ _ _ _ Hfind) as (Hr & Hi & Hlow).
      exists i. rewrite bit_and_spec in Hi.
      repeat match goal with |- _ /\ _ => split end; try lia; try assumption.
      + intros k Hk. rewrite <- bit_and_spec. apply Hlow. lia.
      + intros m Hm.
        destruct (find (bit_and w) (seq 0 m)) as [i'|] eqn:Hfind'.
        * destruct (@find_seq_first _ _ _ _ Hfind') as (Hr' & Hi' & Hlow').
          destruct (Nat.lt_trichotomy i i') as [Hlt|[->|Hgt]]; [|reflexivity|].
          -- rewrite <- bit_and_spec, Hlow' in Hi by lia. discriminate Hi.
          -- rewrite Hlow in Hi' by lia. discriminate Hi'.
        * rewrite <- bit_and_spec, (@find_seq_none _ _ _ Hfind') in Hi by lia.
          discriminate Hi.
    - exfalso. apply Hne. apply Z.bits_inj'. intros k Hk. rewrite Z.bits_0.
      destruct (Z.lt_ge_cases k (Z.of_nat nBits)).
      + replace k with (Z.of_nat (Z.to_nat k)) by lia.
        rewrite <- bit_and_spec. apply (@find_seq_none _ _ _ Hfind). lia.
      + apply (in_range_bits_high (n := Z.of_nat nBits)); lia. }
  split; [|exact Hnz]. split.
  - intros E. destruct (Z.eq_dec w 0) as [|Hne]; [assumption|].
    destruct (Hnz Hne) as (b & Hb & _). lia.
  - intros ->. reflexivity.
Qed.

Lemma X25_ffs_lowest_set_bit_witness :
  (0 <= 40 < 2 ^ Z.of_nat 8)%Z /\
  ((ffs 8 40 = 0%Z <-> 40%Z = 0%Z) /\
   (40%Z <> 0%Z ->
    exists b, ffs 8 40 = (Z.of_nat b + 1)%Z /\ b < 8 /\
              Z.testbit 40 (Z.of_nat b) = true /\
              (forall k, k < b -> Z.testbit 40 (Z.of_nat k) = false) /\
              (forall m, 8 <= m -> ffs m 40 = ffs 8 40))).
Proof.
  assert (0 <= 40 < 2 ^ Z.of_nat 8)%Z as H by (simpl; lia).
  split; [exact H|exact (@X25_ffs_lowest_set_bit 8 40 H)].
Defined.

(** X26.  The byte view [bits()] is the array in little-endian byte
    order: it has [bits_size()] bytes; bit [p] of the bitset is bit
    [p mod 8] of byte [p / 8]; two arrays with the same bytes are the
    same array; and a byte stored through the pointer of the
    non-const [bits()] changes that byte of the view and no other. *)
Theorem X26_byte_view (T : WordTy) (N : nat) (x y : DataArray) :
  wf T N x -> wf T N y ->
  length (bits T x) = bits_size T x /\
  bits_size T x = NWords T N * sizeof T /\
  Forall is_byte (bits T x) /\
  (forall p, p < N -> byte_bit (bits T x) p = index T x p) /\
  (bits T x = bits T y -> x = y) /\
  (forall k v, k < bits_size T x -> (0 <= v < 256)%Z ->
     bits T (bits_write T x k v) = update (bits T x) k v).
Proof.
  intros Hx Hy.
  repeat match goal with |- _ /\ _ => split end.
  - apply bits_length.
  - unfold bits_size. rewrite (wf_length Hx). reflexivity.
  - apply bits_is_byte.
  - intros p _. rewrite index_raw_bit. apply byte_bit_bits.
  - intros E. apply (wf_ext Hx Hy). intros p _.
    rewrite <- !byte_bit_bits, E. reflexivity.
  - intros k v Hk Hv. apply bits_bits_write; assumption.
Qed.

Lemma X26_byte_view_witness :
  wf U16 11 [1025%Z] /\ wf U16 11 [1027%Z] /\
  (length (bits U16 [1025%Z]) = bits_size U16 [1025%Z] /\
   bits_size U16 [1025%Z] = NWords U16 11 * sizeof U16 /\
   Forall is_byte (bits U16 [1025%Z]) /\
   (forall p, p < 11 -> byte_bit (bits U16 [1025%Z]) p = index U16 [1025%Z] p) /\
   (bits U16 [1025%Z] = bits U16 [1027%Z] -> [1025%Z] = [1027%Z]) /\
   (forall k v, k < bits_size U16 [1025%Z] -> (0 <= v < 256)%Z ->
      bits U16 (bits_write U16 [1025%Z] k v) = update (bits U16 [1025%Z]) k v)).
Proof.
  assert (wf U16 11 [1025%Z]) as Hx by solve_wf.
  assert (wf U16 11 [1027%Z]) as Hy by solve_wf.
  split; [exact Hx|]. split; [exact Hy|].
  exact (@X26_byte_view U16 11 _ _ Hx Hy).
Defined.

(** ** The earlier revision *)

Lemma count_old_spec (T : WordTy) (N : nat) (x : DataArray) :
  count_old T N x = count_true (index T x) N.
Proof.
  unfold count_old.
  apply (for_range_ind (fun k acc => acc = count_true (index T x) k)); [lia|reflexivity|].
  intros i acc _ ->. rewrite Nat.add_1_r, count_true_S. reflexivity.
Qed.

Lemma ctor_ull_old_loop_spec (T : WordTy) (N : nat) (fuel i : nat) (val : Z)
    (d : DataArray) :
  (0 <= val < 2 ^ Z.of_nat fuel)%Z -> wf T N d ->
  wf T N (ctor_ull_old_loop T N fuel i val d) /\
  forall p, raw_bit T (ctor_ull_old_loop T N fuel i val d) p
            = raw_bit T d p
              || ((i <=? p) && (p <? N) && Z.testbit val (Z.of_nat (p - i))).
Proof.
  revert i val d. induction fuel as [|fuel IH]; intros i val d Hval Hd.
  - assert (val = 0%Z) as -> by (simpl in Hval; lia).
    split; [exact Hd|]. intros p. simpl. rewrite Z.bits_0, andb_false_r, orb_false_r.
    reflexivity.
  - cbn [ctor_ull_old_loop].
    destruct (Z.eqb_spec val 0) as [->|Hne]; cbn [negb andb].
    { split; [exact Hd|]. intros p. rewrite Z.bits_0, andb_false_r, orb_false_r.
      reflexivity. }
    destruct (Nat.ltb_spec i N) as [Hi|Hi].
    2:{ split; [exact Hd|]. intros p.
        destruct (Nat.leb_spec i p), (Nat.ltb_spec p N); cbn [andb];
          try (rewrite orb_false_r; reflexivity); lia. }
    pose proof (@shiftr_land_1 val 0 (Z.le_refl 0)) as Hbit.
    rewrite Z.shiftr_0_r in Hbit. rewrite Hbit.
    set (d' := if Z.testbit val 0 then index_assign T d i true else d).
    assert (wf T N d') as Hd'
      by (subst d'; destruct (Z.testbit val 0); [apply wf_index_assign|]; exact Hd).
    assert (0 <= Z.shiftr val 1 < 2 ^ Z.of_nat fuel)%Z as Hval'.
    { rewrite Z.shiftr_div_pow2 by lia. change (2 ^ 1)%Z with 2%Z.
      rewrite Nat2Z.inj_succ, Z.pow_succ_r in Hval by lia.
      split; [apply Z.div_pos; lia|apply Z.div_lt_upper_bound; lia]. }
    destruct (IH (i + 1) (Z.shiftr val 1) d' Hval' Hd') as [Hwf Hbits].
    split; [exact Hwf|]. intros p. rewrite Hbits.
    assert (raw_bit T d' p = raw_bit T d p || ((p =? i) && Z.testbit val 0)) as ->.
    { subst d'. destruct (Z.testbit val 0).
      - rewrite raw_bit_index_assign by (apply (word_of_pos_lt Hd Hi)).
        destruct (p =? i); [rewrite orb_true_r|rewrite orb_false_r]; reflexivity.
      - rewrite andb_false_r, orb_false_r. reflexivity. }
    rewrite Z.shiftr_spec by lia.
    destruct (Nat.eqb_spec p i) as [->|Hpi].
    + rewrite Nat.sub_diag. change (Z.of_nat 0) with 0%Z.
      replace (i + 1 <=? i) with false by (symmetry; apply Nat.leb_gt; lia).
      replace (i <=? i) with true by (symmetry; apply Nat.leb_le; lia).
      replace (i <? N) with true by (symmetry; apply Nat.ltb_lt; lia).
      cbn [andb]. rewrite orb_false_r. reflexivity.
    + cbn [andb]. rewrite orb_false_r.
      destruct (Nat.leb_spec (i + 1) p) as [Hle|Hgt].
      * replace (i <=? p) with true by (symmetry; apply Nat.leb_le; lia).
        replace (Z.of_nat (p - (i + 1)) + 1)%Z with (Z.of_nat (p - i)) by lia.
        reflexivity.
      * replace (i <=? p) with false by (symmetry; apply Nat.leb_gt; lia).
        reflexivity.
Qed.

Lemma ctor_string_old_loop_eq (T : WordTy) (N : nat) (fuel : nat) (str : list ascii)
    (n : nat) (zero one : ascii) (i j : nat) (d : DataArray) :
  wf T N d -> (forall p, j <= p -> raw_bit T d p = false) ->
  ctor_string_old_loop T N fuel str n zero one i j d
  = ctor_string_loop T N fuel str n zero one i j d.
Proof.
  revert i j d. induction fuel as [|fuel IH]; intros i j d Hd Hclear; [reflexivity|].
  cbn [ctor_string_old_loop ctor_string_loop].
  destruct (i <? n); cbn [andb]; [|reflexivity].
  destruct (Nat.ltb_spec j N) as [Hj|Hj]; [|reflexivity].
  destruct (Ascii.eqb (nth i str Ascii.zero) one).
  - apply IH; [apply wf_index_assign, Hd|].
    intros p Hp. rewrite raw_bit_index_assign by (apply (word_of_pos_lt Hd Hj)).
    destruct (Nat.eqb_spec p j); [lia|apply Hclear; lia].
  - destruct (Ascii.eqb (nth i str Ascii.zero) zero); [|reflexivity].
    assert (index_assign T d j false = d) as ->.
    { rewrite <- (Hclear j (le_n j)), <- index_raw_bit.
      apply (index_assign_same Hd Hj). }
    apply IH; [exact Hd|]. intros p Hp. apply Hclear. lia.
Qed.

(** X27.  Three functions that the current revision rewrote compute
    what they computed before.  [count()], now a population count word
    by word, returns the number the earlier bit-by-bit loop returned,
    on every array; the constructor from [unsigned long long], now a
    scan for the lowest set bit, builds the bitset the earlier
    shift-and-test loop built; and the string constructor returns or
    throws what the earlier one did whenever [N > 0] or [pos] lies
    inside the string, while for [N = 0] and [pos >= str.size()] the
    earlier one threw [std::out_of_range] and the current one returns
    the empty bitset. *)
Theorem X27_rewrites_preserve_results (T : WordTy) (N : nat) (x : DataArray)
    (val : Z) (str : list ascii) (pos n : nat) (zero one : ascii) :
  (0 <= val < 2 ^ 64)%Z ->
  count_old T N x = count T N x /\
  ctor_ull_old T N val = ctor_ull T N val /\
  (0 < N \/ pos < length str ->
   ctor_string_old T N str pos n zero one = ctor_string T N str pos n zero one) /\
  (N = 0 -> length str <= pos ->
   ctor_string_old T N str pos n zero one = Err OutOfRange /\
   ctor_string T N str pos n zero one = Ok (ctor_default T N)).
Proof.
  intros Hval.
  repeat match goal with |- _ /\ _ => split end.
  - rewrite count_old_spec, count_spec. reflexivity.
  - destruct (@ctor_ull_old_loop_spec T N 64 0 val (ctor_default T N) Hval
                (wf_ctor_default T N)) as [Hwf Hbits].
    destruct (ctor_ull_spec T N Hval) as [Hwf' Hbits'].
    apply (wf_ext Hwf Hwf'). intros p _. unfold ctor_ull_old.
    rewrite Hbits, Hbits', raw_bit_ctor_default, Nat.sub_0_r. reflexivity.
  - intros Hcase. unfold ctor_string_old, ctor_string.
    destruct (Nat.leb_spec (length str) pos) as [Hle|Hlt].
    + destruct Hcase as [HN|Hpos]; [|lia].
      replace (N =? 0) with false by (symmetry; apply Nat.eqb_neq; lia). reflexivity.
    + cbn [andb]. apply ctor_string_old_loop_eq; [apply wf_ctor_default|].
      intros p _. apply raw_bit_ctor_default.
  - intros -> Hle. unfold ctor_string_old, ctor_string.
    destruct (Nat.leb_spec (length str) pos) as [_|Hlt]; [|lia].
    split; reflexivity.
Qed.

Lemma X27_rewrites_preserve_results_witness :
  (0 <= 5123 < 2 ^ 64)%Z /\
  (count_old U16 11 [1025%Z] = count U16 11 [1025%Z] /\
   ctor_ull_old U16 11 5123 = ctor_ull U16 11 5123 /\
   (0 < 11 \/ 2 < length (list_ascii_of_string "xx0110101") ->
    ctor_string_old U16 11 (list_ascii_of_string "xx0110101") 2 8 "0" "1"
    = ctor_string U16 11 (list_ascii_of_string "xx0110101") 2 8 "0" "1") /\
   (11 = 0 -> length (list_ascii_of_string "xx0110101") <= 2 ->
    ctor_string_old U16 11 (list_ascii_of_string "xx0110101") 2 8 "0" "1"
    = Err OutOfRange /\
    ctor_string U16 11 (list_ascii_of_string "xx0110101") 2 8 "0" "1"
    = Ok (ctor_default U16 11))).
Proof.
  assert (0 <= 5123 < 2 ^ 64)%Z as H by lia.
  split; [exact H|].
  exact (@X27_rewrites_preserve_results U16 11 [1025%Z] 5123
           (list_ascii_of_string "xx0110101") 2 8 "0" "1" H).
Defined.
